(** * The intro sequencer of eligoldfine.com: observatory animation and page glue

    A shallow embedding of [observatory.js] (the [ObservatoryAnimation]
    module: seeded generator, particle pools, phase scheduler, sequence
    controller) and of the landing-page script (skip handling, dot and orbit
    pools), with the properties of the sequencer proved over it.

    Numbers.  JavaScript numbers are IEEE doubles.  Integers that the code
    keeps below 2^53 (the generator state, element counts, viewport sizes)
    are modelled by [Z]; every other number by an exact rational [Q], so
    rounding of the last bit is not represented.  Decimal literals are the
    rationals they denote ([0.08] is [8 # 100]).  Where a property could
    depend on the last bit it is stated with a margin.

    Exceptions.  The drawing context raises [IndexSizeError] for a negative
    radius, and [render] catches nothing.  [drawApproach] is modelled with
    the exceptions it raises; the bodies of [drawOptics], [drawDataTransform]
    and [drawCosmos] are not modelled, and whether a call of a renderer
    raises is a parameter of the controller: what is proved of the
    controller holds whatever these three do. *)

From Stdlib Require Import ZArith QArith Qminmax Qround Qabs Lia Lqa List Bool.
From Stdlib Require String.
Import String.StringSyntax.
Delimit Scope string_scope with string.
Import ListNotations.

Local Open Scope Q_scope.

(** ** Utilities (observatory.js, lines 14-22) *)

Definition Math_max (a b : Q) : Q := Qmax a b.
Definition Math_min (a b : Q) : Q := Qmin a b.
Definition Math_floor (x : Q) : Z := Qfloor x.

(** [a < b] and [a <= b] as the booleans the JavaScript comparisons return. *)
Definition Qltb (a b : Q) : bool := negb (Qle_bool b a).
Definition Qleb (a b : Q) : bool := Qle_bool a b.

Definition lerp (a b t : Q) : Q := a + (b - a) * t.
Definition clamp (v lo hi : Q) : Q := Math_max lo (Math_min hi v).
Definition easeInOut (t : Q) : Q :=
  if Qltb t (1 # 2) then 2 * t * t
  else 1 - ((-(2) * t + 2) * (-(2) * t + 2)) / 2.
Definition easeIn (t : Q) : Q := t * t * t.
Definition easeOut (t : Q) : Q := 1 - (1 - t) * (1 - t) * (1 - t).
Definition smoothstep (e0 e1 x : Q) : Q :=
  let t := clamp ((x - e0) / (e1 - e0)) 0 1 in
  t * t * (3 - 2 * t).

(** ** Deterministic generator (observatory.js, lines 23-26)

    [seededRng(seed)] returns a closure over one variable [s].  [%] is the
    JavaScript remainder, which truncates towards zero and takes the sign of
    the dividend: [Z.rem].  The product [s * 16807] is exact in a double as
    long as it stays below 2^53, which holds after the first call whatever
    the seed, and at the first call for seeds up to [max_exact_seed]. *)

Module Rng.

Definition M : Z := 2147483647.
Definition A : Z := 16807.
Definition max_exact_seed : Z := 2 ^ 53 / A.

  (** The captured variable after one call. *)
Definition step (s : Z) : Z := Z.rem (s * A) M.

  (** The value returned by a call that leaves the variable at [s]. *)
Definition out (s : Z) : Q := inject_Z (s - 1) / inject_Z 2147483646.

  (** One call of the closure: returned value and new captured variable. *)
Definition next (s : Z) : Q * Z := let s' := step s in (out s', s').

  (** Captured variable after [n] calls of [seededRng(seed)]. *)
Fixpoint state (seed : Z) (n : nat) : Z :=
    match n with
    | O => seed
    | S k => step (state seed k)
    end.

  (** The [n]-th value returned (counting from 0). *)
Definition output (seed : Z) (n : nat) : Q := fst (next (state seed n)).

  (** The first [n] values returned by a fresh generator. *)
Fixpoint stream (s : Z) (n : nat) : list Q :=
    match n with
    | O => []
    | S k => let (x, s') := next s in x :: stream s' k
    end.

  (** *** Closures in a heap

      Each call of [seededRng] allocates a fresh captured variable; a
      generator is the address of its variable.  Calls on different
      generators may be interleaved in any order. *)

Record heap := { cells : nat -> Z; fresh : nat }.

Definition seededRng (seed : Z) (h : heap) : nat * heap :=
    (fresh h,
     {| cells := fun a => if Nat.eqb a (fresh h) then seed else cells h a;
        fresh := S (fresh h) |}).

Definition call (g : nat) (h : heap) : Q * heap :=
    let (x, s') := next (cells h g) in
    (x, {| cells := fun a => if Nat.eqb a g then s' else cells h a;
           fresh := fresh h |}).

  (** Runs the calls of [sched] in order and returns, for generator [g], the
      values it returned. *)
Fixpoint outputs_of (g : nat) (sched : list nat) (h : heap) : list Q :=
    match sched with
    | [] => []
    | g' :: rest =>
        let (x, h') := call g' h in
        if Nat.eqb g' g then x :: outputs_of g rest h'
        else outputs_of g rest h'
    end.

End Rng.

(** ** Transcendental functions

    [Math.PI] is the double nearest to pi, itself a rational.  ECMAScript
    leaves [Math.sin] and [Math.cos] implementation-approximated; they are
    modelled by a Taylor polynomial after reduction to one period, computed in
    fixed point and rounded to a grid of 1e-15.  No theorem below relies on their accuracy: statements
    over all frames quantify over the value of the sine. *)

Module JsMath.

Definition PI : Q := 884279719003555 # 281474976710656.

  (** Rounding down to a multiple of [1 / 10^d]. *)
Definition fixed (d : Z) (x : Q) : Q :=
    Qfloor (x * inject_Z (10 ^ d)) # Z.to_pos (10 ^ d).

Definition grid (x : Q) : Q := fixed 15 x.

  (** Argument reduced to the period centred on 0. *)
Definition reduce (x : Q) : Q :=
    fixed 18 (x - 2 * PI * inject_Z (Qfloor (x / (2 * PI) + (1 # 2)))).

  (** [x - x^3/3! + x^5/5! - ...], [n] further terms after [term], whose
      odd index is [k]; every term is kept to 18 places. *)
Fixpoint series (n : nat) (x2 term : Q) (k : Z) (acc : Q) : Q :=
    match n with
    | O => acc
    | S m =>
        let term' := fixed 18 (- term * x2 / inject_Z ((k + 1) * (k + 2))) in
        series m x2 term' (k + 2) (fixed 18 (acc + term'))
    end.

Definition sin (x : Q) : Q :=
    let y := reduce x in
    Qmax (-(1)) (Qmin 1 (grid (series 14 (fixed 18 (y * y)) y 1 y))).

Definition cos (x : Q) : Q := sin (x + PI / 2).

  (** Square root to 15 decimal places, exact on squares of grid numbers;
      [Math.sqrt] of a negative number is NaN, which no caller below meets. *)
Definition sqrt (x : Q) : Q :=
    Z.sqrt (Qfloor (x * inject_Z (10 ^ 30))) # Z.to_pos (10 ^ 15).

Definition hypot (a b : Q) : Q := sqrt (a * a + b * b).

  (** Rounding towards zero. *)
Definition trunc (x : Q) : Z := if Qle_bool 0 x then Qfloor x else Qceiling x.

  (** The remainder [x % m] of two numbers: NaN ([None]) when [m] is 0,
      otherwise [x - m * trunc (x / m)], with the sign of [x]. *)
Definition rem (x m : Q) : option Q :=
    if Qeq_bool m 0 then None else Some (x - m * inject_Z (trunc (x / m))).

End JsMath.

(** ** Particle pools (observatory.js, lines 29-149) *)

Record BgStar := { bg_x : Q; bg_y : Q; bg_size : Q; bg_brightness : Q;
                   bg_twinkle : Q; bg_speed : Q }.
Record Dust := { du_x : Q; du_y : Q; du_size : Q; du_vx : Q; du_vy : Q;
                 du_opacity : Q; du_phase : Q }.
Record LensRing := { lr_z : Q; lr_radius : Q; lr_hue : Q; lr_thickness : Q;
                     lr_rotSpeed : Q }.
Record Star := { st_angle : Q; st_dist : Q; st_size : Q; st_hue : Q; st_sat : Q;
                 st_br : Q; st_twPhase : Q; st_twSpeed : Q; st_ySkew : Q }.
Record Node := { nd_x : Q; nd_y : Q; nd_size : Q; nd_pPhase : Q; nd_pSpeed : Q }.
Record Edge := { e_from : nat; e_to : nat; e_str : Q }.
Record Neural := { nodes : list Node; edges : list Edge }.
Record Candle := { open : Q; close : Q; high : Q; low : Q; bull : bool }.
Record Comet := { co_phase : Q; co_speed : Q; co_radius : Q; co_ecc : Q;
                  co_hue : Q; co_tail : Q }.
Record OrderCol := { oc_x : Q; oc_height : Q; oc_width : Q; oc_hue : Q;
                     oc_speed : Q; oc_phase : Q }.

(** The eight module-level pool variables. *)
Record Pools := {
  bgStars : list BgStar;
  dust : list Dust;
  lensRings : list LensRing;
  stars : list Star;
  neural : Neural;
  candles : list Candle;
  comets : list Comet;
  orderCols : list OrderCol
}.

(** Code that draws numbers one after the other: a state monad over the
    state [S] of the source of numbers. *)
Definition State (S A : Type) : Type := S -> A * S.
Definition ret {S A} (a : A) : State S A := fun s => (a, s).
Definition bind {S A B} (m : State S A) (k : A -> State S B) : State S B :=
  fun s => let (a, s') := m s in k a s'.
Declare Scope state_scope.
Notation "x <- m ;; k" := (bind m (fun x => k))
  (at level 61, m at next level, right associativity) : state_scope.
Local Open Scope state_scope.

(** [for (let i = i0; i < i0 + n; i++) pool.push(body(i))]. *)
Fixpoint forPush {S A} (n : nat) (i : Z) (body : Z -> State S A) : State S (list A) :=
  match n with
  | O => ret []
  | S k => x <- body i ;; xs <- forPush k (i + 1)%Z body ;; ret (x :: xs)
  end.

(** Code that draws from the generator [r] of [initParticles]: the state is
    the captured variable of the closure. *)
Definition Gen (A : Type) : Type := State Z A.

(** A call [r()]. *)
Definition r : Gen Q := Rng.next.

Definition genBgStar (_ : Z) : Gen BgStar :=
  x <- r ;; y <- r ;; size <- r ;; brightness <- r ;; twinkle <- r ;; speed <- r ;;
  ret {| bg_x := x; bg_y := y * (4 # 10);
         bg_size := (3 # 10) + size * (18 # 10);
         bg_brightness := (4 # 10) + brightness * (6 # 10);
         bg_twinkle := twinkle * JsMath.PI * 2;
         bg_speed := (5 # 10) + speed * 2 |}.

Definition genDust (_ : Z) : Gen Dust :=
  x <- r ;; y <- r ;; size <- r ;; vx <- r ;; vy <- r ;; opacity <- r ;; phase <- r ;;
  ret {| du_x := x; du_y := y;
         du_size := (5 # 10) + size * (25 # 10);
         du_vx := (vx - (5 # 10)) * (8 # 100);
         du_vy := -(2 # 100) - vy * (6 # 100);
         du_opacity := (3 # 10) + opacity * (7 # 10);
         du_phase := phase * JsMath.PI * 2 |}.

Definition genLensRing (i : Z) : Gen LensRing :=
  radius <- r ;; thickness <- r ;; rotSpeed <- r ;;
  ret {| lr_z := inject_Z i * (9 # 100) + (3 # 100);
         lr_radius := (13 # 100) + radius * (6 # 100);
         lr_hue := 200 + inject_Z i * 16;
         lr_thickness := (15 # 10) + thickness * (25 # 10);
         lr_rotSpeed := (rotSpeed - (5 # 10)) * (6 # 10000) |}.

Definition genStar (_ : Z) : Gen Star :=
  a <- r ;;
  let arm := Math_floor (a * 3) in
  let armBase := inject_Z arm * (JsMath.PI * 2 / 3) in
  d <- r ;;
  let dist := (15 # 1000) + d * (49 # 100) in
  sp <- r ;;
  let spiral := armBase + dist * (45 # 10) + (sp - (5 # 10)) * (55 # 100) in
  sc <- r ;;
  let sec := Math_floor (sc * 4) in
  let '(hue, sat) :=
    if Z.eqb sec 0 then (215, 90)
    else if Z.eqb sec 1 then (30, 92)
    else if Z.eqb sec 2 then (150, 75)
    else (275, 70) in
  size <- r ;; h <- r ;; br <- r ;; twPhase <- r ;; twSpeed <- r ;; ySkew <- r ;;
  ret {| st_angle := spiral; st_dist := dist;
         st_size := (4 # 10) + size * 3;
         st_hue := hue + (h - (5 # 10)) * 22; st_sat := sat;
         st_br := (2 # 10) + br * (8 # 10);
         st_twPhase := twPhase * JsMath.PI * 2;
         st_twSpeed := (3 # 10) + twSpeed * (25 # 10);
         st_ySkew := (45 # 100) + ySkew * (45 # 100) |}.

Definition genNode (_ : Z) : Gen Node :=
  x <- r ;; y <- r ;; size <- r ;; pPhase <- r ;; pSpeed <- r ;;
  ret {| nd_x := (x - (5 # 10)) * (95 # 100);
         nd_y := (y - (5 # 10)) * (95 # 100);
         nd_size := 2 + size * 7;
         nd_pPhase := pPhase * JsMath.PI * 2;
         nd_pSpeed := (3 # 10) + pSpeed * (18 # 10) |}.

(** [Math.sqrt(dx*dx + dy*dy) < 0.26], decided on the squares. *)
Definition near (a b : Node) : bool :=
  let dx := nd_x a - nd_x b in
  let dy := nd_y a - nd_y b in
  Qltb (dx * dx + dy * dy) ((26 # 100) * (26 # 100)).

(** The body of the inner loop: [&&] calls [r()] only when the nodes are
    near, and [str] draws again only when the edge is kept. *)
Definition genEdge (i j : nat) (a b : Node) : Gen (list Edge) :=
  if near a b then
    keep <- r ;;
    if Qltb (3 # 10) keep then
      s <- r ;; ret [ {| e_from := i; e_to := j; e_str := (25 # 100) + s * (75 # 100) |} ]
    else ret []
  else ret [].

Fixpoint edgesFrom (i : nat) (a : Node) (j : nat) (rest : list Node) : Gen (list Edge) :=
  match rest with
  | [] => ret []
  | b :: rest' =>
      e <- genEdge i j a b ;; es <- edgesFrom i a (S j) rest' ;; ret (e ++ es)
  end.

Fixpoint edgesAll (i : nat) (ns : list Node) : Gen (list Edge) :=
  match ns with
  | [] => ret []
  | a :: rest =>
      e <- edgesFrom i a (S i) rest ;; es <- edgesAll (S i) rest ;; ret (e ++ es)
  end.

Definition genCandle (_ : Z) : Gen Candle :=
  ro <- r ;; rc <- r ;;
  let o := (3 # 10) + ro * (4 # 10) in
  let c := (3 # 10) + rc * (4 # 10) in
  rh <- r ;; rl <- r ;;
  ret {| open := o; close := c;
         high := Math_max o c + rh * (8 # 100);
         low := Math_min o c - rl * (8 # 100);
         bull := Qltb o c |}.

Definition genComet (_ : Z) : Gen Comet :=
  phase <- r ;; speed <- r ;; radius <- r ;; ecc <- r ;; hue <- r ;; tail <- r ;;
  ret {| co_phase := phase * JsMath.PI * 2;
         co_speed := (3 # 10000) + speed * (9 # 10000);
         co_radius := (15 # 100) + radius * (35 # 100);
         co_ecc := (2 # 10) + ecc * (5 # 10);
         co_hue := 165 + hue * 75;
         co_tail := 15 + tail * 35 |}.

Definition genOrderCol (_ : Z) : Gen OrderCol :=
  x <- r ;; height <- r ;; width <- r ;; hue <- r ;; speed <- r ;; phase <- r ;;
  ret {| oc_x := (x - (5 # 10)) * (18 # 10);
         oc_height := (4 # 100) + height * (28 # 100);
         oc_width := (6 # 1000) + width * (14 # 1000);
         oc_hue := if Qltb (5 # 10) hue then 135 else 355;
         oc_speed := (4 # 10) + speed * (18 # 10);
         oc_phase := phase * JsMath.PI * 2 |}.

(** The body of [initParticles] after [const r = seededRng(42)]. *)
Definition genPools : Gen Pools :=
  bg <- forPush 180 0 genBgStar ;;
  du <- forPush 300 0 genDust ;;
  lr <- forPush 12 0 genLensRing ;;
  st <- forPush 800 0 genStar ;;
  ns <- forPush 55 0 genNode ;;
  es <- edgesAll 0 ns ;;
  ca <- forPush 80 0 genCandle ;;
  co <- forPush 12 0 genComet ;;
  oc <- forPush 45 0 genOrderCol ;;
  ret {| bgStars := bg; dust := du; lensRings := lr; stars := st;
         neural := {| nodes := ns; edges := es |};
         candles := ca; comets := co; orderCols := oc |}.

(** [initParticles()]: reads neither [w] nor [h]; the generator is local. *)
Definition initParticles : Pools := fst (genPools 42%Z).
Arguments initParticles : simpl never.

(** ** Cosmos candlesticks (observatory.js, lines 1208-1212 and 1284-1307) *)

(** The four values of one candle as [drawCosmos] draws them. *)
Record Drawn := { d_open : Q; d_close : Q; d_high : Q; d_low : Q }.

Definition clampPrice (value : Q) : Q := Math_max (1 # 10) (Math_min (9 # 10) value).

(** Lines 1299-1302, for given [volatility] and [bias]. *)
Definition jitter (c : Candle) (volatility bias : Q) : Drawn :=
  {| d_open := clampPrice (open c + volatility + bias);
     d_close := clampPrice (close c + volatility * (9 # 10) - bias * (5 # 10));
     d_high := clampPrice (high c + volatility * (115 # 100) + bias);
     d_low := clampPrice (low c + volatility * (115 # 100) - bias) |}.

Definition volatility (elapsed : Q) (i side : Z) (candleP : Q) : Q :=
  JsMath.sin (elapsed * (3 # 1000) + inject_Z i * (22 # 100) + inject_Z side * (5 # 10))
  * (8 # 100) * candleP.

Definition bias (elapsed : Q) (i : Z) : Q :=
  JsMath.cos (elapsed * (1 # 1000) + inject_Z i * (12 # 100)) * (2 # 100).

(** [for (let i = 0; i < candles.length; i++)] from index [i] on. *)
Fixpoint drawColumn (elapsed : Q) (side : Z) (candleP : Q) (i : Z) (cs : list Candle)
  : list Drawn :=
  match cs with
  | [] => []
  | c :: rest =>
      jitter c (volatility elapsed i side candleP) (bias elapsed i)
      :: drawColumn elapsed side candleP (i + 1)%Z rest
  end.

(** The candles drawn by one call [drawCosmos(t, elapsed)], in drawing order:
    nothing when the fade envelope is closed or [candleP] is 0, otherwise the
    column of side 0 and then the column of side 1. *)
Definition cosmosCandles (p : Pools) (t elapsed : Q) : list Drawn :=
  let fadeIn := smoothstep 0 (5 # 100) t in
  let fadeOut := 1 - smoothstep (92 # 100) 1 t in
  let a := fadeIn * fadeOut in
  if Qleb a 0 then []
  else
    let candleP := smoothstep (3 # 100) (2 # 10) t in
    if Qltb 0 candleP then
      drawColumn elapsed 0 candleP 0 (candles p)
      ++ drawColumn elapsed 1 candleP 0 (candles p)
    else [].

(** [high >= max(open, close)] and [low <= min(open, close)]. *)
Definition candle_ok (o c hi lo : Q) : Prop :=
  Qmax o c <= hi /\ lo <= Qmin o c.

Definition candle_okb (o c hi lo : Q) : bool :=
  Qleb (Qmax o c) hi && Qleb lo (Qmin o c).

(** The four values drawn lie in [0.1, 0.9]. *)
Definition in_price_range (d : Drawn) : Prop :=
  (1 # 10 <= d_open d /\ d_open d <= 9 # 10) /\
  (1 # 10 <= d_close d /\ d_close d <= 9 # 10) /\
  (1 # 10 <= d_high d /\ d_high d <= 9 # 10) /\
  (1 # 10 <= d_low d /\ d_low d <= 9 # 10).

(** ** Sequence controller (observatory.js, lines 5-11, 153-159, 1563-1627) *)

Inductive Renderer := fn_drawApproach | fn_drawOptics | fn_drawDataTransform | fn_drawCosmos.

(** What a frame does to the outside: drawing calls of the controller itself,
    calls of scene renderers with their arguments, calls of the completion
    callback.  A call of a scene renderer is recorded when it is made,
    whether it then returns or raises. *)
Inductive Event :=
| EClearRect (w h : Z)                       (* ctx.clearRect(0, 0, w, h) *)
| EFillSolid (w h : Z)                       (* fillStyle '#0a0a0a'; fillRect(0, 0, w, h) *)
| ECall (fn : Renderer) (t elapsed zoom : Q) (* fn(t, elapsed, zoom) *)
| EComplete.                                 (* onComplete() *)

Definition DURATION : Q := 32000.

Definition getZoom (elapsed : Q) : Q :=
  let t := elapsed / DURATION in
  if Qltb t (28 # 100) then 1 + easeIn (t / (28 # 100)) * 14
  else if Qltb t (45 # 100) then 15 + easeInOut ((t - (28 # 100)) / (17 # 100)) * 985
  else 1000.

(** The table of line 1582. *)
Definition phases : list (Renderer * Q * Q) :=
  [ (fn_drawApproach, 0, 9000);
    (fn_drawOptics, 6000, 18000);
    (fn_drawDataTransform, 15000, 26000);
    (fn_drawCosmos, 23000, 32000) ].

(** The loop of lines 1589-1594 over a table [ps], when no call raises: the
    renderer calls it makes, in the order it makes them. *)
Fixpoint runPhases (ps : list (Renderer * Q * Q)) (elapsed zoom : Q) : list Event :=
  match ps with
  | [] => []
  | (fn, start, end_) :: rest =>
      if Qleb start elapsed && Qleb elapsed end_ then
        ECall fn ((elapsed - start) / (end_ - start)) elapsed zoom
        :: runPhases rest elapsed zoom
      else runPhases rest elapsed zoom
  end.

(** The scheduler as the design describes it: the entries of the table whose
    window contains [elapsed], in the order of the table, each called with its
    local progress. *)
Definition inWindow (elapsed : Q) (p : Renderer * Q * Q) : bool :=
  let '(_, start, end_) := p in Qleb start elapsed && Qleb elapsed end_.

Definition localT (elapsed : Q) (p : Renderer * Q * Q) : Q :=
  let '(_, start, end_) := p in (elapsed - start) / (end_ - start).

Definition scheduled (ps : list (Renderer * Q * Q)) (elapsed zoom : Q) : list Event :=
  map (fun p => ECall (fst (fst p)) (localT elapsed p) elapsed zoom)
      (filter (inWindow elapsed) ps).

(** The renderers called in a list of events, in order. *)
Fixpoint callees (es : list Event) : list Renderer :=
  match es with
  | [] => []
  | ECall fn _ _ _ :: rest => fn :: callees rest
  | _ :: rest => callees rest
  end.

(** JavaScript [!startTime]: true for [null] and for the number 0. *)
Definition falsy (x : option Q) : bool :=
  match x with
  | None => true
  | Some q => Qeq_bool q 0
  end.

(** What the scene renderers do as far as the controller can tell: whether
    the call [fn(t, elapsed, zoom)] raises on a canvas of the given width and
    height. *)
Definition Throws : Type := Renderer -> Z -> Z -> Q -> Q -> Q -> bool.

Section Controller.

  (** State of the rest of the page, on which the completion callback acts.
      The callback does not call back into the controller. *)
Variable P : Type.

  (** Whether the call [fn(t, elapsed, zoom)] of a scene renderer raises, with
      the module's [w] and [h] as given.  [render] has no [try]: an exception
      of a renderer ends the loop over the phases and the frame callback,
      before the next frame is requested.  The renderers read [w], [h] and
      the pools, which are the same after every [initParticles], and write
      to the drawing context only. *)
Variable throws : Throws.

  (** Module variables of [ObservatoryAnimation], followed by the host: the
      page state, the log of events, and the animation-frame callbacks that
      are requested and not yet run or cancelled (oldest first; every one of
      them is [render]).  [canvas = false] is [canvas] and [ctx] undefined;
      frame handles are positive, so [if (animFrameId)] tests for [Some]. *)
Record World := mkWorld {
    canvas : bool;
    w : Z;
    h : Z;
    startTime : option Q;
    onComplete : option (P -> P);
    animFrameId : option positive;
    skipped : bool;
    pools : option Pools;
    page : P;
    trace : list Event;
    pending : list positive;
    nextHandle : positive
  }.

Definition log (e : Event) (s : World) : World :=
    mkWorld (canvas s) (w s) (h s) (startTime s) (onComplete s) (animFrameId s)
            (skipped s) (pools s) (page s) (trace s ++ [e]) (pending s) (nextHandle s).

Definition logs (es : list Event) (s : World) : World :=
    mkWorld (canvas s) (w s) (h s) (startTime s) (onComplete s) (animFrameId s)
            (skipped s) (pools s) (page s) (trace s ++ es) (pending s) (nextHandle s).

Definition set_startTime (v : option Q) (s : World) : World :=
    mkWorld (canvas s) (w s) (h s) v (onComplete s) (animFrameId s)
            (skipped s) (pools s) (page s) (trace s) (pending s) (nextHandle s).

Definition set_animFrameId (v : option positive) (s : World) : World :=
    mkWorld (canvas s) (w s) (h s) (startTime s) (onComplete s) v
            (skipped s) (pools s) (page s) (trace s) (pending s) (nextHandle s).

Definition set_skipped (v : bool) (s : World) : World :=
    mkWorld (canvas s) (w s) (h s) (startTime s) (onComplete s) (animFrameId s)
            v (pools s) (page s) (trace s) (pending s) (nextHandle s).

Definition set_page (v : P) (s : World) : World :=
    mkWorld (canvas s) (w s) (h s) (startTime s) (onComplete s) (animFrameId s)
            (skipped s) (pools s) v (trace s) (pending s) (nextHandle s).

Definition set_pending (v : list positive) (s : World) : World :=
    mkWorld (canvas s) (w s) (h s) (startTime s) (onComplete s) (animFrameId s)
            (skipped s) (pools s) (page s) (trace s) v (nextHandle s).

  (** [requestAnimationFrame(render)]: a fresh handle, queued. *)
Definition requestAnimationFrame (s : World) : positive * World :=
    (nextHandle s,
     mkWorld (canvas s) (w s) (h s) (startTime s) (onComplete s) (animFrameId s)
             (skipped s) (pools s) (page s) (trace s)
             (pending s ++ [nextHandle s]) (Pos.succ (nextHandle s))).

Definition cancelAnimationFrame (id : positive) (s : World) : World :=
    set_pending (filter (fun x => negb (Pos.eqb x id)) (pending s)) s.

  (** [if (onComplete) onComplete();] *)
Definition complete (s : World) : World :=
    match onComplete s with
    | Some cb => log EComplete (set_page (cb (page s)) s)
    | None => s
    end.

  (** [initParticles()] inside the module: the pool variables are replaced. *)
Definition doInitParticles (s : World) : World :=
    mkWorld (canvas s) (w s) (h s) (startTime s) (onComplete s) (animFrameId s)
            (skipped s) (Some initParticles) (page s) (trace s) (pending s) (nextHandle s).

  (** [startTime] after [if (!startTime) startTime = timestamp;]. *)
Definition clockStart (timestamp : Q) (s : World) : Q :=
    match startTime s with
    | Some q => if falsy (startTime s) then timestamp else q
    | None => timestamp
    end.

  (** The loop of lines 1589-1594 on a canvas of [cw] by [ch]: the renderer
      calls it makes, up to and including the first one that raises, and
      whether one raised. *)
Fixpoint callPhases (cw ch : Z) (ps : list (Renderer * Q * Q)) (elapsed zoom : Q)
    : list Event * bool :=
    match ps with
    | [] => ([], false)
    | (fn, start, end_) :: rest =>
        if Qleb start elapsed && Qleb elapsed end_ then
          let t := (elapsed - start) / (end_ - start) in
          if throws fn cw ch t elapsed zoom then ([ECall fn t elapsed zoom], true)
          else
            let (calls, raised) := callPhases cw ch rest elapsed zoom in
            (ECall fn t elapsed zoom :: calls, raised)
        else callPhases cw ch rest elapsed zoom
    end.

  (** [render(timestamp)].  When a renderer raises, the exception leaves
      [render]: the calls made so far stay drawn, no frame is requested and
      [animFrameId] keeps the handle of the frame that is running. *)
Definition render (timestamp : Q) (s : World) : World :=
    if skipped s then s
    else
      let st := clockStart timestamp s in
      let s := set_startTime (Some st) s in
      let elapsed := timestamp - st in
      if Qleb DURATION elapsed then
        complete (log (EFillSolid (w s) (h s)) s)
      else
        let s := log (EFillSolid (w s) (h s)) (log (EClearRect (w s) (h s)) s) in
        let zoom := getZoom elapsed in
        let (calls, raised) := callPhases (w s) (h s) phases elapsed zoom in
        let s := logs calls s in
        if raised then s
        else
          let (id, s) := requestAnimationFrame s in
          set_animFrameId (Some id) s.

  (** [start(canvasEl, completeFn)]; [cw], [ch] are the canvas's width and
      height at the call. *)
Definition start (cw ch : Z) (completeFn : option (P -> P)) (s : World) : World :=
    let s := mkWorld true cw ch None completeFn (animFrameId s) false (pools s)
                     (page s) (trace s) (pending s) (nextHandle s) in
    let s := doInitParticles s in
    let (id, s) := requestAnimationFrame s in
    set_animFrameId (Some id) s.

  (** [skip()]; [None] is the TypeError raised by [ctx.fillStyle = ...] when
      [ctx] is still undefined. *)
Definition skip (s : World) : option World :=
    let s := set_skipped true s in
    let s := match animFrameId s with
             | Some id => set_animFrameId None (cancelAnimationFrame id s)
             | None => s
             end in
    if canvas s then Some (complete (log (EFillSolid (w s) (h s)) s))
    else None.

  (** [resize()]; [cw], [ch] are the canvas's width and height at the call. *)
Definition resize (cw ch : Z) (s : World) : World :=
    if canvas s then
      doInitParticles
        (mkWorld (canvas s) cw ch (startTime s) (onComplete s) (animFrameId s)
                 (skipped s) (pools s) (page s) (trace s) (pending s) (nextHandle s))
    else s.

Definition stop (s : World) : World :=
    match animFrameId s with
    | Some id => set_animFrameId None (cancelAnimationFrame id s)
    | None => s
    end.

  (** The host runs an animation frame at time [timestamp]: every queued
      callback is taken off the queue and run.  An exception that leaves a
      callback is reported by the host and the other callbacks still run. *)
Definition frame (timestamp : Q) (s : World) : World :=
    fold_left (fun s _ => render timestamp s) (pending s) (set_pending [] s).

  (** The module before any call. *)
Definition initial (p : P) : World :=
    mkWorld false 0 0 None None None false None p [] [] 1%positive.

  (** Calls into the module and frames of the host, in the order they happen. *)
Inductive Action :=
  | AStart (cw ch : Z) (completeFn : option (P -> P))
  | AFrame (timestamp : Q)
  | ASkip
  | AResize (cw ch : Z)
  | AStop.

Definition act (a : Action) (s : World) : option World :=
    match a with
    | AStart cw ch f => Some (start cw ch f s)
    | AFrame ts => Some (frame ts s)
    | ASkip => skip s
    | AResize cw ch => Some (resize cw ch s)
    | AStop => Some (stop s)
    end.

Fixpoint exec (acts : list Action) (s : World) : option World :=
    match acts with
    | [] => Some s
    | a :: rest =>
        match act a s with
        | Some s' => exec rest s'
        | None => None
        end
    end.

  (** Timestamps of the frames of a run that stay before the end of the
      sequence: the first one latches the clock (it is not 0), the others are
      less than [DURATION] after it. *)
Definition beforeEnd (tss : list Q) : Prop :=
    match tss with
    | [] => True
    | t0 :: rest => ~ t0 == 0 /\ Forall (fun ts => ts - t0 < DURATION) rest
    end.

  (** Number of calls of the completion callback recorded in a trace. *)
Fixpoint completions (tr : list Event) : nat :=
    match tr with
    | [] => 0
    | EComplete :: rest => S (completions rest)
    | _ :: rest => completions rest
    end.

  (** Number of drawing calls and renderer calls recorded in a trace: the
      frame-count probe. *)
Fixpoint paints (tr : list Event) : nat :=
    match tr with
    | [] => 0
    | EComplete :: rest => paints rest
    | _ :: rest => S (paints rest)
    end.

  (** A frame of the sequence at [elapsed] on a canvas of [cw] by [ch] in
      which no renderer raises. *)
Definition quiet (cw ch : Z) (elapsed : Q) : Prop :=
    snd (callPhases cw ch phases elapsed (getZoom elapsed)) = false.

  (** A started sequence that has neither ended nor been skipped: one frame
      is requested and the callback has not been called. *)
Definition Running (cb : P -> P) (p : P) (s : World) : Prop :=
    skipped s = false /\ onComplete s = Some cb /\ canvas s = true /\
    completions (trace s) = 0%nat /\ page s = p /\
    exists id, pending s = [id] /\ animFrameId s = Some id.

  (** A started sequence that has neither ended nor been skipped: the
      callback has not been called, and a frame is requested unless a
      renderer raised. *)
Definition Live (cb : P -> P) (p : P) (s : World) : Prop :=
    skipped s = false /\ onComplete s = Some cb /\ canvas s = true /\
    completions (trace s) = 0%nat /\ page s = p /\
    (pending s = [] \/ exists id, pending s = [id] /\ animFrameId s = Some id).

  (** A sequence that ran to its end: the callback was called once and no
      frame is requested. *)
Definition Ended (cb : P -> P) (p : P) (s : World) : Prop :=
    skipped s = false /\ onComplete s = Some cb /\ canvas s = true /\
    completions (trace s) = 1%nat /\ page s = cb p /\ pending s = [].

End Controller.

Arguments mkWorld {P}.
Arguments canvas {P}.
Arguments w {P}.
Arguments h {P}.
Arguments startTime {P}.
Arguments onComplete {P}.
Arguments animFrameId {P}.
Arguments skipped {P}.
Arguments pools {P}.
Arguments page {P}.
Arguments trace {P}.
Arguments pending {P}.
Arguments nextHandle {P}.
Arguments log {P}.
Arguments logs {P}.
Arguments complete {P}.
Arguments set_startTime {P}.
Arguments set_animFrameId {P}.
Arguments set_skipped {P}.
Arguments set_page {P}.
Arguments set_pending {P}.
Arguments requestAnimationFrame {P}.
Arguments cancelAnimationFrame {P}.
Arguments doInitParticles {P}.
Arguments clockStart {P}.
Arguments Live {P}.
Arguments render {P}.
Arguments start {P}.
Arguments skip {P}.
Arguments resize {P}.
Arguments stop {P}.
Arguments frame {P}.
Arguments initial {P}.
Arguments Running {P}.
Arguments Ended {P}.
Arguments act {P}.
Arguments exec {P}.
Arguments AStart {P}.
Arguments AFrame {P}.
Arguments ASkip {P}.
Arguments AResize {P}.
Arguments AStop {P}.

(** ** Pools of the landing page script (lines 100-217 and 323-386)

    These pools draw from [Math.random]; [random k] is the value of its
    [k]-th call and the state of [Rand] counts the calls made. *)

Record Dot := { dot_x : Q; dot_y : Q; dot_baseSize : Q; dot_size : Q;
                dot_vx : Q; dot_vy : Q; dot_baseBrightness : Q; dot_brightness : Q;
                dot_brightnessSpeed : Q; dot_brightnessPhase : Q; dot_hue : Q }.
Record OrbitNode := { on_radius : Q; on_angle : Q; on_speed : Q; on_depth : Q;
                      on_size : Q; on_orbitTilt : Q; on_hue : Q;
                      on_trail : list (Q * Q * Q) }.
Record Spark := { sp_x : Q; sp_y : Q; sp_speed : Q; sp_size : Q; sp_life : Q;
                  sp_elapsed : Q; sp_hue : Q }.
Record HaloRing := { hr_delay : Q; hr_duration : Q }.

Section PageScript.

Variable random : nat -> Q.

Definition Rand (A : Type) : Type := State nat A.
Definition Math_random : Rand Q := fun k => (random k, S k).

  (** [new Dot()] with the canvas at [dotsWidth] x [dotsHeight]. *)
Definition newDot (dotsWidth dotsHeight : Z) (_ : Z) : Rand Dot :=
    x <- Math_random ;; y <- Math_random ;; bs <- Math_random ;;
    vx <- Math_random ;; vy <- Math_random ;; bb <- Math_random ;;
    sp <- Math_random ;; ph <- Math_random ;; hue <- Math_random ;;
    ret {| dot_x := x * inject_Z dotsWidth; dot_y := y * inject_Z dotsHeight;
           dot_baseSize := 1 + bs * 2; dot_size := 1 + bs * 2;
           dot_vx := (vx - (5 # 10)) * (5 # 10);
           dot_vy := (vy - (5 # 10)) * (5 # 10);
           dot_baseBrightness := (2 # 10) + bb * (3 # 10);
           dot_brightness := (2 # 10) + bb * (3 # 10);
           dot_brightnessSpeed := (5 # 1000) + sp * (2 # 100);
           dot_brightnessPhase := ph * JsMath.PI * 2;
           dot_hue := 240 + hue * 60 |}.

  (** [initDots()]: [numDots = Math.floor((dotsWidth * dotsHeight) / 8000)];
      the loop body runs for [i = 0 .. numDots - 1], not at all when
      [numDots <= 0]. *)
Definition initDots (dotsWidth dotsHeight : Z) : Rand (list Dot) :=
    let numDots := (dotsWidth * dotsHeight / 8000)%Z in
    forPush (Z.to_nat numDots) 0 (newDot dotsWidth dotsHeight).

  (** [new OrbitNode()], that is [reset()]. *)
Definition newOrbitNode (linesWidth linesHeight : Z) (_ : Z) : Rand OrbitNode :=
    let minDim := inject_Z (Z.min linesWidth linesHeight) in
    ra <- Math_random ;; an <- Math_random ;; sp <- Math_random ;; sg <- Math_random ;;
    de <- Math_random ;; si <- Math_random ;; ti <- Math_random ;; hu <- Math_random ;;
    ret {| on_radius := ((12 # 100) + ra * (45 # 100)) * minDim * (5 # 10);
           on_angle := an * JsMath.PI * 2;
           on_speed := ((8 # 100000) + sp * (35 # 100000))
                       * (if Qltb (5 # 10) sg then 1 else -(1));
           on_depth := de;
           on_size := (12 # 10) + si * (35 # 10);
           on_orbitTilt := (6 # 10) + ti * (9 # 10);
           on_hue := 200 + hu * 100;
           on_trail := [] |}.

  (** [new Spark()], that is [reset()]. *)
Definition newSpark (linesWidth linesHeight : Z) (_ : Z) : Rand Spark :=
    x <- Math_random ;; y <- Math_random ;; sp <- Math_random ;; si <- Math_random ;;
    li <- Math_random ;; el <- Math_random ;; hu <- Math_random ;;
    let life := 800 + li * 1200 in
    ret {| sp_x := x * inject_Z linesWidth; sp_y := y * inject_Z linesHeight;
           sp_speed := (2 # 100) + sp * (8 # 100);
           sp_size := (5 # 10) + si * (15 # 10);
           sp_life := life; sp_elapsed := el * life;
           sp_hue := 260 + hu * 80 |}.

Definition newHaloRing (delay : Q) : Rand HaloRing :=
    du <- Math_random ;;
    ret {| hr_delay := delay; hr_duration := 2200 + du * 1600 |}.

  (** [initIntroElements()]: [Array.from({ length: n }, f)] has [n] elements,
      none when [n <= 0]. *)
Definition initIntroElements (linesWidth linesHeight : Z)
    : Rand (list OrbitNode * list Spark * list HaloRing) :=
    let nodeCount := (Z.min linesWidth linesHeight / 18)%Z in
    introNodes <- forPush (Z.to_nat nodeCount) 0 (newOrbitNode linesWidth linesHeight) ;;
    introSparks <- forPush 80 0 (newSpark linesWidth linesHeight) ;;
    r0 <- newHaloRing 0 ;; r1 <- newHaloRing 400 ;; r2 <- newHaloRing 900 ;;
    ret (introNodes, introSparks, [r0; r1; r2]).

  (** The pools of the whole program. *)
Inductive PoolId :=
  | pool_bgStars | pool_dust | pool_lensRings | pool_stars
  | pool_neural_nodes | pool_neural_edges | pool_candles | pool_comets
  | pool_orderCols
  | pool_introNodes | pool_introSparks | pool_introRings | pool_dots.

  (** The observatory pools as [resize()] leaves them in a started module
      whose canvas is [vw] x [vh]. *)
Definition poolsAt (vw vh : Z) : option Pools :=
    pools (resize vw vh (start 0 0 None (initial tt))).

Definition observatoryCount (f : Pools -> nat) (vw vh : Z) : nat :=
    match poolsAt vw vh with
    | Some p => f p
    | None => 0
    end.

  (** Number of elements of a pool after the initialisation that fills it,
      run against a viewport of [vw] x [vh], [k] calls of [Math.random]
      having been made before. *)
Definition countAfterInit (k : nat) (id : PoolId) (vw vh : Z) : nat :=
    match id with
    | pool_bgStars => observatoryCount (fun p => length (bgStars p)) vw vh
    | pool_dust => observatoryCount (fun p => length (dust p)) vw vh
    | pool_lensRings => observatoryCount (fun p => length (lensRings p)) vw vh
    | pool_stars => observatoryCount (fun p => length (stars p)) vw vh
    | pool_neural_nodes => observatoryCount (fun p => length (nodes (neural p))) vw vh
    | pool_neural_edges => observatoryCount (fun p => length (edges (neural p))) vw vh
    | pool_candles => observatoryCount (fun p => length (candles p)) vw vh
    | pool_comets => observatoryCount (fun p => length (comets p)) vw vh
    | pool_orderCols => observatoryCount (fun p => length (orderCols p)) vw vh
    | pool_introNodes => length (fst (fst (fst (initIntroElements vw vh k))))
    | pool_introSparks => length (snd (fst (fst (initIntroElements vw vh k))))
    | pool_introRings => length (snd (fst (initIntroElements vw vh k)))
    | pool_dots => length (fst (initDots vw vh k))
    end.

End PageScript.

Definition area (vw vh : Z) : Z := (vw * vh)%Z.
Definition minDim (vw vh : Z) : Z := Z.min vw vh.

(** ** Page glue (landing page script, lines 16-98 and 441-458) *)

Record PageFlags := mkPage {
  landingSequenceFinished : bool;
  skipRequested : bool;
  observatoryStarted : bool;
  skipHandlersAttached : bool;
  dotsAnimationRunning : bool;
  (** Not a variable of the script: the number of times the landing surface
      was hidden and the main site shown, the body of [revealMainSite]. *)
  reveals : nat
}.

Definition ensureDotsAnimation (p : PageFlags) : PageFlags :=
  if dotsAnimationRunning p then p
  else mkPage (landingSequenceFinished p) (skipRequested p) (observatoryStarted p)
              (skipHandlersAttached p) true (reveals p).

Definition revealMainSite (p : PageFlags) : PageFlags :=
  if landingSequenceFinished p then p
  else ensureDotsAnimation
         (mkPage true true (observatoryStarted p) false
                 (dotsAnimationRunning p) (S (reveals p))).

(** The arrow function passed to [ObservatoryAnimation.start]. *)
Definition completeFn (p : PageFlags) : PageFlags :=
  if negb (landingSequenceFinished p) then revealMainSite p else p.

Inductive DomEvent :=
| click
| touchstart
| keydown (key : String.string).

Definition isTabKey (e : DomEvent) : bool :=
  match e with
  | keydown key => String.eqb key "Tab"%string
  | _ => false
  end.

Definition PageWorld : Type := World PageFlags.

Definition set_skipRequested (s : PageWorld) : PageWorld :=
  let p := page s in
  set_page (mkPage (landingSequenceFinished p) true (observatoryStarted p)
                   (skipHandlersAttached p) (dotsAnimationRunning p) (reveals p)) s.

(** [skipIntro(event)]; [None] when [ObservatoryAnimation.skip()] raises. *)
Definition skipIntro (e : DomEvent) (s : PageWorld) : option PageWorld :=
  if landingSequenceFinished (page s) then Some s
  else if isTabKey e then Some s
  else
    let s := set_skipRequested s in
    if observatoryStarted (page s) then skip s
    else Some (set_page (revealMainSite (page s)) s).

(** [startObservatorySequence()], the window being [cw] x [ch]. *)
Definition startObservatorySequence (cw ch : Z) (s : PageWorld) : PageWorld :=
  let p := page s in
  if landingSequenceFinished p || observatoryStarted p then s
  else
    let p := mkPage (landingSequenceFinished p) (skipRequested p) true true
                    (dotsAnimationRunning p) (reveals p) in
    let s := set_page p s in
    if skipRequested p then set_page (revealMainSite p) s
    else start cw ch (Some completeFn) s.

(** What happens on the page: a click, touch or key; the orbit intro reaching
    its end, which calls [startObservatorySequence]; an animation frame; a
    resize of the window. *)
Inductive PageAction :=
| PDom (e : DomEvent)
| PIntroEnd (cw ch : Z)
| PFrame (timestamp : Q)
| PResize (cw ch : Z).

(** A listener runs only while it is attached. *)
Definition pageAct (throws : Throws) (a : PageAction) (s : PageWorld)
  : option PageWorld :=
  match a with
  | PDom e => if skipHandlersAttached (page s) then skipIntro e s else Some s
  | PIntroEnd cw ch => Some (startObservatorySequence cw ch s)
  | PFrame ts => Some (frame throws ts s)
  | PResize cw ch => Some (resize cw ch s)
  end.

Fixpoint pageExec (throws : Throws) (acts : list PageAction) (s : PageWorld)
  : option PageWorld :=
  match acts with
  | [] => Some s
  | a :: rest =>
      match pageAct throws a s with
      | Some s' => pageExec throws rest s'
      | None => None
      end
  end.

(** What holds of the page at every moment: the main site was revealed once
    if the landing sequence is finished and never otherwise; the callback of
    the controller, if any, is [completeFn]; and the controller was started
    whenever the observatory sequence is under way. *)
Definition PageInv (s : PageWorld) : Prop :=
  reveals (page s) = (if landingSequenceFinished (page s) then 1 else 0)%nat /\
  (onComplete s = None \/ onComplete s = Some completeFn) /\
  (observatoryStarted (page s) = true ->
   landingSequenceFinished (page s) = false -> canvas s = true).

(** The page after [init()]: listeners attached, nothing else done. *)
Definition pageInitial : PageWorld :=
  initial (mkPage false false false true false 0).

(** ** Scene renderers on the drawing surface

    A renderer is the list of calls it makes on the 2D context, in order,
    together with how it ended: normally, or by an exception of the context.
    The context raises IndexSizeError for a negative radius given to
    [createRadialGradient], [arc] or [ellipse]. *)

Inductive Style :=
| Color (css : String.string)
| Rgba (red green blue : Z) (alpha : Q)
| RadialGradient (x0 y0 r0 x1 y1 r1 : Q) (stops : list (Q * String.string)).

Inductive Cmd :=
| C_save
| C_restore
| C_globalAlpha (a : Q)
| C_fillStyle (s : Style)
| C_strokeStyle (s : Style)
| C_lineWidth (v : Q)
| C_fillRect (x y w h : Q)
| C_beginPath
| C_rect (x y w h : Q)
| C_arc (x y radius a0 a1 : Q) (counterclockwise : bool)
| C_ellipse (x y rx ry rotation a0 a1 : Q)
| C_moveTo (x y : Q)
| C_lineTo (x y : Q)
| C_fill
| C_stroke.

Inductive Exn := IndexSizeError.

Definition Draw (A : Type) : Type := (list Cmd * (A + Exn))%type.
Definition dret {A} (a : A) : Draw A := ([], inl a).
Definition dbind {A B} (m : Draw A) (k : A -> Draw B) : Draw B :=
  match m with
  | (l, inl a) => let (l', res) := k a in (l ++ l', res)
  | (l, inr e) => (l, inr e)
  end.
Definition emit (c : Cmd) : Draw unit := ([c], inl tt).
Definition throw {A} (e : Exn) : Draw A := ([], inr e).

Declare Scope draw_scope.
Notation "x <- m ;; k" := (dbind m (fun x => k))
  (at level 61, m at next level, right associativity) : draw_scope.
Notation "m ;; k" := (dbind m (fun _ => k))
  (at level 61, right associativity) : draw_scope.
Local Open Scope draw_scope.

Definition createRadialGradient (x0 y0 r0 x1 y1 r1 : Q)
  : Draw (list (Q * String.string) -> Style) :=
  if Qltb r0 0 || Qltb r1 0 then throw IndexSizeError
  else dret (RadialGradient x0 y0 r0 x1 y1 r1).

Definition arc (x y radius a0 a1 : Q) (ccw : bool) : Draw unit :=
  if Qltb radius 0 then throw IndexSizeError else emit (C_arc x y radius a0 a1 ccw).

Definition ellipse (x y rx ry rotation a0 a1 : Q) : Draw unit :=
  if Qltb rx 0 || Qltb ry 0 then throw IndexSizeError
  else emit (C_ellipse x y rx ry rotation a0 a1).

(** [for (let i = i0; i < i0 + n; i++) body(i)]. *)
Fixpoint forDraw (n : nat) (i : Z) (body : Z -> Draw unit) : Draw unit :=
  match n with
  | O => dret tt
  | S k => body i ;; forDraw k (i + 1)%Z body
  end.

(** [for (let ang = ang0; ang < limit; ang += step) body(ang)], at most
    [fuel] turns; the sum is kept in lowest terms. *)
Fixpoint forAngle (fuel : nat) (ang limit step : Q) (body : Q -> Draw unit) : Draw unit :=
  match fuel with
  | O => dret tt
  | S k =>
      if Qltb ang limit then body ang ;; forAngle k (Qred (ang + step)) limit step body
      else dret tt
  end.

(** The fade envelope [a] of [drawApproach] (lines 768-770). *)
Definition approachAlpha (t : Q) : Q :=
  smoothstep 0 (1 # 10) t * (1 - smoothstep (85 # 100) 1 t).

(** *** drawApproach (observatory.js, lines 767-883), the module's [w] and
    [h] being the arguments [w] and [h].  The step of the ridge loop is at
    least 0.012, so 600 turns pass [2 * PI]. *)
Definition drawApproach (w h : Z) (t elapsed : Q) : Draw unit :=
  let fadeIn := smoothstep 0 (1 # 10) t in
  let fadeOut := 1 - smoothstep (85 # 100) 1 t in
  let a := fadeIn * fadeOut in
  if Qleb a 0 then dret tt
  else
    let w := inject_Z w in
    let h := inject_Z h in
    let two_pi := JsMath.PI * 2 in
    emit C_save ;;
    emit (C_globalAlpha a) ;;
    let cx := w / 2 in
    let cy := h / 2 in
    let maxR := JsMath.hypot w h * (62 # 100) in
    let minR := Math_min w h * (35 # 1000) in
    let radius := lerp minR maxR (easeInOut t) in
    emit (C_fillStyle (Color "#0a0c18"%string)) ;;
    emit (C_fillRect 0 0 w h) ;;
    (if Qltb radius (maxR * (99 # 100)) then
       emit C_beginPath ;;
       emit (C_rect 0 0 w h) ;;
       arc cx cy radius 0 two_pi true ;;
       emit (C_fillStyle (Color "#060810"%string)) ;;
       emit C_fill
     else dret tt) ;;
    emit C_beginPath ;;
    arc cx cy radius 0 two_pi false ;;
    glassG <- createRadialGradient (cx - radius * (12 # 100)) (cy - radius * (12 # 100)) 0
                                   cx cy radius ;;
    emit (C_fillStyle (glassG [ (0, "rgba(22, 28, 45, 0.95)"%string);
                                (5 # 10, "rgba(14, 18, 32, 0.98)"%string);
                                (9 # 10, "rgba(10, 14, 28, 1)"%string);
                                (1, "rgba(35, 42, 65, 0.8)"%string) ])) ;;
    emit C_fill ;;
    emit C_beginPath ;;
    arc cx cy radius 0 two_pi false ;;
    edgeG <- createRadialGradient cx cy (radius - 4) cx cy (radius + 2) ;;
    emit (C_strokeStyle (Rgba 100 108 135 (55 # 100))) ;;
    emit (C_lineWidth (clamp (2 + t * 4) (15 # 10) 6)) ;;
    emit C_stroke ;;
    forDraw 8 0 (fun i =>
      let rr := radius * ((2 # 10) + inject_Z i * (1 # 10)) in
      if Qltb rr 2 then dret tt
      else
        let ringA := (15 # 100)
                     + (1 # 10) * JsMath.sin (elapsed * (8 # 10000) + inject_Z i * (8 # 10)) in
        emit C_beginPath ;;
        arc cx cy rr 0 two_pi false ;;
        emit (C_strokeStyle (Rgba 110 118 148 ringA)) ;;
        emit (C_lineWidth (clamp ((8 # 10) + t * 2) (5 # 10) (35 # 10))) ;;
        emit C_stroke) ;;
    (if Qltb t (5 # 10) then
       let refA := (1 - t / (5 # 10)) * (2 # 10) in
       emit C_beginPath ;;
       ellipse (cx - radius * (15 # 100)) (cy - radius * (25 # 100))
               (radius * (4 # 10)) (radius * (12 # 100)) (-(2 # 10)) 0 JsMath.PI ;;
       emit (C_strokeStyle (Rgba 120 130 165 refA)) ;;
       emit (C_lineWidth 2) ;;
       emit C_stroke ;;
       emit C_beginPath ;;
       ellipse (cx + radius * (2 # 10)) (cy + radius * (15 # 100))
               (radius * (15 # 100)) (radius * (5 # 100)) (3 # 10) 0 JsMath.PI ;;
       emit (C_strokeStyle (Rgba 100 110 145 (refA * (5 # 10)))) ;;
       emit (C_lineWidth 1) ;;
       emit C_stroke
     else dret tt) ;;
    (if Qltb (3 # 10) t && Qltb t (8 # 10) then
       let gA := smoothstep (3 # 10) (5 # 10) t
                 * (1 - smoothstep (65 # 100) (8 # 10) t) * (22 # 100) in
       forDraw 30 0 (fun i =>
         let gr := radius * ((82 # 100) + inject_Z i * (6 # 1000)) in
         if Qleb radius gr then dret tt
         else
           emit C_beginPath ;;
           arc cx cy gr 0 two_pi false ;;
           emit (C_strokeStyle (Rgba 90 98 125 gA)) ;;
           emit (C_lineWidth (35 # 100)) ;;
           emit C_stroke)
     else dret tt) ;;
    (if Qltb (7 # 10) t then
       let cupA := smoothstep (7 # 10) (88 # 100) t in
       let cupW := radius * (65 # 1000) in
       emit C_beginPath ;;
       arc cx cy radius 0 two_pi false ;;
       arc cx cy (radius - cupW) 0 two_pi true ;;
       emit (C_fillStyle (Rgba 18 20 28 cupA)) ;;
       emit C_fill ;;
       let step := Math_max (12 # 1000) ((5 # 100) / (1 + t * (5 # 10))) in
       forAngle 600 0 two_pi step (fun ang =>
         emit C_beginPath ;;
         emit (C_moveTo (cx + JsMath.cos ang * (radius - cupW))
                        (cy + JsMath.sin ang * (radius - cupW))) ;;
         emit (C_lineTo (cx + JsMath.cos ang * radius) (cy + JsMath.sin ang * radius)) ;;
         emit (C_strokeStyle (Rgba 28 30 40 (cupA * (35 # 100)))) ;;
         emit (C_lineWidth (4 # 10)) ;;
         emit C_stroke)
     else dret tt) ;;
    emit C_restore.

(** The call [drawApproach(t, elapsed)] raises. *)
Definition raises {A : Type} (m : Draw A) : bool :=
  match snd m with
  | inr _ => true
  | inl _ => false
  end.

(** What the renderers do, [drawApproach] being the one above and the three
    others, whose bodies are not modelled here, being left to [rest]. *)
Definition approachThrows (rest : Throws) : Throws :=
  fun fn cw ch t elapsed zoom =>
    match fn with
    | fn_drawApproach => raises (drawApproach cw ch t elapsed)
    | _ => rest fn cw ch t elapsed zoom
    end.

(** The renderers with every call of the three that are not modelled
    raising, and with every such call returning. *)
Definition othersRaise : Throws := approachThrows (fun _ _ _ _ _ _ => true).

(** *** Dust positions of drawInteriorObservatory (lines 474-476).  The
    remainders by [w] and [h] are taken as they stand. *)
Definition dustPx (p : Dust) (w : Z) (elapsed : Q) : option Q :=
  JsMath.rem (du_x p * inject_Z w
              + JsMath.sin (elapsed * (3 # 10000) + du_phase p) * 25
              + du_vx p * elapsed * (2 # 100))
             (inject_Z w).

Definition dustPy (p : Dust) (h : Z) (elapsed : Q) : option Q :=
  JsMath.rem (du_y p * inject_Z h + elapsed * du_vy p * (2 # 100) + inject_Z h)
             (inject_Z h).

Local Close Scope draw_scope.

(** ** Fade envelopes of the scheduled renderers

    The first lines of [drawApproach] (768-771), [drawOptics] (889-892),
    [drawDataTransform] (1060-1063) and [drawCosmos] (1209-1212): each
    computes [a = fadeIn * fadeOut] and returns, having drawn nothing, when
    [a <= 0].  The value is the exact one: in doubles [1 - smoothstep(..)]
    is already 0 for [t] within about 3e-10 of 1. *)
Definition envelope (fn : Renderer) (t : Q) : Q :=
  match fn with
  | fn_drawApproach => smoothstep 0 (1 # 10) t * (1 - smoothstep (85 # 100) 1 t)
  | fn_drawOptics => smoothstep 0 (7 # 100) t * (1 - smoothstep (88 # 100) 1 t)
  | fn_drawDataTransform => smoothstep 0 (2 # 10) t * (1 - smoothstep (92 # 100) 1 t)
  | fn_drawCosmos => smoothstep 0 (5 # 100) t * (1 - smoothstep (92 # 100) 1 t)
  end.

(** The renderer goes past its early return. *)
Definition visible (fn : Renderer) (t : Q) : bool := negb (Qleb (envelope fn t) 0).

(** The renderers called in a frame at [elapsed] that go past their early
    return. *)
Fixpoint visibleCalls (es : list Event) : list Renderer :=
  match es with
  | [] => []
  | ECall fn t _ _ :: rest =>
      if visible fn t then fn :: visibleCalls rest else visibleCalls rest
  | _ :: rest => visibleCalls rest
  end.

(** ** Orbit nodes, sparks, halo rings and dots, frame by frame (landing page
    script, lines 117-209 and 344-362) *)

(** An orbit node with the position [update] gave it. *)
Record Orbiting := { orb_node : OrbitNode; orb_x : Q; orb_y : Q }.

(** [Array.prototype.pop]. *)
Definition pop {A : Type} (l : list A) : list A := removelast l.

(** [OrbitNode.update(delta)] (lines 117-128). *)
Definition orbitUpdate (linesWidth linesHeight : Z) (delta : Q) (n : OrbitNode) : Orbiting :=
  let angle := on_angle n + on_speed n * delta in
  let centerX := inject_Z linesWidth / 2 in
  let centerY := inject_Z linesHeight / 2 in
  let x := centerX + JsMath.cos angle * on_radius n in
  let y := centerY + JsMath.sin angle * on_radius n * on_orbitTilt n in
  let trail := (x, y, 1) :: on_trail n in
  let trail := if Nat.ltb 35 (List.length trail) then pop trail else trail in
  {| orb_node := {| on_radius := on_radius n; on_angle := angle; on_speed := on_speed n;
                    on_depth := on_depth n; on_size := on_size n;
                    on_orbitTilt := on_orbitTilt n; on_hue := on_hue n;
                    on_trail := trail |};
     orb_x := x; orb_y := y |}.

(** A disc of the trail as [draw] paints it: centre, radius and the alpha of
    its fill style. *)
Record TrailDot := { td_x : Q; td_y : Q; td_radius : Q; td_alpha : Q }.

(** The loop of lines 132-140: every point loses 0.02 of life, and is painted
    unless its life is then 0 or less.  The subtraction is exact here and
    rounded in the source. *)
Fixpoint drawTrail (size glow : Q) (trail : list (Q * Q * Q))
  : list (Q * Q * Q) * list TrailDot :=
  match trail with
  | [] => ([], [])
  | (x, y, life) :: rest =>
      let life' := life - (2 # 100) in
      let (rest', dots) := drawTrail size glow rest in
      if Qleb life' 0 then ((x, y, life') :: rest', dots)
      else ((x, y, life') :: rest',
            {| td_x := x; td_y := y;
               td_radius := Math_max (5 # 10) (size * life' * (5 # 10));
               td_alpha := life' * glow * (45 # 100) |} :: dots)
  end.

(** [OrbitNode.draw(progress)], as far as the trail goes (lines 130-140). *)
Definition orbitDraw (progress : Q) (o : Orbiting) : Orbiting * list TrailDot :=
  let n := orb_node o in
  let glow := (35 # 100) + progress * (45 # 100) + on_depth n * (2 # 10) in
  let (trail, dots) := drawTrail (on_size n) glow (on_trail n) in
  ({| orb_node := {| on_radius := on_radius n; on_angle := on_angle n;
                     on_speed := on_speed n; on_depth := on_depth n;
                     on_size := on_size n; on_orbitTilt := on_orbitTilt n;
                     on_hue := on_hue n; on_trail := trail |};
      orb_x := orb_x o; orb_y := orb_y o |}, dots).

(** One frame of [animateLines] for one node: [update(delta)], then
    [draw(progress)]. *)
Definition orbitFrame (linesWidth linesHeight : Z) (delta progress : Q) (n : OrbitNode)
  : Orbiting * list TrailDot :=
  orbitDraw progress (orbitUpdate linesWidth linesHeight delta n).

(** The lives of a trail are [1 - 0.02 * k], [1 - 0.02 * (k + 1)], ... from
    its head on, each to within a millionth for every decrement it went
    through: the decrements of a frame are rounded. *)
Fixpoint agedFrom (k : Z) (trail : list (Q * Q * Q)) : Prop :=
  match trail with
  | [] => True
  | (_, _, life) :: rest =>
      (1 - inject_Z k * (2 # 100) - inject_Z k * (1 # 1000000) <= life /\
       life <= 1 - inject_Z k * (2 # 100) + inject_Z k * (1 # 1000000)) /\
      agedFrom (k + 1) rest
  end.

(** A trail as a frame leaves it. *)
Definition TrailInv (n : OrbitNode) : Prop :=
  (List.length (on_trail n) <= 35)%nat /\ agedFrom 1 (on_trail n).

(** [Spark.update(delta)] (lines 172-179): [reset()] draws seven numbers and
    the new [y] one more. *)
Definition sparkUpdate (random : nat -> Q) (linesWidth linesHeight : Z) (delta : Q)
           (s : Spark) : Rand Spark :=
  let elapsed := sp_elapsed s + delta in
  let y := sp_y s - sp_speed s * delta in
  if Qltb y (-(10)) || Qltb (sp_life s) elapsed then
    s' <- newSpark random linesWidth linesHeight 0 ;;
    ry <- Math_random random ;;
    ret {| sp_x := sp_x s'; sp_y := inject_Z linesHeight + ry * 20;
           sp_speed := sp_speed s'; sp_size := sp_size s'; sp_life := sp_life s';
           sp_elapsed := sp_elapsed s'; sp_hue := sp_hue s' |}
  else
    ret {| sp_x := sp_x s; sp_y := y; sp_speed := sp_speed s; sp_size := sp_size s;
           sp_life := sp_life s; sp_elapsed := elapsed; sp_hue := sp_hue s |}.

(** [Dot.update(time)] (lines 344-362). *)
Definition dotUpdate (dotsWidth dotsHeight : Z) (time : Q) (d : Dot) : Dot :=
  let x := dot_x d + dot_vx d in
  let y := dot_y d + dot_vy d in
  let x := if Qltb x 0 then inject_Z dotsWidth else x in
  let x := if Qltb (inject_Z dotsWidth) x then 0 else x in
  let y := if Qltb y 0 then inject_Z dotsHeight else y in
  let y := if Qltb (inject_Z dotsHeight) y then 0 else y in
  let brightness := dot_baseBrightness d
                    + JsMath.sin (time * dot_brightnessSpeed d + dot_brightnessPhase d)
                      * (3 # 10) in
  let brightness := Math_max (5 # 100) (Math_min (8 # 10) brightness) in
  {| dot_x := x; dot_y := y; dot_baseSize := dot_baseSize d;
     dot_size := dot_baseSize d * ((8 # 10) + brightness * (4 # 10));
     dot_vx := dot_vx d; dot_vy := dot_vy d;
     dot_baseBrightness := dot_baseBrightness d; dot_brightness := brightness;
     dot_brightnessSpeed := dot_brightnessSpeed d;
     dot_brightnessPhase := dot_brightnessPhase d; dot_hue := dot_hue d |}.

(** [animateDots()] applied [n] times from [dotsAnimationTime = time]: each
    turn increments the counter and updates every dot with it. *)
Fixpoint animateDots (n : nat) (dotsWidth dotsHeight : Z) (time : Z) (dots : list Dot)
  : list Dot :=
  match n with
  | O => dots
  | S k =>
      let time := (time + 1)%Z in
      animateDots k dotsWidth dotsHeight time
                  (map (dotUpdate dotsWidth dotsHeight (inject_Z time)) dots)
  end.

(** What [HaloRing.draw(time)] does (lines 196-209): it returns at once, or
    strokes a circle of the given radius with the given alpha; with a NaN
    remainder the test [localTime < 0] is false and the circle has NaN
    radius. *)
Inductive HaloOut :=
| HaloReturn
| HaloStroke (t radius alpha : Q)
| HaloNaN.

Definition haloDraw (linesWidth linesHeight : Z) (time : Q) (ring : HaloRing) : HaloOut :=
  match JsMath.rem (time - hr_delay ring) (hr_duration ring) with
  | None => HaloNaN
  | Some localTime =>
      if Qltb localTime 0 then HaloReturn
      else
        let t := localTime / hr_duration ring in
        HaloStroke t
                   (inject_Z (Z.min linesWidth linesHeight) * (12 # 100)
                    * ((5 # 10) + t * 2))
                   ((1 - t) * (25 # 100))
  end.

(** ** What holds of every page reachable from [init()] *)

(** Beyond [PageInv]: the skip listeners stay attached until the landing
    sequence is finished and are detached from then on, the ambient dots run
    once it is finished, and a started observatory sequence has the page's
    callback. *)
Definition PageReach (s : PageWorld) : Prop :=
  PageInv s /\
  (landingSequenceFinished (page s) = false -> skipHandlersAttached (page s) = true) /\
  (landingSequenceFinished (page s) = true ->
   skipHandlersAttached (page s) = false /\ dotsAnimationRunning (page s) = true) /\
  (observatoryStarted (page s) = true -> landingSequenceFinished (page s) = false ->
   onComplete s = Some completeFn).

(** The numbers [Math.random] returns lie in [0, 1). *)
Definition unit_interval (random : nat -> Q) : Prop :=
  forall k : nat, 0 <= random k /\ random k < 1.

(** The state of the generator of [initParticles] is strictly between 0 and
    the modulus. *)
Definition in_range (s : Z) : Prop := (0 < s < Rng.M)%Z.

(** ** What the generated pools satisfy *)

(** A galaxy star lies on one of the three spiral arms, within 0.275 rad of
    the spiral [arm * 2 PI / 3 + 4.5 * dist], and in one of the four colour
    sectors, within 11 degrees of hue of the sector's hue. *)
Definition star_ok (st : Star) : Prop :=
  (15 # 1000 <= st_dist st /\ st_dist st < 505 # 1000) /\
  (4 # 10 <= st_size st /\ st_size st < 34 # 10) /\
  (2 # 10 <= st_br st /\ st_br st < 1) /\
  (45 # 100 <= st_ySkew st /\ st_ySkew st < 9 # 10) /\
  ((st_sat st = 90 /\ 204 <= st_hue st /\ st_hue st < 226) \/
   (st_sat st = 92 /\ 19 <= st_hue st /\ st_hue st < 41) \/
   (st_sat st = 75 /\ 139 <= st_hue st /\ st_hue st < 161) \/
   (st_sat st = 70 /\ 264 <= st_hue st /\ st_hue st < 286)) /\
  exists arm : Z,
    (0 <= arm <= 2)%Z /\
    - (275 # 1000) <= st_angle st - (inject_Z arm * (JsMath.PI * 2 / 3)
                                     + st_dist st * (45 # 10)) /\
    st_angle st - (inject_Z arm * (JsMath.PI * 2 / 3) + st_dist st * (45 # 10))
    < 275 # 1000.

(** An edge joins two different nodes of the list, the lower index first,
    that are nearer than the threshold; its strength is in [0.25, 1). *)
Definition edge_ok (ns : list Node) (e : Edge) : Prop :=
  (e_from e < e_to e < List.length ns)%nat /\
  (exists a b, nth_error ns (e_from e) = Some a /\ nth_error ns (e_to e) = Some b /\
               near a b = true) /\
  25 # 100 <= e_str e /\ e_str e < 1.

(** The stored values of a candle: open and close in [0.3, 0.7), high and
    low at most 0.08 beyond them. *)
Definition candle_stored_ok (c : Candle) : Prop :=
  (3 # 10 <= open c /\ open c < 7 # 10) /\
  (3 # 10 <= close c /\ close c < 7 # 10) /\
  (Qmax (open c) (close c) <= high c /\ high c < Qmax (open c) (close c) + (8 # 100)) /\
  (Qmin (open c) (close c) - (8 # 100) < low c /\ low c <= Qmin (open c) (close c)) /\
  bull c = Qltb (open c) (close c).

(** The edges [genEdge] yields for node [a] of index [i] and the nodes
    [rest], of indices [j], [j + 1], ... *)
Definition edge_from_ok (i j : nat) (a : Node) (rest : list Node) (e : Edge) : Prop :=
  e_from e = i /\ (j <= e_to e < j + List.length rest)%nat /\
  (exists b, nth_error rest (e_to e - j) = Some b /\ near a b = true) /\
  25 # 100 <= e_str e /\ e_str e < 1.

(** The edges [edgesAll] yields for the nodes [ns], of indices [i],
    [i + 1], ... *)
Definition edge_all_ok (i : nat) (ns : list Node) (e : Edge) : Prop :=
  (i <= e_from e)%nat /\ (e_from e < e_to e < i + List.length ns)%nat /\
  (exists a b, nth_error ns (e_from e - i) = Some a /\
               nth_error ns (e_to e - i) = Some b /\ near a b = true) /\
  25 # 100 <= e_str e /\ e_str e < 1.

(** ** Frames of the page's canvases *)

(** A dot as [update] leaves it: inside the canvas, with its brightness
    clamped and its size following the brightness. *)
Definition dot_inside (W H : Z) (d : Dot) : Prop :=
  (0 <= dot_x d /\ dot_x d <= inject_Z W) /\
  (0 <= dot_y d /\ dot_y d <= inject_Z H) /\
  (5 # 100 <= dot_brightness d /\ dot_brightness d <= 8 # 10) /\
  dot_size d == dot_baseSize d * ((8 # 10) + dot_brightness d * (4 # 10)).

(** ** Renderers that return *)

(** The renderer returns normally: no exception is raised. *)
Definition returns {A : Type} (m : Draw A) : Prop := exists a, snd m = inl a.

(** ** Unguarded restarts and unclamped candles *)

(** A sequence started twice without [stop()]: two frame callbacks are
    queued and the callback has not been called. *)
Definition Doubled {P : Type} (cb : P -> P) (p : P) (s : World P) : Prop :=
  skipped s = false /\ onComplete s = Some cb /\ canvas s = true /\
  completions (trace s) = 0%nat /\ page s = p /\
  exists a b, pending s = [a; b].

(** The four values of a candle after jitter and before clamping. *)
Definition unclamped (c : Candle) (volatility bias : Q) (d : Drawn) : Prop :=
  d_open d == open c + volatility + bias /\
  d_close d == close c + volatility * (9 # 10) - bias * (5 # 10) /\
  d_high d == high c + volatility * (115 # 100) + bias /\
  d_low d == low c + volatility * (115 # 100) - bias.

(** A drawn candle is a stored candle of [cs] moved by a volatility within
    8 percent and a bias within 2 percent, with no value clamped. *)
Definition jittered (cs : list Candle) (d : Drawn) : Prop :=
  exists c v b,
    In c cs /\
    (-(8 # 100) <= v /\ v <= 8 # 100) /\ (-(2 # 100) <= b /\ b <= 2 # 100) /\
    unclamped c v b d /\
    d_high d - d_open d == (high c - open c) + v * (15 # 100) /\
    d_high d - d_close d == (high c - close c) + v * (25 # 100) + b * (15 # 10) /\
    d_high d - d_low d == (high c - low c) + b * 2.

(** * Properties *)

(** ** Comparisons and clamping *)

Lemma Qltb_lt a b : Qltb a b = true <-> a < b.
Proof.
  unfold Qltb. rewrite negb_true_iff. split; intro H.
  - apply Qnot_le_lt. intro L. apply Qle_bool_iff in L. congruence.
  - destruct (Qle_bool b a) eqn:E; [|reflexivity].
    apply Qle_bool_iff in E. exfalso. exact (Qlt_not_le _ _ H E).
Qed.

Lemma Qltb_ge a b : Qltb a b = false <-> b <= a.
Proof.
  unfold Qltb. rewrite negb_false_iff. apply Qle_bool_iff.
Qed.

Lemma Qleb_le a b : Qleb a b = true <-> a <= b.
Proof. apply Qle_bool_iff. Qed.

Lemma Qleb_gt a b : Qleb a b = false <-> b < a.
Proof.
  unfold Qleb. split; intro H.
  - apply Qnot_le_lt. intro L. apply Qle_bool_iff in L. congruence.
  - destruct (Qle_bool a b) eqn:E; [|reflexivity].
    apply Qle_bool_iff in E. exfalso. exact (Qlt_not_le _ _ H E).
Qed.

Lemma clamp_bounds v lo hi : lo <= hi -> lo <= clamp v lo hi /\ clamp v lo hi <= hi.
Proof.
  intro H. unfold clamp, Math_max, Math_min. split.
  - apply Q.le_max_l.
  - apply Q.max_lub; [exact H | apply Q.le_min_l].
Qed.

(** ** The generator *)

Lemma rng_coprime : Z.gcd Rng.M Rng.A = 1%Z.
Proof. vm_compute. reflexivity. Qed.

(** A positive state that is not a multiple of the modulus is followed by a
    state strictly between 0 and the modulus, got by the mathematical [mod]. *)
Lemma rng_step_range (s : Z) :
  (0 < s)%Z -> (s mod Rng.M <> 0)%Z ->
  Rng.step s = ((s * 16807) mod 2147483647)%Z /\ (0 < Rng.step s < Rng.M)%Z.
Proof.
  intros Hpos Hnz.
  assert (E : Rng.step s = ((s * 16807) mod 2147483647)%Z).
  { unfold Rng.step, Rng.A, Rng.M. apply Z.rem_mod_nonneg; lia. }
  split; [exact E|].
  rewrite E.
  assert (B : (0 <= (s * 16807) mod 2147483647 < 2147483647)%Z)
    by (apply Z.mod_pos_bound; lia).
  assert (N : ((s * 16807) mod 2147483647 <> 0)%Z).
  { intro Z0. apply Hnz.
    apply Z.mod_divide in Z0; [|lia].
    apply Z.mod_divide; [unfold Rng.M; lia|].
    rewrite Z.mul_comm in Z0.
    exact (Z.gauss _ _ _ Z0 rng_coprime). }
  unfold Rng.M. lia.
Qed.

Lemma rng_state_invariant (seed : Z) (n : nat) :
  (0 < seed)%Z -> (seed mod Rng.M <> 0)%Z ->
  (0 < Rng.state seed n)%Z /\ (Rng.state seed n mod Rng.M <> 0)%Z.
Proof.
  intros Hpos Hnz. induction n as [|n [IHp IHn]]; simpl.
  - split; assumption.
  - destruct (rng_step_range _ IHp IHn) as [_ R]. split; [lia|].
    rewrite Z.mod_small by lia. lia.
Qed.

Lemma rng_out_range (s : Z) :
  (0 < s < Rng.M)%Z -> 0 <= Rng.out s /\ Rng.out s < 1.
Proof.
  intros [L U]. unfold Rng.M in U. unfold Rng.out.
  assert (E : inject_Z (s - 1) / inject_Z 2147483646 == (s - 1) # 2147483646).
  { rewrite (Qmake_Qdiv (s - 1) 2147483646). reflexivity. }
  rewrite E. unfold Qle, Qlt. simpl. lia.
Qed.

(** A call of the closure returns a number in [0, 1) when the captured
    variable is strictly between 0 and the modulus, and leaves it so. *)
Lemma r_range (s : Z) :
  (0 < s < Rng.M)%Z ->
  0 <= fst (r s) /\ fst (r s) < 1 /\ (0 < snd (r s) < Rng.M)%Z.
Proof.
  intros [L U]. unfold r, Rng.next. simpl.
  assert (Hnz : (s mod Rng.M <> 0)%Z) by (rewrite Z.mod_small; lia).
  destruct (rng_step_range s L Hnz) as [_ R].
  destruct (rng_out_range _ R). tauto.
Qed.

(** C5 (counterexample): with seed 0 the captured variable stays 0 and the
    first value returned is -1/2147483646, below 0; so the values returned
    are not in [0, 1) for every integer seed. *)
Lemma seededRng_seed_zero_out_of_range :
  Rng.output 0 0 == -1 # 2147483646 /\
  ~ (forall (seed : Z) (n : nat), 0 <= Rng.output seed n /\ Rng.output seed n < 1).
Proof.
  split.
  - vm_compute. reflexivity.
  - intro H. destruct (H 0%Z 0%nat) as [L _].
    revert L. vm_compute. intro L. apply L. reflexivity.
Qed.

(** C5 (amended): for every positive seed that is not a multiple of
    2147483647 and whose first product is exact in a double, the generator
    follows state = (state * 16807) mod 2147483647, returns
    (state - 1) / 2147483646, and every value returned lies in [0, 1). *)
Theorem seededRng_recurrence_and_range (seed : Z) (n : nat) :
  (0 < seed <= Rng.max_exact_seed)%Z ->
  (seed mod 2147483647 <> 0)%Z ->
  Rng.state seed (S n) = ((Rng.state seed n * 16807) mod 2147483647)%Z /\
  Rng.output seed n == inject_Z (Rng.state seed (S n) - 1) / inject_Z 2147483646 /\
  0 <= Rng.output seed n /\ Rng.output seed n < 1.
Proof.
  intros [Hpos _] Hnz.
  destruct (rng_state_invariant seed n Hpos Hnz) as [Sp Sn].
  destruct (rng_step_range _ Sp Sn) as [E R].
  split; [exact E|].
  split; [reflexivity|].
  unfold Rng.output, Rng.next. simpl.
  apply rng_out_range. exact R.
Qed.

Lemma seededRng_recurrence_and_range_witness :
  Rng.state 42 1 = ((Rng.state 42 0 * 16807) mod 2147483647)%Z /\
  Rng.output 42 0 == inject_Z (Rng.state 42 1 - 1) / inject_Z 2147483646 /\
  0 <= Rng.output 42 0 /\ Rng.output 42 0 < 1.
Proof.
  apply (seededRng_recurrence_and_range 42 0).
  - vm_compute. split; [reflexivity | discriminate].
  - vm_compute. discriminate.
Defined.

(** The values a generator returns depend on its own variable and on the
    number of its own calls only. *)
Lemma outputs_of_stream (g : nat) (sched : list nat) (hp : Rng.heap) :
  Rng.outputs_of g sched hp
  = Rng.stream (Rng.cells hp g) (List.length (filter (Nat.eqb g) sched)).
Proof.
  revert hp. induction sched as [|g' rest IH]; intro hp; [reflexivity|].
  cbn [Rng.outputs_of filter]. unfold Rng.call.
  destruct (Rng.next (Rng.cells hp g')) as [x s'] eqn:E.
  rewrite (Nat.eqb_sym g' g).
  destruct (Nat.eqb g g') eqn:G.
  - apply Nat.eqb_eq in G. subst g'.
    cbn [List.length Rng.stream]. rewrite E. f_equal.
    rewrite IH. cbn [Rng.cells]. rewrite Nat.eqb_refl. reflexivity.
  - rewrite IH. cbn [Rng.cells]. rewrite G. reflexivity.
Qed.

Lemma stream_nth (s : Z) (k n : nat) :
  (n < k)%nat -> nth_error (Rng.stream s k) n = Some (Rng.output s n).
Proof.
  revert s n. induction k as [|k IH]; intros s n H; [lia|].
  cbn [Rng.stream]. destruct (Rng.next s) as [x s'] eqn:E.
  destruct n as [|n].
  - unfold Rng.output. cbn [Rng.state nth_error]. rewrite E. reflexivity.
  - cbn [nth_error]. rewrite IH by lia.
    unfold Rng.output. f_equal. f_equal. f_equal.
    assert (S' : s' = Rng.step s) by (unfold Rng.next in E; congruence).
    subst s'. clear. induction n as [|n IHn]; [reflexivity|].
    cbn [Rng.state]. rewrite IHn. reflexivity.
Qed.

Lemma stream_length (s : Z) (k : nat) : List.length (Rng.stream s k) = k.
Proof.
  revert s. induction k as [|k IH]; intro s; cbn [Rng.stream]; [reflexivity|].
  destruct (Rng.next s) as [x s']. cbn [List.length]. rewrite IH. reflexivity.
Qed.

(** C6: two generators made by [seededRng(seed)] and called in any
    interleaving, among calls of any other generators, return the same
    sequence: the values returned by each are the stream determined by the
    seed alone, so the n-th value of one is the n-th value of the other. *)
Theorem seededRng_deterministic (seed : Z) (hp : Rng.heap) (sched : list nat) :
  let (g1, h1) := Rng.seededRng seed hp in
  let (g2, h2) := Rng.seededRng seed h1 in
  g1 <> g2 /\
  Rng.outputs_of g1 sched h2 = Rng.stream seed (List.length (filter (Nat.eqb g1) sched)) /\
  Rng.outputs_of g2 sched h2 = Rng.stream seed (List.length (filter (Nat.eqb g2) sched)) /\
  forall (n : nat) (x y : Q),
    nth_error (Rng.outputs_of g1 sched h2) n = Some x ->
    nth_error (Rng.outputs_of g2 sched h2) n = Some y ->
    x = y /\ x = Rng.output seed n.
Proof.
  unfold Rng.seededRng. cbn [Rng.fresh].
  set (g1 := Rng.fresh hp).
  split; [lia|].
  rewrite !outputs_of_stream. cbn [Rng.cells].
  rewrite Nat.eqb_refl.
  assert (N : Nat.eqb g1 (S g1) = false) by (apply Nat.eqb_neq; lia).
  rewrite N, Nat.eqb_refl.
  split; [reflexivity|]. split; [reflexivity|].
  intros n x y Hx Hy.
  assert (L1 : (n < List.length (filter (Nat.eqb g1) sched))%nat).
  { rewrite <- (stream_length seed). apply nth_error_Some. congruence. }
  assert (L2 : (n < List.length (filter (Nat.eqb (S g1)) sched))%nat).
  { rewrite <- (stream_length seed). apply nth_error_Some. congruence. }
  rewrite (stream_nth _ _ _ L1) in Hx. rewrite (stream_nth _ _ _ L2) in Hy.
  split; congruence.
Qed.

(** ** The phase scheduler *)

Lemma runPhases_scheduled (ps : list (Renderer * Q * Q)) (elapsed zoom : Q) :
  runPhases ps elapsed zoom = scheduled ps elapsed zoom.
Proof.
  unfold scheduled. induction ps as [|[[fn start] end_] rest IH]; [reflexivity|].
  cbn [runPhases filter inWindow].
  destruct (Qleb start elapsed && Qleb elapsed end_); cbn [map fst localT];
    rewrite IH; reflexivity.
Qed.

Lemma inWindow_iff (elapsed : Q) (fn : Renderer) (start end_ : Q) :
  inWindow elapsed (fn, start, end_) = true <-> start <= elapsed /\ elapsed <= end_.
Proof.
  cbn [inWindow]. rewrite andb_true_iff, !Qleb_le. tauto.
Qed.





Lemma inWindow_compat (e1 e2 : Q) (p : Renderer * Q * Q) :
  e1 == e2 -> inWindow e1 p = inWindow e2 p.
Proof.
  intro E. destruct p as [[fn start] end_]. cbn [inWindow]. unfold Qleb.
  assert (A : Qle_bool start e1 = Qle_bool start e2).
  { destruct (Qle_bool start e1) eqn:X, (Qle_bool start e2) eqn:Y; try reflexivity.
    - apply Qle_bool_iff in X. rewrite E in X. apply Qle_bool_iff in X. congruence.
    - apply Qle_bool_iff in Y. rewrite <- E in Y. apply Qle_bool_iff in Y. congruence. }
  assert (B : Qle_bool e1 end_ = Qle_bool e2 end_).
  { destruct (Qle_bool e1 end_) eqn:X, (Qle_bool e2 end_) eqn:Y; try reflexivity.
    - apply Qle_bool_iff in X. rewrite E in X. apply Qle_bool_iff in X. congruence.
    - apply Qle_bool_iff in Y. rewrite <- E in Y. apply Qle_bool_iff in Y. congruence. }
  rewrite A, B. reflexivity.
Qed.

Lemma filter_inWindow_compat (e1 e2 : Q) (ps : list (Renderer * Q * Q)) :
  e1 == e2 -> filter (inWindow e1) ps = filter (inWindow e2) ps.
Proof.
  intro E. induction ps as [|p ps IH]; [reflexivity|].
  cbn [filter]. rewrite (inWindow_compat e1 e2 p E), IH. reflexivity.
Qed.

(** ** Frames *)

Section FrameFacts.

Context {P : Type} (throws : Throws).
Implicit Types s : World P.

Lemma render_skipped timestamp s : skipped s = true -> render throws timestamp s = s.
Proof. intro H. unfold render. rewrite H. reflexivity. Qed.

(** The calls made are a prefix of the calls scheduled. *)
Lemma callPhases_prefix cw ch (ps : list (Renderer * Q * Q)) elapsed zoom :
  exists rest,
    runPhases ps elapsed zoom = fst (callPhases throws cw ch ps elapsed zoom) ++ rest.
Proof.
  induction ps as [|[[fn start] end_] ps IH]; [exists []; reflexivity|].
  cbn [callPhases runPhases]. destruct IH as [rest IH].
  destruct (Qleb start elapsed && Qleb elapsed end_); [|exists rest; exact IH].
  cbv zeta. destruct (throws fn cw ch _ elapsed zoom).
  - eexists. cbn [fst app]. reflexivity.
  - destruct (callPhases throws cw ch ps elapsed zoom) as [calls raised].
    exists rest. cbn [fst app] in IH |- *. rewrite IH. reflexivity.
Qed.

(** When no call raises, the calls made are the calls scheduled. *)
Lemma callPhases_quiet cw ch (ps : list (Renderer * Q * Q)) elapsed zoom :
  snd (callPhases throws cw ch ps elapsed zoom) = false ->
  fst (callPhases throws cw ch ps elapsed zoom) = runPhases ps elapsed zoom.
Proof.
  induction ps as [|[[fn start] end_] ps IH]; [reflexivity|].
  cbn [callPhases runPhases].
  destruct (Qleb start elapsed && Qleb elapsed end_); [|exact IH].
  cbv zeta. destruct (throws fn cw ch _ elapsed zoom); [discriminate|].
  destruct (callPhases throws cw ch ps elapsed zoom) as [calls raised].
  cbn [fst snd] in IH |- *. intro H. rewrite (IH H). reflexivity.
Qed.


(** A frame of a running sequence before the end of the duration. *)
Lemma render_before_end timestamp s :
  skipped s = false ->
  timestamp - clockStart timestamp s < DURATION ->
  let elapsed := timestamp - clockStart timestamp s in
  let r := callPhases throws (w s) (h s) phases elapsed (getZoom elapsed) in
  render throws timestamp s
  = if snd r then
      mkWorld (canvas s) (w s) (h s) (Some (clockStart timestamp s)) (onComplete s)
              (animFrameId s) false (pools s) (page s)
              (trace s ++ [EClearRect (w s) (h s)] ++ [EFillSolid (w s) (h s)] ++ fst r)
              (pending s) (nextHandle s)
    else
      mkWorld (canvas s) (w s) (h s) (Some (clockStart timestamp s)) (onComplete s)
              (Some (nextHandle s)) false (pools s) (page s)
              (trace s ++ [EClearRect (w s) (h s)] ++ [EFillSolid (w s) (h s)] ++ fst r)
              (pending s ++ [nextHandle s]) (Pos.succ (nextHandle s)).
Proof.
  destruct s as [cv sw sh st oc af sk pl pg tr pn nh].
  cbn [skipped canvas w h onComplete animFrameId pools page trace pending nextHandle].
  intros Hs Hlt. cbv zeta. subst sk. unfold render.
  cbn [skipped]. cbv zeta.
  assert (E : Qleb DURATION
                (timestamp - clockStart timestamp
                               (mkWorld cv sw sh st oc af false pl pg tr pn nh)) = false)
    by (apply Qleb_gt; exact Hlt).
  rewrite E.
  cbn [w h log set_startTime canvas startTime onComplete animFrameId skipped pools page
       trace pending nextHandle].
  destruct (callPhases throws sw sh phases _ _) as [calls raised].
  cbn [fst snd]. destruct raised.
  - unfold logs, log, set_startTime.
    cbn [w h canvas startTime onComplete animFrameId skipped pools page trace pending
         nextHandle].
    rewrite <- !app_assoc. reflexivity.
  - unfold logs, requestAnimationFrame, set_animFrameId, log, set_startTime.
    cbn [w h canvas startTime onComplete animFrameId skipped pools page trace pending
         nextHandle].
    rewrite <- !app_assoc. reflexivity.
Qed.

(** A frame before the end in which no renderer raises. *)
Lemma render_running timestamp s :
  skipped s = false ->
  timestamp - clockStart timestamp s < DURATION ->
  quiet throws (w s) (h s) (timestamp - clockStart timestamp s) ->
  let elapsed := timestamp - clockStart timestamp s in
  render throws timestamp s
  = mkWorld (canvas s) (w s) (h s) (Some (clockStart timestamp s)) (onComplete s)
            (Some (nextHandle s)) false (pools s) (page s)
            (trace s ++ [EClearRect (w s) (h s)] ++ [EFillSolid (w s) (h s)]
                     ++ runPhases phases elapsed (getZoom elapsed))
            (pending s ++ [nextHandle s]) (Pos.succ (nextHandle s)).
Proof.
  intros Hs Hlt Hq. cbv zeta.
  pose proof (render_before_end timestamp s Hs Hlt) as E. cbv zeta in E.
  unfold quiet in Hq. rewrite Hq in E.
  rewrite (callPhases_quiet _ _ _ _ _ Hq) in E. exact E.
Qed.


(** A frame of a running sequence at or after the end of the duration. *)
Lemma render_final timestamp s :
  skipped s = false ->
  DURATION <= timestamp - clockStart timestamp s ->
  render throws timestamp s
  = complete (log (EFillSolid (w s) (h s))
                  (set_startTime (Some (clockStart timestamp s)) s)).
Proof.
  intros Hs Hle. unfold render. rewrite Hs. cbv zeta.
  assert (E : Qleb DURATION (timestamp - clockStart timestamp s) = true)
    by (apply Qleb_le; exact Hle).
  rewrite E. reflexivity.
Qed.

Lemma frame_skipped timestamp s :
  skipped s = true -> frame throws timestamp s = set_pending [] s.
Proof.
  intro H. unfold frame.
  assert (K : skipped (set_pending [] s) = true) by exact H.
  revert K. generalize (set_pending [] s). generalize (pending s).
  intros l. induction l as [|x l IH]; intros s0 K; [reflexivity|].
  cbn [fold_left]. rewrite (render_skipped _ _ K). apply IH. exact K.
Qed.

Lemma frames_skipped (tss : list Q) s :
  skipped s = true ->
  let s' := fold_left (fun s ts => frame throws ts s) tss s in
  trace s' = trace s /\ skipped s' = true /\ page s' = page s /\
  animFrameId s' = animFrameId s /\ (tss <> [] -> pending s' = []).
Proof.
  revert s. induction tss as [|ts tss IH]; intros s H; cbn [fold_left].
  - repeat split; try reflexivity; try assumption. intro K. congruence.
  - rewrite (frame_skipped _ _ H).
    destruct (IH (set_pending [] s) H) as (A & B & C & D & E).
    repeat split; try assumption.
    intros _. destruct tss as [|t tss']; [reflexivity|].
    apply E. discriminate.
Qed.

End FrameFacts.

Lemma completions_app (a b : list Event) :
  completions (a ++ b) = (completions a + completions b)%nat.
Proof.
  induction a as [|e a IH]; [reflexivity|].
  destruct e; cbn [app completions]; rewrite IH; reflexivity.
Qed.

Lemma paints_app (a b : list Event) : paints (a ++ b) = (paints a + paints b)%nat.
Proof.
  induction a as [|e a IH]; [reflexivity|].
  destruct e; cbn [app paints]; rewrite IH; reflexivity.
Qed.

Lemma completions_runPhases ps elapsed zoom : completions (runPhases ps elapsed zoom) = 0%nat.
Proof.
  induction ps as [|[[fn start] end_] rest IH]; [reflexivity|].
  cbn [runPhases]. destruct (Qleb start elapsed && Qleb elapsed end_); cbn [completions]; exact IH.
Qed.




(** ** The sequence controller *)

Section ControllerFacts.

Context {P : Type} (throws : Throws).
Implicit Types s : World P.

(** The state [skip()] leaves, when it returns. *)
Lemma skip_effect s s' :
  skip s = Some s' ->
  canvas s = true /\
  skipped s' = true /\ animFrameId s' = None /\ canvas s' = true /\
  onComplete s' = onComplete s /\
  pending s'
  = match animFrameId s with
    | Some id => filter (fun x => negb (Pos.eqb x id)) (pending s)
    | None => pending s
    end /\
  match onComplete s with
  | Some cb => trace s' = trace s ++ [EFillSolid (w s) (h s); EComplete]
               /\ page s' = cb (page s)
  | None => trace s' = trace s ++ [EFillSolid (w s) (h s)] /\ page s' = page s
  end.
Proof.
  destruct s as [cv sw sh st oc af sk pl pg tr pn nh].
  unfold skip. cbn.
  destruct af as [id|], cv, oc as [cb|]; cbn; intro H; inversion H; subst; clear H; cbn;
    rewrite <- ?app_assoc; cbn [app]; repeat split; reflexivity.
Qed.


Lemma exec_frames (tss : list Q) s :
  exec throws (map AFrame tss) s
  = Some (fold_left (fun s ts => frame throws ts s) tss s).
Proof.
  revert s. induction tss as [|ts tss IH]; intro s; [reflexivity|].
  cbn [map exec act fold_left]. apply IH.
Qed.

(** With no callback queued a frame of the host does nothing. *)
Lemma frame_no_pending ts s : pending s = [] -> frame throws ts s = s.
Proof.
  intro H. unfold frame. rewrite H. cbn [fold_left].
  unfold set_pending. rewrite <- H. destruct s; reflexivity.
Qed.

Lemma frames_no_pending (tss : list Q) s :
  pending s = [] -> fold_left (fun s ts => frame throws ts s) tss s = s.
Proof.
  intro H. induction tss as [|ts tss IH]; [reflexivity|].
  cbn [fold_left]. rewrite (frame_no_pending ts s H). exact IH.
Qed.

End ControllerFacts.

Section SequenceFacts.

Context {P : Type} (throws : Throws).
Implicit Types s : World P.


Lemma start_Running cw ch (cb : P -> P) (p : P) :
  Running cb p (start cw ch (Some cb) (initial p)) /\
  startTime (start cw ch (Some cb) (initial p)) = None.
Proof.
  unfold Running. cbn. repeat split. exists 1%positive. split; reflexivity.
Qed.

Lemma start_dims cw ch (f : option (P -> P)) s :
  w (start cw ch f s) = cw /\ h (start cw ch f s) = ch.
Proof. split; reflexivity. Qed.

Lemma Running_Live cb p s : Running cb p s -> Live cb p s.
Proof.
  intros (Hs & Hc & Hcv & Hn & Hp & Hq). repeat split; try assumption. right. exact Hq.
Qed.

Lemma clockStart_latched ts t0 s :
  startTime s = Some t0 -> ~ t0 == 0 -> clockStart ts s = t0.
Proof.
  intros H N. unfold clockStart. rewrite H. cbn [falsy].
  destruct (Qeq_bool t0 0) eqn:E; [|reflexivity].
  apply Qeq_bool_iff in E. contradiction.
Qed.

(** One animation frame of a running sequence before its end, in which no
    renderer raises. *)
Lemma frame_Running cb p ts s :
  Running cb p s ->
  ts - clockStart ts s < DURATION ->
  quiet throws (w s) (h s) (ts - clockStart ts s) ->
  Running cb p (frame throws ts s) /\
  startTime (frame throws ts s) = Some (clockStart ts s) /\
  w (frame throws ts s) = w s /\ h (frame throws ts s) = h s.
Proof.
  intros (Hs & Hc & Hcv & Hn & Hp & id & Hpend & Hid) Hlt Hq.
  unfold frame. rewrite Hpend. cbn [fold_left].
  assert (Hs' : skipped (set_pending [] s) = false) by exact Hs.
  assert (Hlt' : ts - clockStart ts (set_pending [] s) < DURATION) by exact Hlt.
  assert (Hq' : quiet throws (w (set_pending [] s)) (h (set_pending [] s))
                      (ts - clockStart ts (set_pending [] s))) by exact Hq.
  rewrite (render_running throws ts (set_pending [] s) Hs' Hlt' Hq').
  unfold Running.
  cbn [canvas w h startTime onComplete animFrameId skipped pools page trace
       pending nextHandle set_pending].
  repeat split; try assumption.
  - rewrite !completions_app, completions_runPhases. cbn [completions]. lia.
  - exists (nextHandle s). split; reflexivity.
Qed.



Lemma frames_Running cb p t0 (tss : list Q) s :
  Running cb p s -> startTime s = Some t0 -> ~ t0 == 0 ->
  Forall (fun ts => ts - t0 < DURATION) tss ->
  Forall (fun ts => quiet throws (w s) (h s) (ts - t0)) tss ->
  let s' := fold_left (fun s ts => frame throws ts s) tss s in
  Running cb p s' /\ startTime s' = Some t0 /\ w s' = w s /\ h s' = h s.
Proof.
  intros R St N F. revert s R St.
  induction F as [|ts tss Hts F IH]; intros s R St HQ; cbn [fold_left].
  - split; [exact R | split; [exact St | split; reflexivity]].
  - apply Forall_cons_iff in HQ. destruct HQ as [Qts Qtss].
    pose proof (clockStart_latched ts t0 s St N) as C.
    assert (Hlt : ts - clockStart ts s < DURATION) by (rewrite C; exact Hts).
    assert (Hq : quiet throws (w s) (h s) (ts - clockStart ts s)) by (rewrite C; exact Qts).
    destruct (frame_Running cb p ts s R Hlt Hq) as (R' & St' & W' & H').
    rewrite C in St'.
    assert (Q' : Forall (fun ts0 => quiet throws (w (frame throws ts s))
                                          (h (frame throws ts s)) (ts0 - t0)) tss)
      by (rewrite W', H'; exact Qtss).
    destruct (IH _ R' St' Q') as (A & B & C' & D).
    rewrite W' in C'. rewrite H' in D.
    split; [exact A | split; [exact B | split; [exact C' | exact D]]].
Qed.


(** A run of quiet frames that stay before the end, after [start]. *)
Lemma beforeEnd_Running cw ch cb p (tss : list Q) :
  beforeEnd tss ->
  match tss with
  | [] => True
  | t0 :: _ => Forall (fun ts => quiet throws cw ch (ts - t0)) tss
  end ->
  let s' := fold_left (fun s ts => frame throws ts s) tss
                      (start cw ch (Some cb) (initial p)) in
  Running cb p s' /\
  startTime s' = match tss with [] => None | t0 :: _ => Some t0 end /\
  w s' = cw /\ h s' = ch.
Proof.
  destruct (start_Running cw ch cb p) as [R0 S0].
  destruct (start_dims cw ch (Some cb) (initial p)) as [W0 H0].
  revert R0 S0 W0 H0. generalize (start cw ch (Some cb) (initial p)).
  intros s0 R0 S0 W0 H0.
  destruct tss as [|t0 rest]; intros B HQ;
    [split; [exact R0 | split; [exact S0 | split; [exact W0 | exact H0]]]|].
  destruct B as [N F]. apply Forall_cons_iff in HQ. destruct HQ as [Q0 Qr].
  cbn [fold_left].
  assert (C : clockStart t0 s0 = t0) by (unfold clockStart; rewrite S0; reflexivity).
  assert (Hlt : t0 - clockStart t0 s0 < DURATION).
  { rewrite C. unfold DURATION. lra. }
  assert (Hq : quiet throws (w s0) (h s0) (t0 - clockStart t0 s0))
    by (rewrite C, W0, H0; exact Q0).
  destruct (frame_Running cb p t0 _ R0 Hlt Hq) as (R1 & S1 & W1 & H1). rewrite C in S1.
  assert (Qr' : Forall (fun ts => quiet throws (w (frame throws t0 s0))
                                        (h (frame throws t0 s0)) (ts - t0)) rest)
    by (rewrite W1, H1, W0, H0; exact Qr).
  destruct (frames_Running cb p t0 rest _ R1 S1 N F Qr') as (A & B & C' & D).
  rewrite W1, W0 in C'. rewrite H1, H0 in D.
  split; [exact A | split; [exact B | split; [exact C' | exact D]]].
Qed.


Lemma skip_Live cb p s :
  Live cb p s ->
  exists s', skip s = Some s' /\ skipped s' = true /\
             completions (trace s') = 1%nat /\ page s' = cb p /\ pending s' = [].
Proof.
  intros (Hs & Hc & Hcv & Hn & Hp & Hq).
  destruct (skip s) as [s'|] eqn:E.
  - exists s'. split; [reflexivity|].
    destruct (skip_effect s s' E) as (_ & A & _ & _ & _ & Pn & T).
    rewrite Hc in T. destruct T as [T Pg].
    assert (Pn' : pending s' = []).
    { destruct Hq as [Hq|(id & Hpend & Hid)].
      - rewrite Hq in Pn. destruct (animFrameId s); exact Pn.
      - rewrite Hid, Hpend in Pn. cbn [filter] in Pn. rewrite Pos.eqb_refl in Pn.
        exact Pn. }
    repeat split; try assumption.
    + rewrite T, completions_app, Hn. reflexivity.
    + rewrite Pg, Hp. reflexivity.
  - exfalso. unfold skip in E.
    destruct (animFrameId (set_skipped true s));
      cbn [canvas set_animFrameId cancelAnimationFrame set_pending set_skipped] in E;
      rewrite Hcv in E; discriminate.
Qed.

Lemma skip_Running cb p s :
  Running cb p s ->
  exists s', skip s = Some s' /\ skipped s' = true /\
             completions (trace s') = 1%nat /\ page s' = cb p /\ pending s' = [].
Proof. intro R. apply skip_Live. apply Running_Live. exact R. Qed.



Lemma skip_Ended cb p s :
  Ended cb p s ->
  exists s', skip s = Some s' /\ completions (trace s') = 2%nat.
Proof.
  intros (Hs & Hc & Hcv & Hn & Hp & Hpend).
  destruct (skip s) as [s'|] eqn:E.
  - exists s'. split; [reflexivity|].
    destruct (skip_effect s s' E) as (_ & _ & _ & _ & _ & _ & T).
    rewrite Hc in T. destruct T as [T _].
    rewrite T, completions_app, Hn. reflexivity.
  - exfalso. unfold skip in E.
    destruct (animFrameId (set_skipped true s));
      cbn [canvas set_animFrameId cancelAnimationFrame set_pending set_skipped] in E;
      rewrite Hcv in E; discriminate.
Qed.




End SequenceFacts.

(** C8: once [skip()] has returned, a frame callback does nothing: [render]
    returns at once, leaving every variable, the drawing surface and the
    frame queue as they were; the frame that was requested is cancelled; and
    over any later frames of the host the trace, and so the count of paints,
    stays constant and no frame is requested. *)
Theorem no_frame_after_skip {P : Type} (throws : Throws) (s s' : World P)
        (tss : list Q) :
  skip s = Some s' ->
  skipped s' = true /\
  animFrameId s' = None /\
  (forall id, animFrameId s = Some id -> ~ In id (pending s')) /\
  (forall ts, render throws ts s' = s') /\
  let s'' := fold_left (fun s ts => frame throws ts s) tss s' in
  trace s'' = trace s' /\
  paints (trace s'') = paints (trace s') /\
  completions (trace s'') = completions (trace s') /\
  (tss <> [] -> pending s'' = []).
Proof.
  intro H. destruct (skip_effect s s' H) as (_ & Sk & A & _ & _ & Pn & _).
  split; [exact Sk|]. split; [exact A|]. split; [|split].
  - intros id Hid Hin. rewrite Pn, Hid in Hin.
    apply filter_In in Hin. destruct Hin as [_ Hin].
    rewrite Pos.eqb_refl in Hin. discriminate.
  - intro ts. apply render_skipped. exact Sk.
  - destruct (frames_skipped throws tss s' Sk) as (T & _ & _ & _ & E).
    cbv zeta. rewrite T. repeat split. exact E.
Qed.

Lemma no_frame_after_skip_witness :
  let s := render othersRaise 1000 (start 800 600 (Some S) (initial 0%nat)) in
  exists s', skip s = Some s' /\
             render othersRaise 1016 s' = s' /\
             paints (trace (frame othersRaise 1016 s')) = paints (trace s').
Proof.
  intro s.
  destruct (skip s) as [s'|] eqn:E; [|discriminate E].
  exists s'. split; [reflexivity|].
  destruct (no_frame_after_skip othersRaise s s' [1016] E) as (_ & _ & _ & R & _ & Pt & _).
  split; [apply R | exact Pt].
Defined.

(** ** The page *)

Lemma revealMainSite_flags (p : PageFlags) :
  landingSequenceFinished p = false ->
  landingSequenceFinished (revealMainSite p) = true /\
  reveals (revealMainSite p) = S (reveals p) /\
  observatoryStarted (revealMainSite p) = observatoryStarted p.
Proof.
  intro H. unfold revealMainSite, ensureDotsAnimation. rewrite H.
  cbn [dotsAnimationRunning]. destruct (dotsAnimationRunning p); repeat split.
Qed.

Lemma completeFn_cases (p : PageFlags) :
  (landingSequenceFinished p = true /\ completeFn p = p) \/
  (landingSequenceFinished p = false /\ completeFn p = revealMainSite p).
Proof.
  unfold completeFn. destruct (landingSequenceFinished p); cbn [negb]; auto.
Qed.

(** A step that keeps the controller started, keeps its callback, and either
    leaves the page flags or applies the callback to them. *)
Lemma PageInv_step (s s' : PageWorld) :
  PageInv s ->
  (canvas s = true -> canvas s' = true) ->
  onComplete s' = onComplete s ->
  page s' = page s \/ page s' = completeFn (page s) ->
  PageInv s'.
Proof.
  intros (I1 & I2 & I3) Hc Ho Hp. unfold PageInv. rewrite Ho.
  destruct Hp as [Hp|Hp]; rewrite Hp.
  - repeat split; try assumption. intros A B. apply Hc. apply I3; assumption.
  - destruct (completeFn_cases (page s)) as [[F E]|[F E]]; rewrite E.
    + repeat split; try assumption. intros A B. apply Hc. apply I3; assumption.
    + destruct (revealMainSite_flags (page s) F) as (R1 & R2 & R3).
      rewrite R1, R2. rewrite F in I1. rewrite I1.
      repeat split; try assumption. intros _ B. discriminate.
Qed.

Lemma render_page {P : Type} (throws : Throws) (ts : Q) (s : World P) :
  canvas (render throws ts s) = canvas s /\
  onComplete (render throws ts s) = onComplete s /\
  (page (render throws ts s) = page s \/
   exists cb, onComplete s = Some cb /\ page (render throws ts s) = cb (page s)).
Proof.
  unfold render. destruct (skipped s); [auto|].
  cbv zeta. destruct (Qleb DURATION (ts - clockStart ts s)).
  - unfold complete, log, set_startTime, set_page.
    cbn [canvas w h startTime onComplete animFrameId skipped pools page trace
         pending nextHandle].
    destruct (onComplete s) as [cb|] eqn:O;
      cbn [canvas w h startTime onComplete animFrameId skipped pools page trace
           pending nextHandle]; repeat split; eauto.
  - destruct (callPhases throws _ _ phases _ _) as [calls raised].
    destruct raised; cbn; auto.
Qed.







Lemma pageInitial_PageInv : PageInv pageInitial.
Proof. unfold PageInv. cbn. repeat split; auto; intros; discriminate. Qed.




(** ** Candlesticks *)

Lemma candle_okb_ok (o c hi lo : Q) : candle_okb o c hi lo = true -> candle_ok o c hi lo.
Proof.
  unfold candle_okb, candle_ok. rewrite andb_true_iff, !Qleb_le. tauto.
Qed.

Lemma candle_okb_not_ok (o c hi lo : Q) : candle_okb o c hi lo = false -> ~ candle_ok o c hi lo.
Proof.
  unfold candle_okb, candle_ok. intros H [A B].
  apply Qleb_le in A. apply Qleb_le in B. rewrite A, B in H. discriminate.
Qed.

(** A candle generated from a state strictly between 0 and the modulus. *)
Lemma genCandle_ok (i s : Z) :
  (0 < s < Rng.M)%Z ->
  let c := fst (genCandle i s) in
  candle_ok (open c) (close c) (high c) (low c).
Proof.
  intro Hs. unfold genCandle, bind, ret.
  destruct (r s) as [ro s1] eqn:E1.
  pose proof (r_range s Hs) as R1. rewrite E1 in R1. cbn [fst snd] in R1.
  destruct (r s1) as [rc s2] eqn:E2.
  pose proof (r_range s1 (proj2 (proj2 R1))) as R2. rewrite E2 in R2. cbn [fst snd] in R2.
  destruct (r s2) as [rh s3] eqn:E3.
  pose proof (r_range s2 (proj2 (proj2 R2))) as R3. rewrite E3 in R3. cbn [fst snd] in R3.
  destruct (r s3) as [rl s4] eqn:E4.
  pose proof (r_range s3 (proj2 (proj2 R3))) as R4. rewrite E4 in R4. cbn [fst snd] in R4.
  cbn [fst open close high low]. unfold candle_ok, Math_max, Math_min.
  destruct R3 as (H0 & _). destruct R4 as (L0 & _).
  split; lra.
Qed.

Lemma clampPrice_range (v : Q) : 1 # 10 <= clampPrice v /\ clampPrice v <= 9 # 10.
Proof.
  unfold clampPrice, Math_max, Math_min. split.
  - apply Q.le_max_l.
  - apply Q.max_lub; [unfold Qle; simpl; lia | apply Q.le_min_l].
Qed.

Lemma jitter_range (c : Candle) (v b : Q) : in_price_range (jitter c v b).
Proof.
  unfold in_price_range, jitter. cbn [d_open d_close d_high d_low].
  repeat split; apply clampPrice_range.
Qed.

Lemma drawColumn_jitter elapsed side candleP i cs d :
  In d (drawColumn elapsed side candleP i cs) ->
  exists c v b, In c cs /\ d = jitter c v b.
Proof.
  revert i. induction cs as [|c cs IH]; intros i H; cbn [drawColumn In] in H; [tauto|].
  destruct H as [H|H].
  - exists c, (volatility elapsed i side candleP), (bias elapsed i).
    split; [left; reflexivity | symmetry; exact H].
  - destruct (IH _ H) as (c' & v & b & Hin & E).
    exists c', v, b. split; [right; exact Hin | exact E].
Qed.

Lemma cosmosCandles_jitter p t elapsed d :
  In d (cosmosCandles p t elapsed) ->
  exists c v b, In c (candles p) /\ d = jitter c v b.
Proof.
  unfold cosmosCandles. cbv zeta.
  destruct (Qleb _ 0); cbn [In]; [tauto|].
  destruct (Qltb 0 _); cbn [In]; [|tauto].
  intro H. apply in_app_or in H. destruct H as [H|H]; eapply drawColumn_jitter; exact H.
Qed.

(** C4 (counterexample): in the frame at elapsed 27000, where the scheduler
    calls the cosmos renderer with t = 4000/9000, the candle of index 25 of
    the first column is drawn with its high below its close: the values
    drawn after jitter do not keep high >= max(open, close). *)
Lemma cosmos_candle_high_below_close :
  let t := localT 27000 (fn_drawCosmos, 23000, 32000) in
  let d := nth 25 (cosmosCandles initParticles t 27000) (jitter (Build_Candle 0 0 0 0 false) 0 0) in
  (In d (cosmosCandles initParticles t 27000) /\ d_high d < d_close d) /\
  ~ (forall (t elapsed : Q) (d : Drawn),
        In d (cosmosCandles initParticles t elapsed) ->
        candle_ok (d_open d) (d_close d) (d_high d) (d_low d)).
Proof.
  intros t d.
  assert (L : Nat.ltb 25 (List.length (cosmosCandles initParticles t 27000))
              && Qltb (d_high d) (d_close d) = true)
    by (vm_compute; reflexivity).
  apply andb_true_iff in L. destruct L as [L1 L2].
  apply Nat.ltb_lt in L1. apply Qltb_lt in L2.
  assert (I : In d (cosmosCandles initParticles t 27000)) by (apply nth_In; exact L1).
  split; [split; assumption|].
  intro H. destruct (H t 27000 d I) as [A _].
  assert (B : d_close d <= Qmax (d_open d) (d_close d)) by apply Q.le_max_r.
  lra.
Qed.

(** C4 (amended): at pool initialisation every candlestick has
    high >= max(open, close) and low <= min(open, close), for the pool of
    [initParticles] and for any candle generated from a state of the
    generator in range; after the per-frame jitter each of the four values
    drawn is clamped into [0.1, 0.9]. *)
Theorem candles_init_invariant_and_drawn_range :
  (forall c : Candle,
      In c (candles initParticles) -> candle_ok (open c) (close c) (high c) (low c)) /\
  (forall i s : Z,
      (0 < s < 2147483647)%Z ->
      let c := fst (genCandle i s) in candle_ok (open c) (close c) (high c) (low c)) /\
  (forall (c : Candle) (volatility bias : Q), in_price_range (jitter c volatility bias)) /\
  (forall (p : Pools) (t elapsed : Q) (d : Drawn),
      In d (cosmosCandles p t elapsed) -> in_price_range d).
Proof.
  split; [|split; [|split]].
  - assert (F : forallb (fun c => candle_okb (open c) (close c) (high c) (low c))
                        (candles initParticles) = true)
      by (vm_compute; reflexivity).
    intros c Hc. apply candle_okb_ok.
    rewrite forallb_forall in F. apply F. exact Hc.
  - exact genCandle_ok.
  - exact jitter_range.
  - intros p t elapsed d H.
    destruct (cosmosCandles_jitter p t elapsed d H) as (c & v & b & _ & E).
    subst d. apply jitter_range.
Qed.

Lemma candles_init_invariant_and_drawn_range_witness :
  let c := fst (genCandle 0%Z 1%Z) in
  (0 < 1 < 2147483647)%Z /\ candle_ok (open c) (close c) (high c) (low c).
Proof.
  intro c. split; [lia|].
  apply (proj1 (proj2 candles_init_invariant_and_drawn_range) 0%Z 1%Z). lia.
Defined.

(** ** Pool sizes *)

Lemma forPush_length {S A : Type} (n : nat) (i : Z) (body : Z -> State S A) (s : S) :
  List.length (fst (forPush n i body s)) = n.
Proof.
  revert i s. induction n as [|n IH]; intros i s; [reflexivity|].
  cbn [forPush]. unfold bind at 1. destruct (body i s) as [x s1].
  unfold bind at 1. specialize (IH (i + 1)%Z s1).
  destruct (forPush n (i + 1)%Z body s1) as [xs s2].
  cbn [fst] in IH. cbn [ret fst List.length]. rewrite IH. reflexivity.
Qed.

(** The sizes of the eight observatory pools but for the edges, whatever the
    state of the generator. *)
Lemma genPools_lengths (s : Z) :
  let p := fst (genPools s) in
  List.length (bgStars p) = 180%nat /\ List.length (dust p) = 300%nat /\
  List.length (lensRings p) = 12%nat /\ List.length (stars p) = 800%nat /\
  List.length (nodes (neural p)) = 55%nat /\ List.length (candles p) = 80%nat /\
  List.length (comets p) = 12%nat /\ List.length (orderCols p) = 45%nat.
Proof.
  unfold genPools, bind.
  pose proof (forPush_length 180 0 genBgStar s) as L1.
  destruct (forPush 180 0 genBgStar s) as [bg s1].
  pose proof (forPush_length 300 0 genDust s1) as L2.
  destruct (forPush 300 0 genDust s1) as [du s2].
  pose proof (forPush_length 12 0 genLensRing s2) as L3.
  destruct (forPush 12 0 genLensRing s2) as [lr s3].
  pose proof (forPush_length 800 0 genStar s3) as L4.
  destruct (forPush 800 0 genStar s3) as [st s4].
  pose proof (forPush_length 55 0 genNode s4) as L5.
  destruct (forPush 55 0 genNode s4) as [ns s5].
  destruct (edgesAll 0 ns s5) as [es s6].
  pose proof (forPush_length 80 0 genCandle s6) as L6.
  destruct (forPush 80 0 genCandle s6) as [ca s7].
  pose proof (forPush_length 12 0 genComet s7) as L7.
  destruct (forPush 12 0 genComet s7) as [co s8].
  pose proof (forPush_length 45 0 genOrderCol s8) as L8.
  destruct (forPush 45 0 genOrderCol s8) as [oc s9].
  cbn [fst] in *. cbn [ret fst bgStars dust lensRings stars neural nodes candles comets orderCols].
  repeat split; assumption.
Qed.

Lemma poolsAt_initParticles (vw vh : Z) : poolsAt vw vh = Some initParticles.
Proof. reflexivity. Qed.

Lemma observatoryCount_constant (f : Pools -> nat) (vw vh : Z) :
  observatoryCount f vw vh = f initParticles.
Proof. unfold observatoryCount. rewrite poolsAt_initParticles. reflexivity. Qed.

Lemma initDots_length (random : nat -> Q) (k : nat) (vw vh : Z) :
  List.length (fst (initDots random vw vh k)) = Z.to_nat (vw * vh / 8000).
Proof. unfold initDots. apply forPush_length. Qed.

Lemma initIntroElements_lengths (random : nat -> Q) (k : nat) (vw vh : Z) :
  let r := fst (initIntroElements random vw vh k) in
  List.length (fst (fst r)) = Z.to_nat (Z.min vw vh / 18) /\
  List.length (snd (fst r)) = 80%nat /\
  List.length (snd r) = 3%nat.
Proof.
  unfold initIntroElements, bind.
  pose proof (forPush_length (Z.to_nat (Z.min vw vh / 18)) 0
                             (newOrbitNode random vw vh) k) as L1.
  destruct (forPush (Z.to_nat (Z.min vw vh / 18)) 0 (newOrbitNode random vw vh) k)
    as [ns k1].
  pose proof (forPush_length 80 0 (newSpark random vw vh) k1) as L2.
  destruct (forPush 80 0 (newSpark random vw vh) k1) as [ss k2].
  destruct (newHaloRing random 0 k2) as [r0 k3].
  destruct (newHaloRing random 400 k3) as [r1 k4].
  destruct (newHaloRing random 900 k4) as [r2 k5].
  cbn [fst] in *. cbn [ret fst snd List.length]. repeat split; assumption.
Qed.

(** The size of every pool, as a function of the viewport. *)
Lemma countAfterInit_value (random : nat -> Q) (k : nat) (id : PoolId) (vw vh : Z) :
  countAfterInit random k id vw vh
  = match id with
    | pool_introNodes => Z.to_nat (minDim vw vh / 18)
    | pool_dots => Z.to_nat (area vw vh / 8000)
    | _ => countAfterInit random k id 0 0
    end.
Proof.
  destruct id; cbn [countAfterInit]; rewrite ?observatoryCount_constant; try reflexivity.
  - apply (initIntroElements_lengths random k vw vh).
  - destruct (initIntroElements_lengths random k vw vh) as (_ & A & _).
    destruct (initIntroElements_lengths random k 0 0) as (_ & B & _).
    cbv zeta in A, B. rewrite A, B. reflexivity.
  - destruct (initIntroElements_lengths random k vw vh) as (_ & _ & A).
    destruct (initIntroElements_lengths random k 0 0) as (_ & _ & B).
    cbv zeta in A, B. rewrite A, B. reflexivity.
  - apply initDots_length.
Qed.

(** The number of neural edges [initParticles] generates. *)
Lemma initParticles_edges : List.length (edges (neural initParticles)) = 216%nat.
Proof. vm_compute. reflexivity. Qed.

(** C7: the number of elements of every pool after its initialisation is
    given by the density rule: the dots are one per 8000 square pixels of the
    viewport, rounded down, the orbit nodes one per 18 pixels of its smaller
    dimension, rounded down, and every other pool has a fixed size (80 sparks,
    3 rings, and 180, 300, 12, 800, 55, 216, 80, 12 and 45 elements in the
    observatory pools).  Hence the count of each pool is monotone in the
    viewport area or in the smaller viewport dimension, a viewport that is at
    least as large in both measures gets at least as many elements in every
    pool, 8000 more square pixels give strictly more dots and 18 more pixels of
    the smaller dimension strictly more orbit nodes. *)
Theorem pool_counts_monotone (random : nat -> Q) (k : nat) (id : PoolId) :
  (forall vw vh : Z,
      countAfterInit random k id vw vh
      = match id with
        | pool_dots => Z.to_nat (area vw vh / 8000)
        | pool_introNodes => Z.to_nat (minDim vw vh / 18)
        | pool_introSparks => 80
        | pool_introRings => 3
        | pool_bgStars => 180
        | pool_dust => 300
        | pool_lensRings => 12
        | pool_stars => 800
        | pool_neural_nodes => 55
        | pool_neural_edges => 216
        | pool_candles => 80
        | pool_comets => 12
        | pool_orderCols => 45
        end%nat) /\
  ((forall w1 h1 w2 h2 : Z,
       (area w1 h1 <= area w2 h2)%Z ->
       (countAfterInit random k id w1 h1 <= countAfterInit random k id w2 h2)%nat) \/
   (forall w1 h1 w2 h2 : Z,
       (minDim w1 h1 <= minDim w2 h2)%Z ->
       (countAfterInit random k id w1 h1 <= countAfterInit random k id w2 h2)%nat)) /\
  (forall w1 h1 w2 h2 : Z,
      (area w1 h1 <= area w2 h2)%Z -> (minDim w1 h1 <= minDim w2 h2)%Z ->
      (countAfterInit random k id w1 h1 <= countAfterInit random k id w2 h2)%nat) /\
  (forall w1 h1 w2 h2 : Z,
      id = pool_dots ->
      (0 <= area w1 h1)%Z -> (area w1 h1 + 8000 <= area w2 h2)%Z ->
      (countAfterInit random k id w1 h1 < countAfterInit random k id w2 h2)%nat) /\
  (forall w1 h1 w2 h2 : Z,
      id = pool_introNodes ->
      (0 <= minDim w1 h1)%Z -> (minDim w1 h1 + 18 <= minDim w2 h2)%Z ->
      (countAfterInit random k id w1 h1 < countAfterInit random k id w2 h2)%nat).
Proof.
  assert (V : forall vw vh : Z,
      countAfterInit random k id vw vh
      = match id with
        | pool_dots => Z.to_nat (area vw vh / 8000)
        | pool_introNodes => Z.to_nat (minDim vw vh / 18)
        | pool_introSparks => 80
        | pool_introRings => 3
        | pool_bgStars => 180
        | pool_dust => 300
        | pool_lensRings => 12
        | pool_stars => 800
        | pool_neural_nodes => 55
        | pool_neural_edges => 216
        | pool_candles => 80
        | pool_comets => 12
        | pool_orderCols => 45
        end%nat).
  { intros vw vh.
    destruct (genPools_lengths 42%Z) as (L1 & L2 & L3 & L4 & L5 & L6 & L7 & L8).
    destruct (initIntroElements_lengths random k vw vh) as (I1 & I2 & I3).
    destruct id; cbn [countAfterInit]; rewrite ?observatoryCount_constant.
    - exact L1.
    - exact L2.
    - exact L3.
    - exact L4.
    - exact L5.
    - exact initParticles_edges.
    - exact L6.
    - exact L7.
    - exact L8.
    - exact I1.
    - exact I2.
    - exact I3.
    - apply initDots_length. }
  assert (D : forall a b c : Z, (0 < c)%Z -> (a <= b)%Z ->
                                (Z.to_nat (a / c) <= Z.to_nat (b / c))%nat).
  { intros a b c Hc Hab.
    assert (a / c <= b / c)%Z by (apply Z.div_le_mono; assumption).
    lia. }
  assert (D' : forall a b c : Z, (0 < c)%Z -> (0 <= a)%Z -> (a + c <= b)%Z ->
                                 (Z.to_nat (a / c) < Z.to_nat (b / c))%nat).
  { intros a b c Hc Ha Hab.
    assert (X : (a / c + 1 <= b / c)%Z).
    { replace (a / c + 1)%Z with ((a + 1 * c) / c)%Z by (apply Z.div_add; lia).
      apply Z.div_le_mono; lia. }
    assert (0 <= a / c)%Z by (apply Z.div_pos; lia).
    lia. }
  assert (K : forall w1 h1 w2 h2,
             match id with
             | pool_introNodes => (minDim w1 h1 <= minDim w2 h2)%Z
             | pool_dots => (area w1 h1 <= area w2 h2)%Z
             | _ => True
             end ->
             (countAfterInit random k id w1 h1 <= countAfterInit random k id w2 h2)%nat).
  { intros w1 h1 w2 h2 H. rewrite (V w1 h1), (V w2 h2).
    destruct id; try apply Nat.le_refl; apply D; try lia; exact H. }
  split; [exact V|]. split; [|split; [|split]].
  - destruct id;
      try (left; intros w1 h1 w2 h2 H; apply K; solve [exact I | exact H]);
      right; intros w1 h1 w2 h2 H; apply K; exact H.
  - intros w1 h1 w2 h2 Ha Hm. apply K. destruct id; auto.
  - intros w1 h1 w2 h2 E H0 H1. rewrite (V w1 h1), (V w2 h2). subst id.
    apply D'; [lia | exact H0 | exact H1].
  - intros w1 h1 w2 h2 E H0 H1. rewrite (V w1 h1), (V w2 h2). subst id.
    apply D'; [lia | exact H0 | exact H1].
Qed.

Lemma pool_counts_monotone_witness :
  (area 800 600 <= area 1920 1080)%Z /\ (minDim 800 600 <= minDim 1920 1080)%Z /\
  (countAfterInit (fun _ => 1 # 2) 0 pool_dots 800 600
   <= countAfterInit (fun _ => 1 # 2) 0 pool_dots 1920 1080)%nat /\
  countAfterInit (fun _ => 1 # 2) 0 pool_dots 800 600 = 60%nat /\
  (countAfterInit (fun _ => 1 # 2) 0 pool_introNodes 800 600
   < countAfterInit (fun _ => 1 # 2) 0 pool_introNodes 1920 1080)%nat.
Proof.
  assert (A : (area 800 600 <= area 1920 1080)%Z) by (vm_compute; discriminate).
  assert (B : (minDim 800 600 <= minDim 1920 1080)%Z) by (vm_compute; discriminate).
  assert (C : (0 <= minDim 800 600)%Z) by (vm_compute; discriminate).
  assert (D : (minDim 800 600 + 18 <= minDim 1920 1080)%Z) by (vm_compute; discriminate).
  destruct (pool_counts_monotone (fun _ => 1 # 2) 0 pool_dots) as (V & _ & M & _).
  destruct (pool_counts_monotone (fun _ => 1 # 2) 0 pool_introNodes)
    as (_ & _ & _ & _ & N).
  split; [exact A|]. split; [exact B|].
  split; [exact (M 800 600 1920 1080 A B)%Z|].
  split; [exact (V 800 600)%Z | exact (N 800 600 1920 1080 eq_refl C D)%Z].
Defined.

(** C10: pool initialisation does not depend on the viewport.  Every call
    of [initParticles], from [start] or from [resize], whatever the canvas
    size and whatever the module's variables were, leaves the same pools, the
    ones generated from seed 42, identical in every field; their sizes are
    the constants 180, 300, 12, 800, 55, 80, 12 and 45. *)
Theorem initParticles_viewport_independent {P : Type}
        (s1 s2 : World P) (cw1 ch1 cw2 ch2 : Z) (f1 f2 : option (P -> P)) :
  canvas s1 = true -> canvas s2 = true ->
  pools (resize cw1 ch1 s1) = pools (resize cw2 ch2 s2) /\
  pools (resize cw1 ch1 s1) = Some (fst (genPools 42%Z)) /\
  pools (start cw1 ch1 f1 s1) = pools (resize cw2 ch2 s2) /\
  pools (start cw1 ch1 f1 s1) = pools (start cw2 ch2 f2 s2) /\
  (List.length (bgStars initParticles) = 180%nat /\
   List.length (dust initParticles) = 300%nat /\
   List.length (lensRings initParticles) = 12%nat /\
   List.length (stars initParticles) = 800%nat /\
   List.length (nodes (neural initParticles)) = 55%nat /\
   List.length (candles initParticles) = 80%nat /\
   List.length (comets initParticles) = 12%nat /\
   List.length (orderCols initParticles) = 45%nat).
Proof.
  intros C1 C2.
  assert (R : forall cw ch (s : World P), canvas s = true ->
                                     pools (resize cw ch s) = Some initParticles).
  { intros cw ch s C. unfold resize. rewrite C. reflexivity. }
  rewrite !R by assumption.
  do 4 (split; [reflexivity|]).
  unfold initParticles. exact (genPools_lengths 42%Z).
Qed.

Lemma initParticles_viewport_independent_witness :
  let s := start 800 600 (Some S) (initial 0%nat) in
  canvas s = true /\
  pools (resize 1920 1080 s) = pools (resize 0 0 (render othersRaise 1000 s)).
Proof.
  intro s.
  assert (C1 : canvas s = true) by reflexivity.
  assert (C2 : canvas (render othersRaise 1000 s) = true) by reflexivity.
  split; [exact C1|].
  exact (proj1 (initParticles_viewport_independent s (render othersRaise 1000 s)
                  1920 1080 0 0 None None C1 C2))%Z.
Defined.

Lemma seededRng_deterministic_witness :
  let h2 := snd (Rng.seededRng 42 (snd (Rng.seededRng 42 (Rng.Build_heap (fun _ => 0%Z) 0)))) in
  let out1 := Rng.outputs_of 0 [0; 1; 1; 0]%nat h2 in
  let out2 := Rng.outputs_of 1 [0; 1; 1; 0]%nat h2 in
  nth_error out1 1 = Some (nth 1 out1 0) /\
  nth_error out2 1 = Some (nth 1 out2 0) /\
  nth 1 out1 0 = nth 1 out2 0.
Proof.
  intros h2 out1 out2.
  assert (Hx : nth_error out1 1 = Some (nth 1 out1 0)) by (vm_compute; reflexivity).
  assert (Hy : nth_error out2 1 = Some (nth 1 out2 0)) by (vm_compute; reflexivity).
  split; [exact Hx|]. split; [exact Hy|].
  pose proof (seededRng_deterministic 42 (Rng.Build_heap (fun _ => 0%Z) 0) [0; 1; 1; 0]%nat)
    as H.
  cbn [Rng.seededRng Rng.fresh] in H.
  destruct H as (_ & _ & _ & H).
  exact (proj1 (H 1%nat _ _ Hx Hy)).
Defined.

(** ** Renderers and the degenerate viewport *)

Lemma dbind_emit4 {B : Type} (c1 c2 c3 c4 : Cmd) (k : Draw B) :
  dbind (emit c1) (fun _ => dbind (emit c2) (fun _ =>
    dbind (emit c3) (fun _ => dbind (emit c4) (fun _ => k))))
  = (c1 :: c2 :: c3 :: c4 :: fst k, snd k).
Proof. unfold dbind, emit. destruct k. reflexivity. Qed.

Lemma rem_by_zero (x : Q) : JsMath.rem x (inject_Z 0) = None.
Proof. reflexivity. Qed.

(** C9 (counterexample): on a canvas of width 0 and height 0, the approach
    renderer called at the middle of its window (elapsed 4500) makes ten
    calls on the context and then ends by the IndexSizeError that
    [createRadialGradient] raises for the radius [radius - 4 = -4]; on a
    canvas of width 0 and height 600 it does so at elapsed 9.  It neither
    paints nothing nor returns normally. *)
Lemma drawApproach_zero_viewport_raises :
  snd (drawApproach 0 0 (localT 4500 (fn_drawApproach, 0, 9000)) 4500)
  = inr IndexSizeError /\
  List.length (fst (drawApproach 0 0 (localT 4500 (fn_drawApproach, 0, 9000)) 4500))
  = 10%nat /\
  snd (drawApproach 0 600 (localT 9 (fn_drawApproach, 0, 9000)) 9) = inr IndexSizeError /\
  ~ (forall (w h : Z) (t elapsed : Q),
        (w = 0 \/ h = 0)%Z -> drawApproach w h t elapsed = ([], inl tt)).
Proof.
  assert (A : snd (drawApproach 0 0 (localT 4500 (fn_drawApproach, 0, 9000)) 4500)
              = inr IndexSizeError) by (vm_compute; reflexivity).
  split; [exact A|].
  split; [vm_compute; reflexivity|].
  split; [vm_compute; reflexivity|].
  intro H.
  rewrite (H 0%Z 0%Z (localT 4500 (fn_drawApproach, 0, 9000)) 4500 (or_introl eq_refl)) in A.
  discriminate A.
Qed.

(** C9 (amended): the renderers have no guard on the viewport.  The
    approach renderer makes no call on the context exactly when its fade
    envelope is not positive, whatever the viewport; when the envelope is
    positive it starts drawing with the dimensions as they are, also when
    one of them is 0.  The remainders by [w] and [h] of the dust loop are
    taken unguarded: for a dimension 0 they are NaN. *)
Theorem drawApproach_paints_by_envelope_only :
  (forall (w h : Z) (t elapsed : Q),
      approachAlpha t <= 0 -> drawApproach w h t elapsed = ([], inl tt)) /\
  (forall (w h : Z) (t elapsed : Q),
      0 < approachAlpha t ->
      exists rest res,
        drawApproach w h t elapsed
        = (C_save :: C_globalAlpha (approachAlpha t)
                  :: C_fillStyle (Color "#0a0c18"%string)
                  :: C_fillRect 0 0 (inject_Z w) (inject_Z h) :: rest, res)) /\
  (forall (p : Dust) (elapsed : Q),
      dustPx p 0 elapsed = None /\ dustPy p 0 elapsed = None).
Proof.
  split; [|split].
  - intros w h t elapsed Ha. unfold drawApproach. cbv zeta.
    apply Qleb_le in Ha. unfold approachAlpha in Ha. rewrite Ha. reflexivity.
  - intros w h t elapsed Ha. unfold drawApproach. cbv zeta.
    apply Qleb_gt in Ha. unfold approachAlpha in Ha |- *. rewrite Ha.
    eexists. eexists. apply dbind_emit4.
  - intros p elapsed. unfold dustPx, dustPy. rewrite !rem_by_zero. split; reflexivity.
Qed.

Lemma drawApproach_paints_by_envelope_only_witness :
  approachAlpha 0 <= 0 /\ drawApproach 0 600 0 0 = ([], inl tt).
Proof.
  assert (A : approachAlpha 0 <= 0) by (vm_compute; discriminate).
  split; [exact A|].
  exact (proj1 drawApproach_paints_by_envelope_only 0%Z 600%Z 0 0 A).
Defined.

(** * Further properties of the code

    The utilities, the zoom, the fade envelopes and phase windows, the
    generator and the pools it fills, the frames of the page's canvases, the
    page's skip handling, and [stop], [resize] and repeated [start] of the
    controller. *)

(** ** Utilities and zoom *)

Lemma clamp_mono v v' lo hi : v <= v' -> clamp v lo hi <= clamp v' lo hi.
Proof.
  intro H. unfold clamp, Math_max, Math_min.
  apply Q.max_le_compat_l. apply Q.min_le_compat_l. exact H.
Qed.

Lemma clamp_inside v lo hi : lo <= v -> v <= hi -> clamp v lo hi == v.
Proof.
  intros A B. unfold clamp, Math_max, Math_min.
  rewrite (Q.min_r hi v B). apply Q.max_r. exact A.
Qed.

Lemma clamp_below v lo hi : lo <= hi -> v <= lo -> clamp v lo hi == lo.
Proof.
  intros A B. unfold clamp, Math_max, Math_min.
  apply Q.max_l. apply Q.min_le_iff. right. exact B.
Qed.

Lemma clamp_above v lo hi : lo <= hi -> hi <= v -> clamp v lo hi == hi.
Proof.
  intros A B. unfold clamp, Math_max, Math_min.
  rewrite (Q.min_l hi v B). apply Q.max_r. exact A.
Qed.

Lemma clamp_inverted v lo hi : hi < lo -> clamp v lo hi == lo.
Proof.
  intro A. unfold clamp, Math_max, Math_min.
  apply Q.max_l. apply Q.min_le_iff. left. lra.
Qed.

(** X1: [clamp(v, lo, hi)] with [lo <= hi] lies in [lo, hi], is [v] itself
    when [v] is in the interval, [lo] below it and [hi] above it, and is
    idempotent; with the bounds inverted, [hi < lo], it is [lo] whatever [v]
    is. *)
Theorem clamp_saturates (v lo hi : Q) :
  (lo <= hi ->
   (lo <= clamp v lo hi /\ clamp v lo hi <= hi) /\
   (lo <= v -> v <= hi -> clamp v lo hi == v) /\
   (v <= lo -> clamp v lo hi == lo) /\
   (hi <= v -> clamp v lo hi == hi) /\
   clamp (clamp v lo hi) lo hi == clamp v lo hi) /\
  (hi < lo -> clamp v lo hi == lo).
Proof.
  split.
  - intro H. pose proof (clamp_bounds v lo hi H) as [A B].
    split; [split; assumption|].
    split; [apply clamp_inside|].
    split; [apply clamp_below; exact H|].
    split; [apply clamp_above; exact H|].
    apply clamp_inside; assumption.
  - apply clamp_inverted.
Qed.

Lemma clamp_saturates_witness :
  clamp 5 0 1 == 1 /\ clamp (-(3)) 0 1 == 0 /\ clamp 5 1 0 == 1.
Proof.
  assert (L : 0 <= 1) by lra.
  destruct (clamp_saturates 5 0 1) as [A _].
  destruct (clamp_saturates (-(3)) 0 1) as [B _].
  destruct (clamp_saturates 5 1 0) as [_ C].
  destruct (A L) as (_ & _ & _ & A4 & _).
  destruct (B L) as (_ & _ & B3 & _).
  split; [apply A4; lra | split; [apply B3; lra | apply C; lra]].
Defined.

Lemma cubic_range (c : Q) : 0 <= c -> c <= 1 -> 0 <= c * c * (3 - 2 * c) /\ c * c * (3 - 2 * c) <= 1.
Proof.
  intros A B. split.
  - apply Qmult_le_0_compat; [apply Qmult_le_0_compat; assumption | lra].
  - assert (H : 0 <= (1 - c) * (1 - c) * (1 + 2 * c)).
    { apply Qmult_le_0_compat; [apply Qmult_le_0_compat; lra | lra]. }
    assert (E : (1 - c) * (1 - c) * (1 + 2 * c) == 1 - c * c * (3 - 2 * c)) by ring.
    rewrite E in H. lra.
Qed.

Lemma cubic_mono (c d : Q) :
  0 <= c -> c <= d -> d <= 1 -> c * c * (3 - 2 * c) <= d * d * (3 - 2 * d).
Proof.
  intros A B C.
  assert (E : d * d * (3 - 2 * d) - c * c * (3 - 2 * c)
              == (d - c) * (c * (1 - c) * 2 + d * (1 - d) * 2 + (c * (1 - d) + d * (1 - c)) + c + d - c - d + 0)).
  { ring. }
  assert (H : 0 <= (d - c) * (c * (1 - c) * 2 + d * (1 - d) * 2 + (c * (1 - d) + d * (1 - c)) + c + d - c - d + 0)).
  { apply Qmult_le_0_compat; [lra|].
    assert (0 <= c * (1 - c)) by (apply Qmult_le_0_compat; lra).
    assert (0 <= d * (1 - d)) by (apply Qmult_le_0_compat; lra).
    assert (0 <= c * (1 - d)) by (apply Qmult_le_0_compat; lra).
    assert (0 <= d * (1 - c)) by (apply Qmult_le_0_compat; lra).
    lra. }
  rewrite <- E in H. lra.
Qed.

Lemma smoothstep_unfold e0 e1 x :
  smoothstep e0 e1 x
  = clamp ((x - e0) / (e1 - e0)) 0 1 * clamp ((x - e0) / (e1 - e0)) 0 1
    * (3 - 2 * clamp ((x - e0) / (e1 - e0)) 0 1).
Proof. reflexivity. Qed.

Lemma clamp01 v : 0 <= clamp v 0 1 /\ clamp v 0 1 <= 1.
Proof. apply clamp_bounds. lra. Qed.

Lemma smoothstep_facts (e0 e1 x x' : Q) :
  e0 < e1 ->
  (0 <= smoothstep e0 e1 x /\ smoothstep e0 e1 x <= 1) /\
  (x <= e0 -> smoothstep e0 e1 x == 0) /\
  (e1 <= x -> smoothstep e0 e1 x == 1) /\
  (x <= x' -> smoothstep e0 e1 x <= smoothstep e0 e1 x') /\
  (0 < smoothstep e0 e1 x <-> e0 < x) /\
  (smoothstep e0 e1 x < 1 <-> x < e1).
Proof.
  intro H.
  assert (D : 0 < e1 - e0) by lra.
  rewrite !smoothstep_unfold.
  set (u := (x - e0) / (e1 - e0)).
  set (u' := (x' - e0) / (e1 - e0)).
  destruct (clamp01 u) as [A B].
  assert (Upos : 0 < u <-> e0 < x).
  { unfold u. split; intro K.
    - apply Qnot_le_lt. intro L.
      assert (u <= 0) by (unfold u; apply Qle_shift_div_r; [exact D | lra]).
      unfold u in H0. lra.
    - apply Qlt_shift_div_l; [exact D | lra]. }
  assert (Ult : u < 1 <-> x < e1).
  { unfold u. split; intro K.
    - apply Qnot_le_lt. intro L.
      assert (1 <= u) by (unfold u; apply Qle_shift_div_l; [exact D | lra]).
      unfold u in H0. lra.
    - apply Qlt_shift_div_r; [exact D | lra]. }
  split; [apply cubic_range; assumption|].
  split; [|split; [|split; [|split]]].
  - intro K.
    assert (U : u <= 0) by (unfold u; apply Qle_shift_div_r; [exact D | lra]).
    rewrite (clamp_below u 0 1) by lra. ring.
  - intro K.
    assert (U : 1 <= u) by (unfold u; apply Qle_shift_div_l; [exact D | lra]).
    rewrite (clamp_above u 0 1) by lra. ring.
  - intro K.
    assert (U : u <= u').
    { unfold u, u'. apply Qmult_le_compat_r; [lra|].
      apply Qlt_le_weak. apply Qinv_lt_0_compat. exact D. }
    destruct (clamp01 u') as [A' B'].
    apply cubic_mono; [exact A | apply clamp_mono; exact U | exact B'].
  - rewrite <- Upos. split; intro K.
    + apply Qnot_le_lt. intro L.
      rewrite (clamp_below u 0 1) in K by lra. lra.
    + assert (C : 0 < clamp u 0 1).
      { destruct (Qlt_le_dec u 1) as [L|L].
        - rewrite (clamp_inside u 0 1) by lra. exact K.
        - rewrite (clamp_above u 0 1) by lra. lra. }
      apply Qmult_lt_0_compat; [apply Qmult_lt_0_compat; assumption | lra].
  - rewrite <- Ult. split; intro K.
    + apply Qnot_le_lt. intro L.
      rewrite (clamp_above u 0 1) in K by lra. lra.
    + assert (C : clamp u 0 1 < 1).
      { destruct (Qlt_le_dec 0 u) as [L|L].
        - rewrite (clamp_inside u 0 1) by lra. exact K.
        - rewrite (clamp_below u 0 1) by lra. lra. }
      set (c := clamp u 0 1) in *.
      assert (P : 0 < (1 - c) * (1 - c) * (1 + 2 * c)).
      { apply Qmult_lt_0_compat; [apply Qmult_lt_0_compat; lra | lra]. }
      assert (E : (1 - c) * (1 - c) * (1 + 2 * c) == 1 - c * c * (3 - 2 * c)) by ring.
      rewrite E in P. lra.
Qed.

Lemma square_mono (u c : Q) : 0 <= u -> u <= c -> u * u <= c * c.
Proof.
  intros A B.
  assert (P1 : 0 <= (c - u) * c) by (apply Qmult_le_0_compat; lra).
  assert (P2 : 0 <= u * (c - u)) by (apply Qmult_le_0_compat; lra).
  assert (E1 : (c - u) * c == c * c - u * c) by ring.
  assert (E2 : u * (c - u) == u * c - u * u) by ring.
  lra.
Qed.

(** Inside the window the curve lies between two parabolas. *)
Lemma smoothstep_inside (e0 e1 x : Q) :
  e0 < e1 -> e0 <= x -> x <= e1 ->
  let c := (x - e0) / (e1 - e0) in
  (0 <= c /\ c <= 1) /\
  c * c <= smoothstep e0 e1 x /\
  smoothstep e0 e1 x <= 1 - (1 - c) * (1 - c).
Proof.
  intros H A B c.
  assert (C0 : 0 <= c) by (apply Qle_shift_div_l; lra).
  assert (C1 : c <= 1) by (apply Qle_shift_div_r; lra).
  split; [split; assumption|].
  rewrite smoothstep_unfold. fold c.
  rewrite (clamp_inside c 0 1 C0 C1).
  assert (S0 : 0 <= c * c) by (apply Qmult_le_0_compat; assumption).
  assert (P1 : 0 <= c * c * (2 - 2 * c)) by (apply Qmult_le_0_compat; lra).
  assert (S1 : 0 <= (1 - c) * (1 - c)) by (apply Qmult_le_0_compat; lra).
  assert (P2 : 0 <= 2 * c * ((1 - c) * (1 - c))).
  { apply Qmult_le_0_compat; [lra | exact S1]. }
  assert (E1 : c * c * (2 - 2 * c) == c * c * (3 - 2 * c) - c * c) by ring.
  assert (E2 : 2 * c * ((1 - c) * (1 - c))
               == 1 - (1 - c) * (1 - c) - c * c * (3 - 2 * c)) by ring.
  split; lra.
Qed.

(** X2: for [e0 < e1], [smoothstep(e0, e1, x)] lies in [0, 1], is 0 up to
    [e0] and 1 from [e1] on, and does not decrease with [x]; inside the
    window, with [c = (x - e0) / (e1 - e0)], it lies between [c * c] and
    [1 - (1 - c) * (1 - c)]: it leaves 0 and approaches 1 quadratically. *)
Theorem smoothstep_shape (e0 e1 x x' : Q) :
  e0 < e1 ->
  (0 <= smoothstep e0 e1 x /\ smoothstep e0 e1 x <= 1) /\
  (x <= e0 -> smoothstep e0 e1 x == 0) /\
  (e1 <= x -> smoothstep e0 e1 x == 1) /\
  (x <= x' -> smoothstep e0 e1 x <= smoothstep e0 e1 x') /\
  (e0 <= x -> x <= e1 ->
   ((x - e0) / (e1 - e0)) * ((x - e0) / (e1 - e0)) <= smoothstep e0 e1 x /\
   smoothstep e0 e1 x
   <= 1 - (1 - (x - e0) / (e1 - e0)) * (1 - (x - e0) / (e1 - e0))).
Proof.
  intro H.
  destruct (smoothstep_facts e0 e1 x x' H) as (R & Z0 & Z1 & M & _).
  split; [exact R|]. split; [exact Z0|]. split; [exact Z1|]. split; [exact M|].
  intros A B. exact (proj2 (smoothstep_inside e0 e1 x H A B)).
Qed.

Lemma smoothstep_shape_witness :
  0 < 1 # 10 /\ smoothstep 0 (1 # 10) (1 # 20) <= smoothstep 0 (1 # 10) (1 # 15) /\
  (1 # 4) <= smoothstep 0 (1 # 10) (1 # 20).
Proof.
  assert (L : 0 < 1 # 10) by reflexivity.
  split; [exact L|].
  destruct (smoothstep_shape 0 (1 # 10) (1 # 20) (1 # 15) L) as (_ & _ & _ & M & B).
  split; [apply M; lra|].
  assert (A1 : 0 <= 1 # 20) by lra.
  assert (A2 : 1 # 20 <= 1 # 10) by lra.
  destruct (B A1 A2) as [B1 _].
  assert (E : (1 # 4) == (((1 # 20) - 0) / ((1 # 10) - 0)) * (((1 # 20) - 0) / ((1 # 10) - 0)))
    by reflexivity.
  rewrite E. exact B1.
Defined.

Lemma easeInOut_low t : t < 1 # 2 -> easeInOut t = 2 * t * t.
Proof. intro H. unfold easeInOut. apply Qltb_lt in H. rewrite H. reflexivity. Qed.

Lemma easeInOut_high t :
  1 # 2 <= t -> easeInOut t = 1 - ((-(2) * t + 2) * (-(2) * t + 2)) / 2.
Proof. intro H. unfold easeInOut. apply Qltb_ge in H. rewrite H. reflexivity. Qed.

Lemma easeInOut_range t : 0 <= t -> t <= 1 -> 0 <= easeInOut t /\ easeInOut t <= 1.
Proof.
  intros A B. destruct (Qlt_le_dec t (1 # 2)) as [L|L].
  - rewrite (easeInOut_low t L).
    assert (0 <= t * t) by (apply Qmult_le_0_compat; assumption).
    assert (0 <= ((1 # 2) - t) * ((1 # 2) + t)) by (apply Qmult_le_0_compat; lra).
    assert (((1 # 2) - t) * ((1 # 2) + t) == (1 # 4) - t * t) by ring.
    split; lra.
  - rewrite (easeInOut_high t L).
    assert (0 <= (1 - t) * (1 - t)) by (apply Qmult_le_0_compat; lra).
    assert (0 <= (t - (1 # 2)) * ((3 # 2) - t)) by (apply Qmult_le_0_compat; lra).
    assert (E1 : (-(2) * t + 2) * (-(2) * t + 2) / 2 == 2 * ((1 - t) * (1 - t))) by field.
    assert (E2 : (t - (1 # 2)) * ((3 # 2) - t) == (1 # 4) - (1 - t) * (1 - t)) by ring.
    rewrite E1. split; lra.
Qed.

Lemma easeInOut_mono t t' :
  0 <= t -> t <= t' -> t' <= 1 -> easeInOut t <= easeInOut t'.
Proof.
  intros A B C.
  assert (Sq : forall a b, 0 <= a -> a <= b -> a * a <= b * b).
  { intros a b Ha Hb.
    assert (0 <= (b - a) * (b + a)) by (apply Qmult_le_0_compat; lra).
    assert ((b - a) * (b + a) == b * b - a * a) by ring. lra. }
  destruct (Qlt_le_dec t (1 # 2)) as [L|L], (Qlt_le_dec t' (1 # 2)) as [L'|L'].
  - rewrite (easeInOut_low t L), (easeInOut_low t' L').
    pose proof (Sq t t' A B). lra.
  - rewrite (easeInOut_low t L), (easeInOut_high t' L').
    assert (E1 : (-(2) * t' + 2) * (-(2) * t' + 2) / 2 == 2 * ((1 - t') * (1 - t'))) by field.
    rewrite E1.
    pose proof (Sq t (1 # 2) A (Qlt_le_weak _ _ L)).
    assert ((1 - t') * (1 - t') <= (1 # 2) * (1 # 2)) by (apply Sq; lra).
    lra.
  - lra.
  - rewrite (easeInOut_high t L), (easeInOut_high t' L').
    assert (E1 : (-(2) * t' + 2) * (-(2) * t' + 2) / 2 == 2 * ((1 - t') * (1 - t'))) by field.
    assert (E2 : (-(2) * t + 2) * (-(2) * t + 2) / 2 == 2 * ((1 - t) * (1 - t))) by field.
    rewrite E1, E2.
    assert ((1 - t') * (1 - t') <= (1 - t) * (1 - t)) by (apply Sq; lra).
    lra.
Qed.

(** X3: [easeInOut] maps 0, 1/2 and 1 to themselves, is symmetric about
    the centre, [easeInOut(1 - t) = 1 - easeInOut(t)], and on [0, 1] stays
    in [0, 1] and does not decrease: the two branches meet at 1/2. *)
Theorem easeInOut_shape (t t' : Q) :
  easeInOut 0 == 0 /\ easeInOut (1 # 2) == 1 # 2 /\ easeInOut 1 == 1 /\
  easeInOut (1 - t) == 1 - easeInOut t /\
  (0 <= t -> t <= 1 -> 0 <= easeInOut t /\ easeInOut t <= 1) /\
  (0 <= t -> t <= t' -> t' <= 1 -> easeInOut t <= easeInOut t').
Proof.
  split; [reflexivity|]. split; [reflexivity|]. split; [reflexivity|].
  split; [|split; [apply easeInOut_range | apply easeInOut_mono]].
  destruct (Qlt_le_dec t (1 # 2)) as [L|L].
  - rewrite (easeInOut_low t L), (easeInOut_high (1 - t)) by lra. field.
  - rewrite (easeInOut_high t L).
    destruct (Qlt_le_dec (1 - t) (1 # 2)) as [L'|L'].
    + rewrite (easeInOut_low (1 - t) L'). field.
    + rewrite (easeInOut_high (1 - t) L').
      assert (E : t == 1 # 2) by lra. rewrite E. reflexivity.
Qed.

Lemma easeInOut_shape_witness : easeInOut (1 # 4) <= easeInOut (3 # 4).
Proof.
  destruct (easeInOut_shape (1 # 4) (3 # 4)) as (_ & _ & _ & _ & _ & M).
  apply M; lra.
Defined.

Lemma cube_mono a b : 0 <= a -> a <= b -> a * a * a <= b * b * b.
Proof.
  intros A B.
  assert (0 <= (b - a) * (a * a + a * b + b * b)).
  { apply Qmult_le_0_compat; [lra|].
    assert (0 <= a * a) by (apply Qmult_le_0_compat; lra).
    assert (0 <= a * b) by (apply Qmult_le_0_compat; lra).
    assert (0 <= b * b) by (apply Qmult_le_0_compat; lra). lra. }
  assert ((b - a) * (a * a + a * b + b * b) == b * b * b - a * a * a) by ring.
  lra.
Qed.

Lemma easeIn_easeOut_facts (t t' : Q) :
  easeIn 0 == 0 /\ easeIn 1 == 1 /\ easeOut 0 == 0 /\ easeOut 1 == 1 /\
  easeOut t == 1 - easeIn (1 - t) /\
  (0 <= t -> t <= t' ->
   easeIn t <= easeIn t' /\ (t' <= 1 -> easeOut t <= easeOut t')) /\
  (0 <= t -> t <= 1 ->
   (0 <= easeIn t /\ easeIn t <= t) /\ (t <= easeOut t /\ easeOut t <= 1)).
Proof.
  split; [reflexivity|]. split; [reflexivity|]. split; [reflexivity|].
  split; [reflexivity|]. split; [reflexivity|].
  split.
  - intros A B. split; [apply cube_mono; assumption|].
    intro C. unfold easeOut.
    pose proof (cube_mono (1 - t') (1 - t)). lra.
  - intros A B. unfold easeIn, easeOut.
    assert (Z0 : 0 <= t * t * t) by (pose proof (cube_mono 0 t); lra).
    assert (Z1 : 0 <= (1 - t) * (1 - t) * (1 - t)) by (pose proof (cube_mono 0 (1 - t)); lra).
    assert (Z2 : 0 <= t * (1 - t) * (1 + t)).
    { apply Qmult_le_0_compat; [apply Qmult_le_0_compat; lra | lra]. }
    assert (E2 : t * (1 - t) * (1 + t) == t - t * t * t) by ring.
    assert (Z3 : 0 <= (1 - t) * t * (2 - t)).
    { apply Qmult_le_0_compat; [apply Qmult_le_0_compat; lra | lra]. }
    assert (E3 : (1 - t) * t * (2 - t) == (1 - t) - (1 - t) * (1 - t) * (1 - t)) by ring.
    repeat split; lra.
Qed.

(** X4: [easeIn] and [easeOut] fix 0 and 1 and mirror each other,
    [easeOut(t) = 1 - easeIn(1 - t)]; from 0 on [easeIn] does not decrease,
    and neither does [easeOut] up to 1; on [0, 1] [easeIn] stays below the
    identity and [easeOut] above it. *)
Theorem easeIn_easeOut_shape (t t' : Q) :
  easeIn 0 == 0 /\ easeIn 1 == 1 /\ easeOut 0 == 0 /\ easeOut 1 == 1 /\
  easeOut t == 1 - easeIn (1 - t) /\
  (0 <= t -> t <= t' ->
   easeIn t <= easeIn t' /\ (t' <= 1 -> easeOut t <= easeOut t')) /\
  (0 <= t -> t <= 1 ->
   (0 <= easeIn t /\ easeIn t <= t) /\ (t <= easeOut t /\ easeOut t <= 1)).
Proof.
  exact (easeIn_easeOut_facts t t').
Qed.

Lemma easeIn_easeOut_shape_witness :
  easeIn (1 # 4) <= easeIn (3 # 4) /\ easeOut (1 # 4) <= easeOut (3 # 4).
Proof.
  destruct (easeIn_easeOut_shape (1 # 4) (3 # 4)) as (_ & _ & _ & _ & _ & M & _).
  assert (A : 0 <= 1 # 4) by lra.
  assert (B : 1 # 4 <= 3 # 4) by lra.
  destruct (M A B) as [I O]. split; [exact I | apply O; lra].
Defined.

Lemma getZoom_first e :
  e / DURATION < 28 # 100 -> getZoom e = 1 + easeIn (e / DURATION / (28 # 100)) * 14.
Proof. intro H. unfold getZoom. cbv zeta. apply Qltb_lt in H. rewrite H. reflexivity. Qed.

Lemma getZoom_second e :
  28 # 100 <= e / DURATION -> e / DURATION < 45 # 100 ->
  getZoom e = 15 + easeInOut ((e / DURATION - (28 # 100)) / (17 # 100)) * 985.
Proof.
  intros H1 H2. unfold getZoom. cbv zeta.
  apply Qltb_ge in H1. apply Qltb_lt in H2. rewrite H1, H2. reflexivity.
Qed.

Lemma getZoom_third e : 45 # 100 <= e / DURATION -> getZoom e = 1000.
Proof.
  intros H. unfold getZoom. cbv zeta.
  assert (H1 : 28 # 100 <= e / DURATION) by lra.
  apply Qltb_ge in H1. apply Qltb_ge in H. rewrite H1, H. reflexivity.
Qed.

Lemma div_DURATION e : e / DURATION == e * (1 # 32000).
Proof. unfold DURATION. field. Qed.

Lemma getZoom_pieces e :
  0 <= e ->
  (e / DURATION < 28 # 100 /\ 1 <= getZoom e /\ getZoom e <= 15) \/
  (28 # 100 <= e / DURATION /\ 15 <= getZoom e /\ getZoom e <= 1000).
Proof.
  intro A. pose proof (div_DURATION e) as D.
  destruct (Qlt_le_dec (e / DURATION) (28 # 100)) as [L|L].
  - left. split; [exact L|]. rewrite (getZoom_first e L).
    set (u := e / DURATION / (28 # 100)).
    assert (U : u == e / DURATION * (100 # 28)) by (unfold u, DURATION; field).
    destruct (easeIn_easeOut_facts u u) as (_ & _ & _ & _ & _ & _ & R).
    assert (U0 : 0 <= u) by lra. assert (U1 : u <= 1) by lra.
    destruct (R U0 U1) as [[R1 R2] _]. split; lra.
  - right. split; [exact L|].
    destruct (Qlt_le_dec (e / DURATION) (45 # 100)) as [L'|L'].
    + rewrite (getZoom_second e L L').
      set (u := (e / DURATION - (28 # 100)) / (17 # 100)).
      assert (U : u == (e / DURATION - (28 # 100)) * (100 # 17)) by (unfold u, DURATION; field).
      destruct (easeInOut_range u); lra.
    + rewrite (getZoom_third e L'). split; lra.
Qed.

(** X5: [getZoom] starts at 1, reaches 15 where its second branch begins
    (28 percent of the duration, 8960 ms), is 1000 from 45 percent of the
    duration on (14400 ms), and for a non-negative elapsed time stays in
    [1, 1000] and never decreases: the three branches join without a step
    backwards. *)
Theorem getZoom_shape (e e' : Q) :
  getZoom 0 == 1 /\ getZoom 8960 == 15 /\
  (14400 <= e -> getZoom e = 1000) /\
  (0 <= e -> 1 <= getZoom e /\ getZoom e <= 1000) /\
  (0 <= e -> e <= e' -> getZoom e <= getZoom e').
Proof.
  split; [reflexivity|]. split; [reflexivity|].
  split; [|split].
  - intro H. apply getZoom_third. pose proof (div_DURATION e). lra.
  - intro A. destruct (getZoom_pieces e A) as [(_ & X & Y)|(_ & X & Y)]; split; lra.
  - intros A B.
    assert (A' : 0 <= e') by lra.
    pose proof (div_DURATION e) as D. pose proof (div_DURATION e') as D'.
    destruct (Qlt_le_dec (e' / DURATION) (28 # 100)) as [L'|L'].
    + assert (L : e / DURATION < 28 # 100) by lra.
      rewrite (getZoom_first e L), (getZoom_first e' L').
      set (u := e / DURATION / (28 # 100)). set (u' := e' / DURATION / (28 # 100)).
      assert (U : u == e / DURATION * (100 # 28)) by (unfold u, DURATION; field).
      assert (U' : u' == e' / DURATION * (100 # 28)) by (unfold u', DURATION; field).
      destruct (easeIn_easeOut_facts u u') as (_ & _ & _ & _ & _ & M & _).
      assert (U0 : 0 <= u) by lra. assert (U1 : u <= u') by lra.
      destruct (M U0 U1) as [M1 _]. lra.
    + destruct (Qlt_le_dec (e / DURATION) (28 # 100)) as [L|L].
      * destruct (getZoom_pieces e A) as [(_ & X & Y)|(Z & _)]; [|lra].
        destruct (getZoom_pieces e' A') as [(Z & _)|(_ & X' & Y')]; lra.
      * destruct (Qlt_le_dec (e' / DURATION) (45 # 100)) as [K'|K'].
        -- assert (K : e / DURATION < 45 # 100) by lra.
           rewrite (getZoom_second e L K), (getZoom_second e' L' K').
           set (u := (e / DURATION - (28 # 100)) / (17 # 100)).
           set (u' := (e' / DURATION - (28 # 100)) / (17 # 100)).
           assert (U : u == (e / DURATION - (28 # 100)) * (100 # 17)) by (unfold u, DURATION; field).
           assert (U' : u' == (e' / DURATION - (28 # 100)) * (100 # 17)) by (unfold u', DURATION; field).
           pose proof (easeInOut_mono u u'). lra.
        -- rewrite (getZoom_third e' K').
           destruct (getZoom_pieces e A) as [(_ & X & Y)|(_ & X & Y)]; lra.
Qed.

Lemma getZoom_shape_witness :
  getZoom 16000 = 1000 /\ getZoom 4000 <= getZoom 12000.
Proof.
  destruct (getZoom_shape 16000 16000) as (_ & _ & T & _).
  destruct (getZoom_shape 4000 12000) as (_ & _ & _ & _ & M).
  split; [apply T; lra | apply M; lra].
Defined.

(** ** Fade envelopes and phase windows *)

Lemma envelope_form (fn : Renderer) (t : Q) :
  exists k_in k_out,
    0 < k_in /\ k_in <= 2 # 10 /\ 85 # 100 <= k_out /\ k_out < 1 /\
    envelope fn t = smoothstep 0 k_in t * (1 - smoothstep k_out 1 t).
Proof.
  destruct fn; cbn [envelope]; eexists; eexists;
    (split; [|split; [|split; [|split; [|reflexivity]]]]); reflexivity || discriminate.
Qed.

Lemma envelope_range (fn : Renderer) (t : Q) :
  (0 <= envelope fn t /\ envelope fn t <= 1) /\
  (t <= 0 -> envelope fn t == 0) /\
  (1 <= t -> envelope fn t == 0).
Proof.
  destruct (envelope_form fn t) as (ki & ko & Hi & _ & _ & Ho & E).
  rewrite E.
  destruct (smoothstep_facts 0 ki t t Hi) as ((A1 & A2) & A3 & _).
  destruct (smoothstep_facts ko 1 t t Ho) as ((B1 & B2) & _ & B4 & _).
  set (a := smoothstep 0 ki t) in *. set (b := smoothstep ko 1 t) in *.
  split; [|split].
  - split.
    + apply Qmult_le_0_compat; lra.
    + assert (0 <= (1 - a) * (1 - b)) by (apply Qmult_le_0_compat; lra).
      assert (0 <= a * b) by (apply Qmult_le_0_compat; lra).
      assert ((1 - a) * (1 - b) == 1 - a - b + a * b) by ring.
      assert (a * (1 - b) == a - a * b) by ring. lra.
  - intro K. rewrite (A3 K). ring.
  - intro K. rewrite (B4 K). ring.
Qed.

(** Away from the ends of the window by a thousandth or more, the envelope
    is a billionth at least. *)
Lemma envelope_margin (fn : Renderer) (t : Q) :
  1 # 1000 <= t -> t <= 999 # 1000 -> 1 # 1000000000 <= envelope fn t.
Proof.
  intros T0 T1.
  destruct (envelope_form fn t) as (ki & ko & Hi & Hi2 & Ho2 & Ho & E).
  rewrite E.
  assert (A : 1 # 40000 <= smoothstep 0 ki t).
  { destruct (Qlt_le_dec t ki) as [L|L].
    - destruct (smoothstep_inside 0 ki t Hi ltac:(lra) ltac:(lra)) as (_ & B & _).
      assert (C : 1 # 200 <= (t - 0) / (ki - 0)) by (apply Qle_shift_div_l; lra).
      pose proof (square_mono (1 # 200) ((t - 0) / (ki - 0)) ltac:(lra) C) as S.
      assert (X : (1 # 200) * (1 # 200) == 1 # 40000) by reflexivity.
      lra.
    - destruct (smoothstep_facts 0 ki t t Hi) as (_ & _ & Z1 & _).
      rewrite (Z1 L). lra. }
  assert (B : 1 # 22500 <= 1 - smoothstep ko 1 t).
  { destruct (Qlt_le_dec ko t) as [L|L].
    - destruct (smoothstep_inside ko 1 t Ho ltac:(lra) ltac:(lra)) as ((C0 & C1) & _ & B).
      set (c := (t - ko) / (1 - ko)) in *.
      assert (C : 1 # 150 <= 1 - c).
      { assert (c <= 1 - (1 # 150)); [|lra].
        unfold c. apply Qle_shift_div_r; lra. }
      pose proof (square_mono (1 # 150) (1 - c) ltac:(lra) C) as S.
      assert (X : (1 # 150) * (1 # 150) == 1 # 22500) by reflexivity.
      lra.
    - destruct (smoothstep_facts ko 1 t t Ho) as (_ & Z0 & _).
      rewrite (Z0 L). lra. }
  set (a := smoothstep 0 ki t) in *. set (b := 1 - smoothstep ko 1 t) in *.
  assert (P1 : 0 <= (a - (1 # 40000)) * b) by (apply Qmult_le_0_compat; lra).
  assert (P2 : 0 <= (1 # 40000) * (b - (1 # 22500))) by (apply Qmult_le_0_compat; lra).
  assert (E1 : (a - (1 # 40000)) * b == a * b - (1 # 40000) * b) by ring.
  assert (E2 : (1 # 40000) * (b - (1 # 22500))
               == (1 # 40000) * b - (1 # 900000000)) by ring.
  lra.
Qed.

Lemma visible_iff (fn : Renderer) (t : Q) : visible fn t = true <-> 0 < envelope fn t.
Proof. unfold visible. rewrite negb_true_iff, Qleb_gt. reflexivity. Qed.

Lemma visible_margin (fn : Renderer) (t : Q) :
  1 # 1000 <= t -> t <= 999 # 1000 -> visible fn t = true.
Proof.
  intros T0 T1. apply visible_iff.
  pose proof (envelope_margin fn t T0 T1). lra.
Qed.

Lemma visible_outside (fn : Renderer) (t : Q) : t <= 0 \/ 1 <= t -> visible fn t = false.
Proof.
  intro H. destruct (visible fn t) eqn:V; [|reflexivity].
  apply visible_iff in V. destruct (envelope_range fn t) as (_ & Z0 & Z1).
  destruct H as [H|H]; [rewrite (Z0 H) in V | rewrite (Z1 H) in V]; lra.
Qed.

(** X6: the fade envelope [a = fadeIn * fadeOut] of each of the four
    scheduled renderers lies in [0, 1]; it is 0 for [t <= 0] and for
    [t >= 1], where the renderer returns at [if (a <= 0) return] having drawn
    nothing, so a renderer draws only strictly inside its window; and for [t]
    from 0.001 to 0.999 it is a billionth at least, so there the renderer
    goes past its early return. *)
Theorem envelope_shape (fn : Renderer) (t : Q) :
  (0 <= envelope fn t /\ envelope fn t <= 1) /\
  (t <= 0 -> envelope fn t == 0 /\ visible fn t = false) /\
  (1 <= t -> envelope fn t == 0 /\ visible fn t = false) /\
  (visible fn t = true -> 0 < t /\ t < 1) /\
  (1 # 1000 <= t -> t <= 999 # 1000 ->
   1 # 1000000000 <= envelope fn t /\ visible fn t = true).
Proof.
  destruct (envelope_range fn t) as (R & Z0 & Z1).
  split; [exact R|]. split; [|split; [|split]].
  - intro H. split; [exact (Z0 H) | apply visible_outside; left; exact H].
  - intro H. split; [exact (Z1 H) | apply visible_outside; right; exact H].
  - intro V. split; apply Qnot_le_lt; intro H.
    + rewrite (visible_outside fn t (or_introl H)) in V. discriminate.
    + rewrite (visible_outside fn t (or_intror H)) in V. discriminate.
  - intros T0 T1. split; [apply envelope_margin | apply visible_margin]; assumption.
Qed.

Lemma envelope_shape_witness :
  visible fn_drawOptics (1 # 2) = true /\ envelope fn_drawCosmos 1 == 0.
Proof.
  destruct (envelope_shape fn_drawOptics (1 # 2)) as (_ & _ & _ & _ & V).
  destruct (envelope_shape fn_drawCosmos 1) as (_ & _ & Z1 & _).
  split; [apply V; lra | apply Z1; lra].
Defined.

Lemma visibleCalls_In (es : list Event) (fn : Renderer) (t e z : Q) :
  In (ECall fn t e z) es -> visible fn t = true -> In fn (visibleCalls es).
Proof.
  induction es as [|x es IH]; cbn [In]; [tauto|].
  intros [H|H] V.
  - subst x. cbn [visibleCalls]. rewrite V. left. reflexivity.
  - destruct x; cbn [visibleCalls]; try (apply IH; assumption).
    destruct (visible fn0 t0); [right|]; apply IH; assumption.
Qed.

Lemma runPhases_In (fn : Renderer) (start end_ elapsed zoom : Q) :
  In (fn, start, end_) phases -> start <= elapsed -> elapsed <= end_ ->
  In (ECall fn ((elapsed - start) / (end_ - start)) elapsed zoom)
     (runPhases phases elapsed zoom).
Proof.
  intros Hin A B. rewrite runPhases_scheduled. unfold scheduled.
  apply in_map_iff. exists (fn, start, end_). split; [reflexivity|].
  apply filter_In. split; [exact Hin|]. apply inWindow_iff. split; assumption.
Qed.

(** The first call scheduled is made, whatever the renderers do. *)
Lemma callPhases_hd (throws : Throws) cw ch (ps : list (Renderer * Q * Q)) elapsed zoom :
  hd_error (fst (callPhases throws cw ch ps elapsed zoom))
  = hd_error (runPhases ps elapsed zoom).
Proof.
  induction ps as [|[[fn start] end_] ps IH]; [reflexivity|].
  cbn [callPhases runPhases].
  destruct (Qleb start elapsed && Qleb elapsed end_); [|exact IH].
  cbv zeta. destruct (throws fn cw ch _ elapsed zoom); [reflexivity|].
  destruct (callPhases throws cw ch ps elapsed zoom). reflexivity.
Qed.

Ltac split_bools :=
  repeat match goal with
         | |- context [Qleb ?a ?b] =>
             let H := fresh "Hb" in
             destruct (Qleb a b) eqn:H; [apply Qleb_le in H | apply Qleb_gt in H]
         end.

(** X7: in every frame the table schedules at most two of the renderers, and
    at least one at every elapsed time from 0 to the duration; the first one
    scheduled is called whatever the renderers do, and no more are called
    than are scheduled.  From 9 ms to 31991 ms at least one scheduled
    renderer has its local time between 0.001 and 0.999 and so an open fade
    envelope: the windows leave no gap in the picture.  At elapsed time 0
    only [drawApproach] is scheduled and it draws nothing. *)
Theorem phases_cover_the_sequence (throws : Throws) (cw ch : Z) (elapsed zoom : Q) :
  let calls := runPhases phases elapsed zoom in
  let made := fst (callPhases throws cw ch phases elapsed zoom) in
  (List.length (callees calls) <= 2)%nat /\
  (0 <= elapsed -> elapsed <= 32000 ->
   (1 <= List.length (callees calls))%nat /\ hd_error made = hd_error calls /\
   made <> []) /\
  (List.length made <= List.length calls)%nat /\
  (9 <= elapsed -> elapsed <= 31991 ->
   exists fn t, In (ECall fn t elapsed zoom) calls /\
                1 # 1000 <= t /\ t <= 999 # 1000 /\
                In fn (visibleCalls calls)) /\
  (elapsed == 0 -> callees calls = [fn_drawApproach] /\ visibleCalls calls = []).
Proof.
  intros calls made.
  assert (In4 : forall fn s e, In (fn, s, e) phases -> s < e ->
                          s + (e - s) * (1 # 1000) <= elapsed ->
                          elapsed <= e - (e - s) * (1 # 1000) ->
                          exists t, In (ECall fn t elapsed zoom) calls /\
                                    1 # 1000 <= t /\ t <= 999 # 1000 /\
                                    In fn (visibleCalls calls)).
  { intros fn s e Hin Hse A B.
    exists ((elapsed - s) / (e - s)).
    assert (T0 : 1 # 1000 <= (elapsed - s) / (e - s)) by (apply Qle_shift_div_l; lra).
    assert (T1 : (elapsed - s) / (e - s) <= 999 # 1000) by (apply Qle_shift_div_r; lra).
    assert (I : In (ECall fn ((elapsed - s) / (e - s)) elapsed zoom) calls)
      by (apply runPhases_In; [exact Hin | lra | lra]).
    split; [exact I|]. split; [exact T0|]. split; [exact T1|].
    apply (visibleCalls_In calls fn ((elapsed - s) / (e - s)) elapsed zoom);
      [exact I | apply visible_margin; assumption]. }
  assert (L1 : 0 <= elapsed -> elapsed <= 32000 -> (1 <= List.length (callees calls))%nat).
  { intros A B. unfold calls, phases. cbn [runPhases].
    split_bools; cbn; try lia; exfalso; lra. }
  split; [|split; [|split; [|split]]].
  - unfold calls, phases. cbn [runPhases]. split_bools; cbn; try lia; exfalso; lra.
  - intros A B. split; [exact (L1 A B)|].
    pose proof (callPhases_hd throws cw ch phases elapsed zoom) as Hd.
    fold made in Hd. fold calls in Hd. split; [exact Hd|].
    intro E. rewrite E in Hd. pose proof (L1 A B) as L.
    destruct calls as [|c l]; [cbn in L; lia | discriminate Hd].
  - destruct (callPhases_prefix throws cw ch phases elapsed zoom) as [rest Pre].
    fold made in Pre. fold calls in Pre. rewrite Pre, length_app. lia.
  - intros A B.
    destruct (Qlt_le_dec elapsed 8000) as [K1|K1].
    + exists fn_drawApproach. apply (In4 _ 0 9000); [cbn; auto | lra | lra | lra].
    + destruct (Qlt_le_dec elapsed 17000) as [K2|K2].
      * exists fn_drawOptics. apply (In4 _ 6000 18000); [cbn; auto | lra | lra | lra].
      * destruct (Qlt_le_dec elapsed 25000) as [K3|K3].
        -- exists fn_drawDataTransform.
           apply (In4 _ 15000 26000); [cbn; auto | lra | lra | lra].
        -- exists fn_drawCosmos.
           apply (In4 _ 23000 32000); [cbn; auto 6 | lra | lra | lra].
  - intro E. unfold calls, phases. cbn [runPhases].
    split_bools; try (exfalso; lra).
    cbn [andb callees visibleCalls]. split; [reflexivity|].
    assert (V : visible fn_drawApproach ((elapsed - 0) / (9000 - 0)) = false).
    { apply visible_outside. left.
      assert (Z : (elapsed - 0) / (9000 - 0) == 0) by (rewrite E; reflexivity).
      lra. }
    rewrite V. reflexivity.
Qed.

Lemma phases_cover_the_sequence_witness :
  (exists fn t, In (ECall fn t 16000 1000) (runPhases phases 16000 1000) /\
                1 # 1000 <= t /\ t <= 999 # 1000 /\
                In fn (visibleCalls (runPhases phases 16000 1000))) /\
  callees (runPhases phases 0 1) = [fn_drawApproach].
Proof.
  pose proof (phases_cover_the_sequence othersRaise 800 600 16000 1000) as H.
  cbv zeta in H.
  pose proof (phases_cover_the_sequence othersRaise 800 600 0 1) as H0. cbv zeta in H0.
  destruct H as (_ & _ & _ & V & _). destruct H0 as (_ & _ & _ & _ & Z0).
  split; [apply V; lra | apply Z0; reflexivity].
Defined.

(** ** The step of the generator *)

Lemma mod_eq_divide (a b m : Z) : (m <> 0)%Z -> (a mod m = b mod m)%Z -> (m | a - b)%Z.
Proof.
  intros Hm E. exists (a / m - b / m)%Z.
  pose proof (Z.div_mod a m Hm). pose proof (Z.div_mod b m Hm). nia.
Qed.

(** X8: on the states strictly between 0 and the modulus 2147483647 the
    step [s * 16807 % 2147483647] of the generator stays in that range,
    never returns the state it was given, and is injective, as is the map
    from the state to the number returned: two different states never give
    the same next state or the same output. *)
Theorem rng_step_bijective (s1 s2 : Z) :
  in_range s1 -> in_range s2 ->
  in_range (Rng.step s1) /\
  Rng.step s1 <> s1 /\
  (Rng.step s1 = Rng.step s2 -> s1 = s2) /\
  (Rng.out s1 == Rng.out s2 -> s1 = s2).
Proof.
  unfold in_range. intros R1 R2.
  assert (N1 : (s1 mod Rng.M <> 0)%Z) by (rewrite Z.mod_small; lia).
  assert (N2 : (s2 mod Rng.M <> 0)%Z) by (rewrite Z.mod_small; lia).
  destruct (rng_step_range s1 (proj1 R1) N1) as [E1 B1].
  destruct (rng_step_range s2 (proj1 R2) N2) as [E2 B2].
  assert (G : forall d : Z, (Rng.M | d * 16807)%Z -> (Rng.M | d)%Z).
  { intros d H. rewrite Z.mul_comm in H. exact (Z.gauss _ _ _ H rng_coprime). }
  assert (Small : forall d : Z, (Rng.M | d)%Z -> (- Rng.M < d < Rng.M)%Z -> d = 0%Z).
  { intros d [q Hq] Hd. unfold Rng.M in *. nia. }
  split; [exact B1|]. split; [|split].
  - intro F. rewrite E1 in F.
    assert (D : (Rng.M | s1 * 16807 - s1)%Z).
    { apply mod_eq_divide; [unfold Rng.M; lia|].
      rewrite (Z.mod_small s1) by (fold Rng.M; lia). exact F. }
    replace (s1 * 16807 - s1)%Z with (16806 * s1)%Z in D by ring.
    assert (C : Z.gcd Rng.M 16806 = 1%Z) by (vm_compute; reflexivity).
    pose proof (Z.gauss _ _ _ D C) as D'.
    pose proof (Small s1 D'). unfold Rng.M in *. lia.
  - intro F. rewrite E1, E2 in F.
    assert (D : (Rng.M | s1 * 16807 - s2 * 16807)%Z)
      by (apply mod_eq_divide; [unfold Rng.M; lia | exact F]).
    replace (s1 * 16807 - s2 * 16807)%Z with ((s1 - s2) * 16807)%Z in D by ring.
    pose proof (Small (s1 - s2)%Z (G _ D)). unfold Rng.M in *. lia.
  - unfold Rng.out. intro F.
    unfold Qeq, Qdiv, Qmult, Qinv, inject_Z in F. cbn in F. lia.
Qed.

Lemma rng_step_bijective_witness :
  in_range (Rng.step 42) /\ Rng.step 42 <> 42%Z.
Proof.
  assert (A : in_range 42) by (unfold in_range, Rng.M; lia).
  destruct (rng_step_bijective 42 42 A A) as (R & N & _).
  split; assumption.
Defined.

(** ** Values of the pools *)

(** Reasoning about code that draws from the generator. *)
Lemma bind_r_inv {A : Type} (k : Q -> Gen A) (Pr : A * Z -> Prop) (s : Z) :
  in_range s ->
  (forall x s', 0 <= x -> x < 1 -> in_range s' -> Pr (k x s')) ->
  Pr (bind r k s).
Proof.
  intros Hs H. unfold bind.
  pose proof (r_range s Hs) as R. destruct (r s) as [x s']. cbn [fst snd] in R.
  destruct R as (R1 & R2 & R3). apply H; assumption.
Qed.

Lemma bind_inv {A B : Type} (m : Gen A) (k : A -> Gen B) (I : A -> Prop)
      (Pr : B * Z -> Prop) (s : Z) :
  I (fst (m s)) /\ in_range (snd (m s)) ->
  (forall a s', I a -> in_range s' -> Pr (k a s')) ->
  Pr (bind m k s).
Proof.
  intros [Hi Hs] H. unfold bind. destruct (m s) as [a s']. apply H; assumption.
Qed.

Lemma forPush_inv {A : Type} (body : Z -> Gen A) (I : A -> Prop) :
  (forall i s, in_range s -> I (fst (body i s)) /\ in_range (snd (body i s))) ->
  forall n i s, in_range s ->
           Forall I (fst (forPush n i body s)) /\ in_range (snd (forPush n i body s)).
Proof.
  intros Hb n. induction n as [|n IH]; intros i s Hs.
  - cbn. split; [constructor | exact Hs].
  - cbn [forPush].
    apply (bind_inv (body i) _ I); [apply Hb; exact Hs|].
    intros a s1 Ia Hs1.
    apply (bind_inv (forPush n (i + 1)%Z body) _ (Forall I)); [apply IH; exact Hs1|].
    intros l s2 Il Hs2. cbn. split; [constructor; assumption | exact Hs2].
Qed.

Ltac draw := apply bind_r_inv; [assumption | intros ? ? ? ? ?].

Lemma genBgStar_range i s : in_range s -> True /\ in_range (snd (genBgStar i s)).
Proof. intro Hs. unfold genBgStar. do 6 draw. cbn. tauto. Qed.

Lemma genDust_range i s : in_range s -> True /\ in_range (snd (genDust i s)).
Proof. intro Hs. unfold genDust. do 7 draw. cbn. tauto. Qed.

Lemma genLensRing_range i s : in_range s -> True /\ in_range (snd (genLensRing i s)).
Proof. intro Hs. unfold genLensRing. do 3 draw. cbn. tauto. Qed.

Lemma genNode_range i s : in_range s -> True /\ in_range (snd (genNode i s)).
Proof. intro Hs. unfold genNode. do 5 draw. cbn. tauto. Qed.

Lemma floor_scaled (x : Q) (n : Z) :
  0 <= x -> x < 1 -> (0 < n)%Z -> (0 <= Math_floor (x * inject_Z n) <= n - 1)%Z.
Proof.
  intros A B Hn. unfold Math_floor.
  assert (N : 0 < inject_Z n) by (change 0 with (inject_Z 0); rewrite <- Zlt_Qlt; exact Hn).
  assert (P : 0 <= x * inject_Z n) by (apply Qmult_le_0_compat; lra).
  assert (U : x * inject_Z n < inject_Z n).
  { assert (0 < (1 - x) * inject_Z n) by (apply Qmult_lt_0_compat; lra).
    assert ((1 - x) * inject_Z n == inject_Z n - x * inject_Z n) by ring. lra. }
  split.
  - change 0%Z with (Qfloor 0). apply Qfloor_resp_le. exact P.
  - pose proof (Qfloor_le (x * inject_Z n)) as F.
    assert (L : inject_Z (Qfloor (x * inject_Z n)) < inject_Z n) by lra.
    rewrite <- Zlt_Qlt in L. lia.
Qed.

Lemma genStar_ok i s : in_range s -> star_ok (fst (genStar i s)) /\ in_range (snd (genStar i s)).
Proof.
  intro Hs. unfold genStar. do 4 draw.
  pose proof (floor_scaled x 3 H H0 eq_refl) as Arm.
  pose proof (floor_scaled x2 4 H8 H9 eq_refl) as Sec.
  change (inject_Z 3) with 3 in Arm. change (inject_Z 4) with 4 in Sec.
  set (arm := Math_floor (x * 3)) in *.
  set (sec := Math_floor (x2 * 4)) in *.
  assert (HS : exists hue sat,
             (if Z.eqb sec 0 then (215, 90)
              else if Z.eqb sec 1 then (30, 92)
                   else if Z.eqb sec 2 then (150, 75) else (275, 70)) = (hue, sat) /\
             ((sat = 90 /\ hue == 215) \/ (sat = 92 /\ hue == 30) \/
              (sat = 75 /\ hue == 150) \/ (sat = 70 /\ hue == 275))).
  { destruct (Z.eqb sec 0); [eexists; eexists; split; [reflexivity|left; split; reflexivity]|].
    destruct (Z.eqb sec 1);
      [eexists; eexists; split; [reflexivity|right; left; split; reflexivity]|].
    destruct (Z.eqb sec 2);
      [eexists; eexists; split; [reflexivity|right; right; left; split; reflexivity]|].
    eexists; eexists; split; [reflexivity|right; right; right; split; reflexivity]. }
  destruct HS as (hue & sat & E & HS). rewrite E.
  do 6 draw. cbn [ret fst snd]. split; [|assumption].
  unfold star_ok. cbn [st_angle st_dist st_size st_hue st_sat st_br st_twPhase st_twSpeed st_ySkew].
  split; [split; lra|]. split; [split; lra|]. split; [split; lra|]. split; [split; lra|].
  split.
  - destruct HS as [[S1 S2]|[[S1 S2]|[[S1 S2]|[S1 S2]]]]; rewrite S1, S2;
      [left | right; left | right; right; left | right; right; right];
      (split; [reflexivity | split; lra]).
  - exists arm. split; [lia|]. split; lra.
Qed.

Lemma genEdge_ok i j a b s :
  in_range s ->
  Forall (fun e => e_from e = i /\ e_to e = j /\ near a b = true /\
                   25 # 100 <= e_str e /\ e_str e < 1) (fst (genEdge i j a b s)) /\
  in_range (snd (genEdge i j a b s)).
Proof.
  intro Hs. unfold genEdge. destruct (near a b) eqn:N.
  - apply bind_r_inv; [exact Hs | intros keep s1 K0 K1 R1].
    destruct (Qltb (3 # 10) keep).
    + apply bind_r_inv; [exact R1 | intros x s2 X0 X1 R2].
      cbn. split; [|exact R2]. constructor; [|constructor].
      cbn. repeat split; lra.
    + cbn. split; [constructor | exact R1].
  - cbn. split; [constructor | exact Hs].
Qed.

Lemma edgesFrom_ok i a rest : forall j s,
  in_range s ->
  Forall (edge_from_ok i j a rest) (fst (edgesFrom i a j rest s)) /\
  in_range (snd (edgesFrom i a j rest s)).
Proof.
  induction rest as [|b rest IH]; intros j s Hs.
  - cbn. split; [constructor | exact Hs].
  - cbn [edgesFrom].
    apply (bind_inv (genEdge i j a b) _
             (Forall (fun e => e_from e = i /\ e_to e = j /\ near a b = true /\
                               25 # 100 <= e_str e /\ e_str e < 1)));
      [apply genEdge_ok; exact Hs|].
    intros e s1 He Hs1.
    apply (bind_inv (edgesFrom i a (S j) rest) _ (Forall (edge_from_ok i (S j) a rest)));
      [apply IH; exact Hs1|].
    intros es s2 Hes Hs2. cbn [ret fst snd]. split; [|exact Hs2].
    apply Forall_app. split.
    + eapply Forall_impl; [|exact He].
      intros x (F & T & N & S1 & S2). unfold edge_from_ok. cbn [List.length].
      split; [exact F|]. split; [lia|]. split; [|split; assumption].
      exists b. rewrite T, Nat.sub_diag. split; [reflexivity | exact N].
    + eapply Forall_impl; [|exact Hes].
      intros x (F & T & (c & Hc & N) & S1 & S2). unfold edge_from_ok. cbn [List.length].
      split; [exact F|]. split; [lia|]. split; [|split; assumption].
      exists c. split; [|exact N].
      replace (e_to x - j)%nat with (S (e_to x - S j)) by lia. exact Hc.
Qed.

Lemma edgesAll_ok ns : forall i s,
  in_range s ->
  Forall (edge_all_ok i ns) (fst (edgesAll i ns s)) /\ in_range (snd (edgesAll i ns s)).
Proof.
  induction ns as [|a rest IH]; intros i s Hs.
  - cbn. split; [constructor | exact Hs].
  - cbn [edgesAll].
    apply (bind_inv (edgesFrom i a (S i) rest) _ (Forall (edge_from_ok i (S i) a rest)));
      [apply edgesFrom_ok; exact Hs|].
    intros e s1 He Hs1.
    apply (bind_inv (edgesAll (S i) rest) _ (Forall (edge_all_ok (S i) rest)));
      [apply IH; exact Hs1|].
    intros es s2 Hes Hs2. cbn [ret fst snd]. split; [|exact Hs2].
    apply Forall_app. split.
    + eapply Forall_impl; [|exact He].
      intros x (F & T & (b & Hb & N) & S1 & S2). unfold edge_all_ok. cbn [List.length].
      split; [lia|]. split; [lia|]. split; [|split; assumption].
      exists a, b. rewrite F, Nat.sub_diag. split; [reflexivity|]. split; [|exact N].
      replace (e_to x - i)%nat with (S (e_to x - S i)) by lia. exact Hb.
    + eapply Forall_impl; [|exact Hes].
      intros x (F & T & (c & d & Hc & Hd & N) & S1 & S2). unfold edge_all_ok.
      cbn [List.length].
      split; [lia|]. split; [lia|]. split; [|split; assumption].
      exists c, d. split; [|split; [|exact N]].
      * replace (e_from x - i)%nat with (S (e_from x - S i)) by lia. exact Hc.
      * replace (e_to x - i)%nat with (S (e_to x - S i)) by lia. exact Hd.
Qed.

Lemma genCandle_stored_ok i s :
  in_range s -> candle_stored_ok (fst (genCandle i s)) /\ in_range (snd (genCandle i s)).
Proof.
  intro Hs. unfold genCandle.
  apply bind_r_inv; [exact Hs | intros ro s1 A0 A1 R1].
  apply bind_r_inv; [exact R1 | intros rc s2 B0 B1 R2].
  apply bind_r_inv; [exact R2 | intros rh s3 C0 C1 R3].
  apply bind_r_inv; [exact R3 | intros rl s4 D0 D1 R4].
  cbn [ret fst snd]. split; [|exact R4].
  unfold candle_stored_ok, Math_max, Math_min. cbn [open close high low bull].
  repeat split; try lra.
Qed.

Lemma genComet_range i s : in_range s -> True /\ in_range (snd (genComet i s)).
Proof. intro Hs. unfold genComet. do 6 draw. cbn. tauto. Qed.

Lemma genOrderCol_range i s : in_range s -> True /\ in_range (snd (genOrderCol i s)).
Proof. intro Hs. unfold genOrderCol. do 6 draw. cbn. tauto. Qed.

Lemma edge_all_ok_0 ns e : edge_all_ok 0 ns e -> edge_ok ns e.
Proof.
  intros (A & B & (a & b & Ha & Hb & N) & S1 & S2). unfold edge_ok.
  rewrite Nat.sub_0_r in Ha, Hb. split; [lia|]. split; [|split; assumption].
  exists a, b. auto.
Qed.

Lemma genPools_ranges (s : Z) :
  in_range s ->
  let p := fst (genPools s) in
  Forall star_ok (stars p) /\
  Forall (edge_ok (nodes (neural p))) (edges (neural p)) /\
  Forall candle_stored_ok (candles p) /\
  in_range (snd (genPools s)).
Proof.
  intro Hs. unfold genPools.
  apply (bind_inv (forPush 180 0 genBgStar) _ (Forall (fun _ => True)));
    [apply forPush_inv; [exact genBgStar_range | exact Hs]|].
  intros bg s1 _ Hs1.
  apply (bind_inv (forPush 300 0 genDust) _ (Forall (fun _ => True)));
    [apply forPush_inv; [exact genDust_range | exact Hs1]|].
  intros du s2 _ Hs2.
  apply (bind_inv (forPush 12 0 genLensRing) _ (Forall (fun _ => True)));
    [apply forPush_inv; [exact genLensRing_range | exact Hs2]|].
  intros lr s3 _ Hs3.
  apply (bind_inv (forPush 800 0 genStar) _ (Forall star_ok));
    [apply forPush_inv; [exact genStar_ok | exact Hs3]|].
  intros st s4 Hst Hs4.
  apply (bind_inv (forPush 55 0 genNode) _ (Forall (fun _ => True)));
    [apply forPush_inv; [exact genNode_range | exact Hs4]|].
  intros ns s5 _ Hs5.
  apply (bind_inv (edgesAll 0 ns) _ (Forall (edge_all_ok 0 ns)));
    [apply edgesAll_ok; exact Hs5|].
  intros es s6 Hes Hs6.
  apply (bind_inv (forPush 80 0 genCandle) _ (Forall candle_stored_ok));
    [apply forPush_inv; [exact genCandle_stored_ok | exact Hs6]|].
  intros ca s7 Hca Hs7.
  apply (bind_inv (forPush 12 0 genComet) _ (Forall (fun _ => True)));
    [apply forPush_inv; [exact genComet_range | exact Hs7]|].
  intros co s8 _ Hs8.
  apply (bind_inv (forPush 45 0 genOrderCol) _ (Forall (fun _ => True)));
    [apply forPush_inv; [exact genOrderCol_range | exact Hs8]|].
  intros oc s9 _ Hs9.
  cbn [ret fst snd stars neural nodes edges candles].
  split; [exact Hst|]. split; [|split; [exact Hca | exact Hs9]].
  eapply Forall_impl; [|exact Hes]. intros e. apply edge_all_ok_0.
Qed.

(** X9: whatever state in range the generator starts from, the pools built
    by [initParticles] satisfy: every galaxy star has its distance, size,
    brightness and skew in their intervals, lies within 0.275 rad of one of
    the three spiral arms and has the saturation and hue of one of the four
    colour sectors; every neural edge joins two different nodes of the pool,
    lower index first, that are nearer than the threshold, with a strength in
    [0.25, 1); every candle has open and close in [0.3, 0.7), high and low
    less than 0.08 beyond them, and [bull] equal to [close > open]; and the
    generator is left in range. *)
Theorem genPools_value_ranges (s : Z) :
  in_range s ->
  let p := fst (genPools s) in
  Forall star_ok (stars p) /\
  Forall (edge_ok (nodes (neural p))) (edges (neural p)) /\
  Forall candle_stored_ok (candles p) /\
  in_range (snd (genPools s)).
Proof.
  exact (genPools_ranges s).
Qed.

Lemma genPools_value_ranges_witness :
  Forall candle_stored_ok (candles (fst (genPools 42%Z))).
Proof.
  assert (A : in_range 42) by (unfold in_range, Rng.M; lia).
  pose proof (genPools_value_ranges 42%Z A) as H. cbv zeta in H.
  exact (proj1 (proj2 (proj2 H))).
Defined.

(** ** Jitter of the candles *)

Lemma sin_range (x : Q) : -(1) <= JsMath.sin x /\ JsMath.sin x <= 1.
Proof.
  unfold JsMath.sin. cbv zeta. split.
  - apply Q.le_max_l.
  - apply Q.max_lub; [unfold Qle; simpl; lia | apply Q.le_min_l].
Qed.

Lemma cos_range (x : Q) : -(1) <= JsMath.cos x /\ JsMath.cos x <= 1.
Proof. unfold JsMath.cos. apply sin_range. Qed.

Lemma scaled_range (sv c : Q) :
  -(1) <= sv -> sv <= 1 -> 0 <= c -> c <= 1 ->
  -(8 # 100) <= sv * (8 # 100) * c /\ sv * (8 # 100) * c <= 8 # 100.
Proof.
  intros S0 S1 A B.
  assert (P1 : 0 <= (1 - sv) * c) by (apply Qmult_le_0_compat; lra).
  assert (P2 : 0 <= (1 + sv) * c) by (apply Qmult_le_0_compat; lra).
  assert (E1 : (1 - sv) * c == c - sv * c) by ring.
  assert (E2 : (1 + sv) * c == c + sv * c) by ring.
  assert (E3 : sv * (8 # 100) * c == (8 # 100) * (sv * c)) by ring.
  rewrite E3. split; lra.
Qed.

Lemma volatility_range (elapsed : Q) (i side : Z) (candleP : Q) :
  0 <= candleP -> candleP <= 1 ->
  -(8 # 100) <= volatility elapsed i side candleP /\
  volatility elapsed i side candleP <= 8 # 100.
Proof.
  intros A B. unfold volatility.
  apply scaled_range; try assumption; apply sin_range.
Qed.

Lemma bias_scaled (cv : Q) :
  -(1) <= cv -> cv <= 1 -> -(2 # 100) <= cv * (2 # 100) /\ cv * (2 # 100) <= 2 # 100.
Proof. intros; split; lra. Qed.

Lemma bias_range (elapsed : Q) (i : Z) :
  -(2 # 100) <= bias elapsed i /\ bias elapsed i <= 2 # 100.
Proof. unfold bias. apply bias_scaled; apply cos_range. Qed.

Lemma clampPrice_id (v : Q) : 1 # 10 <= v -> v <= 9 # 10 -> clampPrice v == v.
Proof.
  intros A B. unfold clampPrice, Math_max, Math_min.
  rewrite (Q.min_r _ _ B). apply Q.max_r. exact A.
Qed.

Lemma jitter_unclamped (c : Candle) (v b : Q) :
  candle_stored_ok c ->
  -(8 # 100) <= v -> v <= 8 # 100 -> -(2 # 100) <= b -> b <= 2 # 100 ->
  unclamped c v b (jitter c v b).
Proof.
  intros ((O1 & O2) & (C1 & C2) & (H1 & H2) & (L1 & L2) & _) V1 V2 B1 B2.
  assert (Mx : Qmax (open c) (close c) < 7 # 10) by (apply Q.max_lub_lt; assumption).
  assert (Mn : 3 # 10 <= Qmin (open c) (close c)) by (apply Q.min_glb; assumption).
  assert (Mo : open c <= Qmax (open c) (close c)) by apply Q.le_max_l.
  assert (Mo' : Qmin (open c) (close c) <= open c) by apply Q.le_min_l.
  unfold unclamped, jitter. cbn [d_open d_close d_high d_low].
  repeat split; apply clampPrice_id; lra.
Qed.

Lemma drawColumn_unclamped elapsed side candleP cs d : forall i,
  0 <= candleP -> candleP <= 1 -> Forall candle_stored_ok cs ->
  In d (drawColumn elapsed side candleP i cs) ->
  exists c v b, In c cs /\ (-(8 # 100) <= v /\ v <= 8 # 100) /\
                (-(2 # 100) <= b /\ b <= 2 # 100) /\ unclamped c v b d.
Proof.
  induction cs as [|c cs IH]; intros i A B F H; cbn [drawColumn In] in H; [tauto|].
  inversion F as [|c' cs' Fc Fcs]; subst.
  destruct H as [H|H].
  - exists c, (volatility elapsed i side candleP), (bias elapsed i).
    pose proof (volatility_range elapsed i side candleP A B) as [V1 V2].
    pose proof (bias_range elapsed i) as [B1 B2].
    split; [left; reflexivity|]. split; [split; assumption|]. split; [split; assumption|].
    subst d. apply jitter_unclamped; assumption.
  - destruct (IH (i + 1)%Z A B Fcs H) as (c' & v & b & Hin & R).
    exists c', v, b. split; [right; exact Hin | exact R].
Qed.

(** X10: for the pools of [initParticles], from any state in range, the
    clamp of [drawCosmos] to [0.1, 0.9] is never active: every candle drawn
    is a stored candle plus its jitter, with the volatility within 0.08 and
    the bias within 0.02.  So drawn high minus drawn open is the stored
    difference plus 0.15 of the volatility, drawn high minus drawn close the
    stored difference plus 0.25 of the volatility and 1.5 of the bias, and
    drawn high minus drawn low the stored difference plus twice the bias. *)
Theorem cosmos_clamp_never_engages (s : Z) (t elapsed : Q) :
  in_range s ->
  Forall (jittered (candles (fst (genPools s))))
         (cosmosCandles (fst (genPools s)) t elapsed).
Proof.
  intros Hs. apply Forall_forall. intros d H. unfold jittered.
  destruct (genPools_ranges s Hs) as (_ & _ & Fc & _).
  unfold cosmosCandles in H. cbv zeta in H.
  destruct (Qleb _ 0); [destruct H|].
  destruct (Qltb 0 _) eqn:CP; [|destruct H].
  assert (R : 0 <= smoothstep (3 # 100) (2 # 10) t /\ smoothstep (3 # 100) (2 # 10) t <= 1).
  { apply (smoothstep_facts (3 # 100) (2 # 10) t t). reflexivity. }
  destruct R as [R0 R1].
  apply in_app_or in H.
  assert (X : exists c v b, In c (candles (fst (genPools s))) /\
                            (-(8 # 100) <= v /\ v <= 8 # 100) /\
                            (-(2 # 100) <= b /\ b <= 2 # 100) /\ unclamped c v b d).
  { destruct H as [H|H].
    - exact (drawColumn_unclamped elapsed 0%Z _ _ d 0%Z R0 R1 Fc H).
    - exact (drawColumn_unclamped elapsed 1%Z _ _ d 0%Z R0 R1 Fc H). }
  destruct X as (c & v & b & Hin & Hv & Hb & U).
  exists c, v, b. split; [exact Hin|]. split; [exact Hv|]. split; [exact Hb|].
  split; [exact U|].
  destruct U as (U1 & U2 & U3 & U4). rewrite U1, U2, U3, U4.
  repeat split; ring.
Qed.

Lemma cosmos_clamp_never_engages_witness :
  Forall (jittered (candles (fst (genPools 42%Z))))
         (cosmosCandles (fst (genPools 42%Z)) (1 # 2) 27000).
Proof.
  apply (cosmos_clamp_never_engages 42%Z (1 # 2) 27000).
  unfold in_range, Rng.M; lia.
Defined.

(** ** Orbit trails *)

Lemma agedFrom_removelast (k : Z) (l : list (Q * Q * Q)) :
  agedFrom k l -> agedFrom k (removelast l).
Proof.
  revert k. induction l as [|[[x y] life] l IH]; intros k H; [exact I|].
  cbn [removelast]. destruct l as [|p l']; [exact I|].
  destruct H as [H1 H2]. split; [exact H1|]. apply IH. exact H2.
Qed.

Lemma removelast_length {A : Type} (l : list A) :
  List.length (removelast l) = pred (List.length l).
Proof.
  induction l as [|a l IH]; [reflexivity|].
  cbn [removelast]. destruct l as [|b l']; [reflexivity|].
  cbn [List.length] in *. rewrite IH. reflexivity.
Qed.

Lemma drawTrail_aged (size glow : Q) (trail : list (Q * Q * Q)) : forall k : Z,
  (0 <= k)%Z -> agedFrom k trail -> (k + Z.of_nat (List.length trail) <= 35)%Z ->
  agedFrom (k + 1) (fst (drawTrail size glow trail)) /\
  List.length (fst (drawTrail size glow trail)) = List.length trail /\
  List.length (snd (drawTrail size glow trail)) = List.length trail /\
  Forall (fun p => 29 # 100 <= snd p) (fst (drawTrail size glow trail)) /\
  Forall (fun d => 5 # 10 <= td_radius d) (snd (drawTrail size glow trail)).
Proof.
  induction trail as [|[[x y] life] rest IH]; intros k Hk A L.
  - cbn. repeat split; constructor.
  - destruct A as [A1 A2]. cbn [List.length] in L.
    assert (L' : (k + 1 + Z.of_nat (List.length rest) <= 35)%Z) by lia.
    destruct (IH (k + 1)%Z ltac:(lia) A2 L') as (I1 & I2 & I3 & I4 & I5).
    cbn [drawTrail]. destruct (drawTrail size glow rest) as [rest' dots].
    cbn [fst snd] in *.
    assert (K : inject_Z k <= 34).
    { change 34 with (inject_Z 34). rewrite <- Zle_Qle. lia. }
    assert (K0 : 0 <= inject_Z k).
    { change 0 with (inject_Z 0). rewrite <- Zle_Qle. exact Hk. }
    destruct A1 as [A1 A1'].
    assert (E : 1 - inject_Z (k + 1) * (2 # 100) - inject_Z (k + 1) * (1 # 1000000)
                <= life - (2 # 100) /\
                life - (2 # 100)
                <= 1 - inject_Z (k + 1) * (2 # 100) + inject_Z (k + 1) * (1 # 1000000)).
    { rewrite inject_Z_plus. change (inject_Z 1) with 1. split; lra. }
    assert (Pos : 29 # 100 <= life - (2 # 100)) by lra.
    assert (F : Qleb (life - (2 # 100)) 0 = false) by (apply Qleb_gt; lra).
    rewrite F. cbn [fst snd List.length agedFrom].
    split; [split; assumption|]. split; [lia|]. split; [lia|].
    split; constructor; try assumption.
    cbn [td_radius]. unfold Math_max. apply Q.le_max_l.
Qed.

(** X11: one frame of an orbit node, [update] then [draw], keeps the trail
    at 35 points at most: it grows by one point up to 35 and then stays; the
    lives of its points are 0.98, 0.96, ... from the head on, to within a
    millionth for each decrement, so all are in [0.29, 1) and none is skipped
    by [if (point.life <= 0) continue]: every point of the trail is painted,
    with a radius of 0.5 at least. *)
Theorem orbit_trail_bounded (linesWidth linesHeight : Z) (delta progress : Q) (n : OrbitNode) :
  TrailInv n ->
  let o := fst (orbitFrame linesWidth linesHeight delta progress n) in
  let dots := snd (orbitFrame linesWidth linesHeight delta progress n) in
  TrailInv (orb_node o) /\
  List.length (on_trail (orb_node o)) = Nat.min (S (List.length (on_trail n))) 35 /\
  List.length dots = List.length (on_trail (orb_node o)) /\
  Forall (fun p => 29 # 100 <= snd p /\ snd p < 1) (on_trail (orb_node o)) /\
  Forall (fun d => 5 # 10 <= td_radius d) dots.
Proof.
  intros [Len Aged]. unfold orbitFrame, orbitDraw, orbitUpdate. cbv zeta.
  cbn [orb_node on_trail on_size on_depth].
  set (x := inject_Z linesWidth / 2 + _).
  set (y := inject_Z linesHeight / 2 + _).
  set (pushed := (x, y, 1) :: on_trail n).
  set (tr := if Nat.ltb 35 (List.length pushed) then pop pushed else pushed).
  assert (A0 : agedFrom 0 pushed).
  { unfold pushed. cbn [agedFrom]. change (inject_Z 0) with 0.
    split; [split; lra | exact Aged]. }
  assert (T : agedFrom 0 tr /\ List.length tr = Nat.min (S (List.length (on_trail n))) 35).
  { unfold tr. destruct (Nat.ltb 35 (List.length pushed)) eqn:E.
    - apply Nat.ltb_lt in E. unfold pop. split; [apply agedFrom_removelast; exact A0|].
      rewrite removelast_length. unfold pushed in *. cbn [List.length] in *. lia.
    - apply Nat.ltb_ge in E. split; [exact A0|].
      unfold pushed in *. cbn [List.length] in *. lia. }
  destruct T as [T1 T2]. clearbody tr. clear A0. clearbody pushed.
  pose proof (Nat.le_min_r (S (List.length (on_trail n))) 35) as Mr.
  assert (L35 : (List.length tr <= 35)%nat) by (rewrite T2; exact Mr).
  assert (L : (0 + Z.of_nat (List.length tr) <= 35)%Z) by lia.
  set (glow := (35 # 100) + progress * (45 # 100) + on_depth n * (2 # 10)).
  destruct (drawTrail_aged (on_size n) glow tr 0 ltac:(lia) T1 L) as (I1 & I2 & I3 & I4 & I5).
  assert (Lt : forall k l, (0 <= k)%Z -> agedFrom (k + 1) l ->
                      Forall (fun p : Q * Q * Q => snd p < 1) l).
  { intros k l. revert k. induction l as [|[[a b] c] l IH]; intros k Hk H; constructor.
    - destruct H as [[_ H] _]. cbn [snd].
      assert (0 <= inject_Z k) by (change 0 with (inject_Z 0); rewrite <- Zle_Qle; lia).
      rewrite inject_Z_plus in H. change (inject_Z 1) with 1 in H. lra.
    - destruct H as [_ H]. apply (IH (k + 1)%Z); [lia | exact H]. }
  destruct (drawTrail (on_size n) glow tr) as [tr' dots'].
  unfold TrailInv. cbn [fst snd orb_node on_trail] in *.
  split; [split; [lia | exact I1]|]. split; [congruence|]. split; [lia|].
  split; [|exact I5].
  pose proof (Lt 0%Z tr' ltac:(lia) I1) as I6.
  rewrite Forall_forall in *. intros p Hp. split; [apply I4 | apply I6]; exact Hp.
Qed.

Lemma orbit_trail_bounded_witness :
  List.length
    (on_trail (orb_node (fst (orbitFrame 800 600 16 (1 # 2)
      {| on_radius := 100; on_angle := 0; on_speed := 1 # 1000; on_depth := 1 # 2;
       on_size := 2; on_orbitTilt := 1; on_hue := 250; on_trail := [] |})))) = 1%nat.
Proof.
  assert (I0 : TrailInv
      {| on_radius := 100; on_angle := 0; on_speed := 1 # 1000; on_depth := 1 # 2;
       on_size := 2; on_orbitTilt := 1; on_hue := 250; on_trail := [] |}).
  { split; [cbn; lia | exact I]. }
  pose proof (orbit_trail_bounded 800 600 16 (1 # 2) _ I0) as H. cbv zeta in H.
  destruct H as (_ & L & _). exact L.
Defined.

(** ** Ambient dots *)

Lemma wrap_inside (x W : Q) :
  0 <= W ->
  let x1 := if Qltb x 0 then W else x in
  let x2 := if Qltb W x1 then 0 else x1 in
  0 <= x2 /\ x2 <= W.
Proof.
  intros HW. cbv zeta.
  destruct (Qltb x 0) eqn:A.
  - destruct (Qltb W W) eqn:B; [apply Qltb_lt in B; lra|]. split; lra.
  - apply Qltb_ge in A. destruct (Qltb W x) eqn:B.
    + split; lra.
    + apply Qltb_ge in B. split; assumption.
Qed.

Lemma dotUpdate_inside (W H : Z) (time : Q) (d : Dot) :
  (0 <= W)%Z -> (0 <= H)%Z ->
  dot_inside W H (dotUpdate W H time d) /\
  dot_baseSize (dotUpdate W H time d) = dot_baseSize d /\
  dot_vx (dotUpdate W H time d) = dot_vx d /\
  dot_vy (dotUpdate W H time d) = dot_vy d /\
  dot_hue (dotUpdate W H time d) = dot_hue d /\
  dot_baseBrightness (dotUpdate W H time d) = dot_baseBrightness d.
Proof.
  intros HW HH.
  assert (QW : 0 <= inject_Z W) by (change 0 with (inject_Z 0); rewrite <- Zle_Qle; exact HW).
  assert (QH : 0 <= inject_Z H) by (change 0 with (inject_Z 0); rewrite <- Zle_Qle; exact HH).
  unfold dotUpdate, dot_inside. cbv zeta.
  cbn [dot_x dot_y dot_brightness dot_size dot_baseSize dot_vx dot_vy dot_hue
       dot_baseBrightness].
  split; [|repeat split].
  split; [apply (wrap_inside _ _ QW)|].
  split; [apply (wrap_inside _ _ QH)|].
  split; [|reflexivity].
  unfold Math_max, Math_min. split.
  - apply Q.le_max_l.
  - apply Q.max_lub; [unfold Qle; simpl; lia | apply Q.le_min_l].
Qed.

(** X12: with a canvas of non-negative width and height, [animateDots]
    keeps the number of dots; after one frame or more every dot is inside
    the canvas, edges included, with its brightness in [0.05, 0.8] and its
    size [baseSize * (0.8 + brightness * 0.4)]; base sizes and hues never
    change. *)
Theorem dots_stay_inside (n : nat) (W H time : Z) (dots : list Dot) :
  (0 <= W)%Z -> (0 <= H)%Z ->
  List.length (animateDots n W H time dots) = List.length dots /\
  ((0 < n)%nat -> Forall (dot_inside W H) (animateDots n W H time dots)) /\
  map dot_baseSize (animateDots n W H time dots) = map dot_baseSize dots /\
  map dot_hue (animateDots n W H time dots) = map dot_hue dots.
Proof.
  intros HW HH. revert time dots.
  assert (Step : forall t ds, Forall (dot_inside W H) (map (dotUpdate W H t) ds)).
  { intros t ds. apply Forall_forall. intros d Hd. apply in_map_iff in Hd.
    destruct Hd as (d0 & E & _). subst d. apply dotUpdate_inside; assumption. }
  assert (Keep : forall t ds,
             map dot_baseSize (map (dotUpdate W H t) ds) = map dot_baseSize ds /\
             map dot_hue (map (dotUpdate W H t) ds) = map dot_hue ds).
  { intros t ds. rewrite !map_map. split; apply map_ext; intro d; reflexivity. }
  induction n as [|n IH]; intros time dots.
  - cbn. repeat split. intro K. lia.
  - cbn [animateDots].
    destruct (IH (time + 1)%Z (map (dotUpdate W H (inject_Z (time + 1))) dots))
      as (L & F & B & Hu).
    destruct (Keep (inject_Z (time + 1)) dots) as [K1 K2].
    split; [rewrite L; apply length_map|].
    split; [|split; congruence].
    intros _. destruct n as [|n'].
    + cbn [animateDots]. apply Step.
    + apply F. lia.
Qed.

Lemma dots_stay_inside_witness :
  Forall (dot_inside 800 600)
    (animateDots 3 800 600 0
      [{| dot_x := 799; dot_y := 1 # 10; dot_baseSize := 2; dot_size := 2;
       dot_vx := 1 # 4; dot_vy := -(1 # 4); dot_baseBrightness := 3 # 10;
       dot_brightness := 3 # 10; dot_brightnessSpeed := 1 # 100;
       dot_brightnessPhase := 1; dot_hue := 250 |}]).
Proof.
  assert (A : (0 <= 800)%Z) by lia.
  assert (B : (0 <= 600)%Z) by lia.
  destruct (dots_stay_inside 3 800 600 0
      [{| dot_x := 799; dot_y := 1 # 10; dot_baseSize := 2; dot_size := 2;
       dot_vx := 1 # 4; dot_vy := -(1 # 4); dot_baseBrightness := 3 # 10;
       dot_brightness := 3 # 10; dot_brightnessSpeed := 1 # 100;
       dot_brightnessPhase := 1; dot_hue := 250 |}] A B) as (_ & F & _).
  apply F. lia.
Defined.

(** ** Sparks *)

Lemma newSpark_fresh (random : nat -> Q) (W H i : Z) (k : nat) :
  unit_interval random ->
  let s := fst (newSpark random W H i k) in
  (800 <= sp_life s /\ sp_life s < 2000) /\
  (0 <= sp_elapsed s /\ sp_elapsed s < sp_life s) /\
  snd (newSpark random W H i k) = (k + 7)%nat.
Proof.
  intro U. unfold newSpark, bind, Math_random, ret. cbn [fst snd sp_life sp_elapsed].
  destruct (U (S (S (S (S k))))) as [L0 L1].
  destruct (U (S (S (S (S (S k)))))) as [E0 E1].
  set (li := random (S (S (S (S k))))) in *.
  set (el := random (S (S (S (S (S k)))))) in *.
  assert (P : 0 <= el * (800 + li * 1200)) by (apply Qmult_le_0_compat; lra).
  assert (P2 : 0 < (1 - el) * (800 + li * 1200)) by (apply Qmult_lt_0_compat; lra).
  assert (E : (1 - el) * (800 + li * 1200)
              == (800 + li * 1200) - el * (800 + li * 1200)) by ring.
  split; [split; lra|]. split; [split; lra|]. lia.
Qed.

(** X13: with [Math.random] in [0, 1), a non-negative frame delta and a
    non-negative elapsed time, [Spark.update] leaves [0 <= elapsed <= life].
    When the spark has left the top ([y < -10]) or outlived its life it is
    reset: eight random numbers are drawn, the new [y] is in
    [linesHeight, linesHeight + 20) and the new life in [800, 2000);
    otherwise it moves up by [speed * delta], ages by [delta], and no random
    number is drawn. *)
Theorem spark_elapsed_within_life (random : nat -> Q) (W H : Z) (delta : Q)
        (s : Spark) (k : nat) :
  unit_interval random ->
  0 <= delta -> 0 <= sp_elapsed s ->
  let s' := fst (sparkUpdate random W H delta s k) in
  (0 <= sp_elapsed s' /\ sp_elapsed s' <= sp_life s') /\
  ((sp_y s - sp_speed s * delta < -(10) \/ sp_life s < sp_elapsed s + delta) ->
   (inject_Z H <= sp_y s' /\ sp_y s' < inject_Z H + 20) /\
   (800 <= sp_life s' /\ sp_life s' < 2000) /\
   snd (sparkUpdate random W H delta s k) = (k + 8)%nat) /\
  (~ (sp_y s - sp_speed s * delta < -(10)) -> ~ (sp_life s < sp_elapsed s + delta) ->
   sp_y s' = sp_y s - sp_speed s * delta /\ sp_elapsed s' = sp_elapsed s + delta /\
   sp_life s' = sp_life s /\ snd (sparkUpdate random W H delta s k) = k).
Proof.
  intros U D E0. unfold sparkUpdate. cbv zeta.
  destruct (Qltb (sp_y s - sp_speed s * delta) (- (10))) eqn:A;
    destruct (Qltb (sp_life s) (sp_elapsed s + delta)) eqn:B; cbn [orb].
  4: { apply Qltb_ge in A. apply Qltb_ge in B. cbn [ret fst snd sp_elapsed sp_life sp_y].
       split; [split; lra|]. split; [intros [K|K]; lra|]. intros _ _. repeat split. }
  all: unfold bind;
    pose proof (newSpark_fresh random W H 0 k U) as N;
    destruct (newSpark random W H 0 k) as [s0 k0]; cbn [fst snd] in N;
    destruct N as (N1 & N2 & N3); subst k0;
    unfold Math_random, ret; cbn [fst snd sp_elapsed sp_life sp_y];
    destruct (U (k + 7)%nat) as [Y0 Y1];
    (split; [split; lra|]);
    (split; [intros _; split; [split; lra|]; split; [exact N1 | lia]|]);
    intros NA NB;
    try (apply Qltb_lt in A; contradiction);
    try (apply Qltb_lt in B; contradiction).
Qed.

Lemma spark_elapsed_within_life_witness :
  let s' := fst (sparkUpdate (fun _ => 1 # 2) 800 600 16
      {| sp_x := 10; sp_y := 300; sp_speed := 5 # 100; sp_size := 1; sp_life := 1000;
       sp_elapsed := 990; sp_hue := 300 |} 0%nat) in
  0 <= sp_elapsed s' /\ sp_elapsed s' <= sp_life s'.
Proof.
  assert (U : unit_interval (fun _ => 1 # 2)) by (intro k; split; [lra | reflexivity]).
  assert (D : 0 <= 16) by lra.
  assert (E : 0 <= sp_elapsed
      {| sp_x := 10; sp_y := 300; sp_speed := 5 # 100; sp_size := 1; sp_life := 1000;
       sp_elapsed := 990; sp_hue := 300 |}) by (cbn; lra).
  pose proof (spark_elapsed_within_life (fun _ => 1 # 2) 800 600 16 _ 0%nat U D E) as H.
  cbv zeta in H. destruct H as [H _]. exact H.
Defined.

(** ** Halo rings *)

Lemma rem_nonneg (x m : Q) :
  0 <= x -> 0 < m ->
  exists r, JsMath.rem x m = Some r /\ 0 <= r /\ r < m.
Proof.
  intros Hx Hm. unfold JsMath.rem.
  assert (Z0 : Qeq_bool m 0 = false).
  { destruct (Qeq_bool m 0) eqn:E; [|reflexivity]. apply Qeq_bool_iff in E. lra. }
  rewrite Z0. eexists. split; [reflexivity|].
  assert (P : 0 <= x / m) by (apply Qle_shift_div_l; lra).
  unfold JsMath.trunc. apply Qle_bool_iff in P. rewrite P. apply Qle_bool_iff in P.
  pose proof (Qfloor_le (x / m)) as F1. pose proof (Qlt_floor (x / m)) as F2.
  rewrite inject_Z_plus in F2. change (inject_Z 1) with 1 in F2.
  set (q := inject_Z (Qfloor (x / m))) in *.
  assert (X : x == m * (x / m)) by (field; lra).
  assert (A1 : 0 <= m * (x / m - q)) by (apply Qmult_le_0_compat; lra).
  assert (A2 : 0 < m * (q + 1 - x / m)) by (apply Qmult_lt_0_compat; lra).
  assert (E1 : m * (x / m - q) == m * (x / m) - m * q) by ring.
  assert (E2 : m * (q + 1 - x / m) == m * q + m - m * (x / m)) by ring.
  split; lra.
Qed.

Lemma rem_negative (x m : Q) :
  x < 0 -> 0 < m ->
  exists r, JsMath.rem x m = Some r /\ r <= 0 /\
            (r == 0 <-> exists k : Z, x == inject_Z k * m).
Proof.
  intros Hx Hm. unfold JsMath.rem.
  assert (Z0 : Qeq_bool m 0 = false).
  { destruct (Qeq_bool m 0) eqn:E; [|reflexivity]. apply Qeq_bool_iff in E. lra. }
  rewrite Z0. eexists. split; [reflexivity|].
  assert (P : x / m < 0).
  { apply Qlt_shift_div_r; lra. }
  unfold JsMath.trunc.
  assert (B : Qle_bool 0 (x / m) = false).
  { destruct (Qle_bool 0 (x / m)) eqn:E; [|reflexivity]. apply Qle_bool_iff in E. lra. }
  rewrite B. pose proof (Qle_ceiling (x / m)) as C.
  assert (X : x == m * (x / m)) by (field; lra).
  split.
  - set (q := inject_Z (Qceiling (x / m))) in *.
    assert (A1 : 0 <= m * (q - x / m)) by (apply Qmult_le_0_compat; lra).
    assert (E1 : m * (q - x / m) == m * q - m * (x / m)) by ring.
    lra.
  - split.
    + intro R. exists (Qceiling (x / m)).
      set (q := inject_Z (Qceiling (x / m))) in *.
      assert (E1 : q * m == m * q) by ring. lra.
    + intros [k K].
      assert (D : x / m == inject_Z k) by (rewrite K; field; lra).
      rewrite (Qceiling_comp _ _ D), Qceiling_Z, K. ring.
Qed.

(** X14: [HaloRing.draw(time)]: with a positive duration, from the delay
    on the ring is stroked with [t] in [0, 1), an alpha in (0, 0.25] and the
    radius [min(linesWidth, linesHeight) * 0.12 * (0.5 + 2 t)]; before the
    delay the remainder is negative and the method returns without drawing,
    unless the time is a whole number of durations before the delay: then
    the remainder is zero, the test [localTime < 0] fails and the ring is
    stroked at [t = 0]; a duration of 0 gives a NaN remainder, which passes
    the test [localTime < 0]. *)
Theorem halo_ring_window (W H : Z) (time : Q) (ring : HaloRing) :
  (hr_duration ring == 0 -> haloDraw W H time ring = HaloNaN) /\
  (0 < hr_duration ring -> hr_delay ring <= time ->
   exists t radius alpha,
     haloDraw W H time ring = HaloStroke t radius alpha /\
     (0 <= t /\ t < 1) /\ (0 < alpha /\ alpha <= 25 # 100) /\
     radius == inject_Z (Z.min W H) * (12 # 100) * ((5 # 10) + t * 2)) /\
  (0 < hr_duration ring -> time < hr_delay ring ->
   ((forall k : Z, ~ time - hr_delay ring == inject_Z k * hr_duration ring) ->
    haloDraw W H time ring = HaloReturn) /\
   ((exists k : Z, time - hr_delay ring == inject_Z k * hr_duration ring) ->
    exists t radius alpha,
      haloDraw W H time ring = HaloStroke t radius alpha /\ t == 0 /\
      alpha == 25 # 100 /\
      radius == inject_Z (Z.min W H) * (12 # 100) * (5 # 10))).
Proof.
  split; [|split].
  - intro Z0. unfold haloDraw, JsMath.rem. apply Qeq_bool_iff in Z0. rewrite Z0. reflexivity.
  - intros D T. unfold haloDraw.
    destruct (rem_nonneg (time - hr_delay ring) (hr_duration ring) ltac:(lra) D)
      as (r & E & R0 & R1).
    rewrite E. apply Qltb_ge in R0. rewrite R0. apply Qltb_ge in R0.
    eexists. eexists. eexists. split; [reflexivity|].
    assert (T0 : 0 <= r / hr_duration ring) by (apply Qle_shift_div_l; lra).
    assert (T1 : r / hr_duration ring < 1) by (apply Qlt_shift_div_r; lra).
    split; [split; assumption|]. split; [split; lra | reflexivity].
  - intros D T. unfold haloDraw.
    destruct (rem_negative (time - hr_delay ring) (hr_duration ring) ltac:(lra) D)
      as (r & E & R0 & RZ).
    rewrite E. split.
    + intro N.
      assert (L : r < 0).
      { apply Qnot_le_lt. intro G. assert (Z0 : r == 0) by lra.
        apply RZ in Z0. destruct Z0 as [k K]. exact (N k K). }
      apply Qltb_lt in L. rewrite L. reflexivity.
    + intro K. apply RZ in K.
      assert (G : Qltb r 0 = false) by (apply Qltb_ge; lra).
      rewrite G. eexists. eexists. eexists. split; [reflexivity|].
      assert (T0 : r / hr_duration ring == 0) by (rewrite K; field; lra).
      split; [exact T0|]. rewrite T0. split; ring.
Qed.

Lemma halo_ring_window_witness :
  haloDraw 800 600 100 {| hr_delay := 400; hr_duration := 0 |} = HaloNaN /\
  (exists t radius alpha,
     haloDraw 800 600 1000 {| hr_delay := 400; hr_duration := 2200 |}
     = HaloStroke t radius alpha /\ 0 <= t /\ t < 1) /\
  (exists t radius alpha,
     haloDraw 800 600 0 {| hr_delay := 4400; hr_duration := 2200 |}
     = HaloStroke t radius alpha /\ t == 0).
Proof.
  destruct (halo_ring_window 800 600 100 {| hr_delay := 400; hr_duration := 0 |})
    as (N & _).
  destruct (halo_ring_window 800 600 1000 {| hr_delay := 400; hr_duration := 2200 |})
    as (_ & K & _).
  destruct (halo_ring_window 800 600 0 {| hr_delay := 4400; hr_duration := 2200 |})
    as (_ & _ & M).
  split; [apply N; reflexivity|].
  assert (A : 0 < hr_duration {| hr_delay := 400; hr_duration := 2200 |}) by reflexivity.
  assert (B : hr_delay {| hr_delay := 400; hr_duration := 2200 |} <= 1000)
    by (cbn; lra).
  assert (A' : 0 < hr_duration {| hr_delay := 4400; hr_duration := 2200 |}) by reflexivity.
  assert (B' : 0 < hr_delay {| hr_delay := 4400; hr_duration := 2200 |}) by reflexivity.
  assert (C' : exists k : Z,
             0 - hr_delay {| hr_delay := 4400; hr_duration := 2200 |}
             == inject_Z k * hr_duration {| hr_delay := 4400; hr_duration := 2200 |})
    by (exists (-2)%Z; reflexivity).
  split.
  - destruct (K A B) as (t & radius & alpha & E & (T0 & T1) & _).
    exists t, radius, alpha. split; [exact E | split; assumption].
  - destruct (proj2 (M A' B') C') as (t & radius & alpha & E & T0 & _).
    exists t, radius, alpha. split; assumption.
Defined.

(** ** Skip events on the page *)

Lemma PageReach_page (s s' : PageWorld) :
  PageReach s ->
  (canvas s = true -> canvas s' = true) ->
  onComplete s' = onComplete s ->
  page s' = page s \/ page s' = completeFn (page s) ->
  PageReach s'.
Proof.
  intros (I & A & B & C) Hc Ho Hp.
  split; [apply (PageInv_step s s' I Hc Ho Hp)|].
  rewrite Ho.
  destruct Hp as [Hp|Hp]; rewrite Hp; [tauto|].
  destruct (completeFn_cases (page s)) as [[F E]|[F E]]; rewrite E; [tauto|].
  unfold revealMainSite, ensureDotsAnimation. rewrite F.
  cbn [dotsAnimationRunning].
  destruct (dotsAnimationRunning (page s));
    cbn [landingSequenceFinished skipHandlersAttached dotsAnimationRunning observatoryStarted];
    repeat split; intros; try discriminate; reflexivity.
Qed.

Lemma render_PageReach (throws : Throws) (ts : Q) (s : PageWorld) :
  PageReach s -> PageReach (render throws ts s).
Proof.
  intro I. destruct (render_page throws ts s) as (C & O & Pg).
  apply (PageReach_page s); [exact I | congruence | exact O |].
  destruct Pg as [Pg|(cb & Hcb & Pg)]; [left; exact Pg|].
  destruct I as ((_ & [I2|I2] & _) & _); rewrite I2 in Hcb; inversion Hcb; subst.
  right. exact Pg.
Qed.

Lemma frame_PageReach (throws : Throws) (ts : Q) (s : PageWorld) :
  PageReach s -> PageReach (frame throws ts s).
Proof.
  intro I. unfold frame.
  assert (I0 : PageReach (set_pending [] s)) by exact I.
  revert I0. generalize (set_pending [] s). generalize (pending s).
  intro l. induction l as [|x l IH]; intros s0 I0; [exact I0|].
  cbn [fold_left]. apply IH. apply render_PageReach. exact I0.
Qed.

Lemma set_skipRequested_PageReach (s : PageWorld) :
  PageReach s -> PageReach (set_skipRequested s).
Proof.
  destruct s as [cv sw sh st oc af sk pl pg tr pn nh].
  destruct pg as [fin req obs att dots rev].
  unfold PageReach, PageInv, set_skipRequested. cbn. tauto.
Qed.

(** Any skip event but Tab, on a page whose landing sequence is not
    finished, finishes it. *)
Lemma skipIntro_reveals (e : DomEvent) (s : PageWorld) :
  PageReach s -> isTabKey e = false -> landingSequenceFinished (page s) = false ->
  exists s', skipIntro e s = Some s' /\ PageReach s' /\
             landingSequenceFinished (page s') = true.
Proof.
  intros I T F. unfold skipIntro. rewrite F, T.
  pose proof (set_skipRequested_PageReach s I) as I1.
  assert (F1 : landingSequenceFinished (page (set_skipRequested s)) = false) by exact F.
  set (s1 := set_skipRequested s) in *.
  assert (Fin : landingSequenceFinished (completeFn (page s1)) = true).
  { destruct (completeFn_cases (page s1)) as [[X _]|[_ X]]; [congruence|].
    rewrite X. apply revealMainSite_flags. exact F1. }
  destruct (observatoryStarted (page s1)) eqn:Ob.
  - pose proof I1 as I1'. destruct I1 as ((A & B & C) & D & D' & E).
    pose proof (C Ob F1) as Cv. pose proof (E Ob F1) as Oc.
    destruct (skip s1) as [s'|] eqn:Sk.
    + exists s'. split; [reflexivity|].
      destruct (skip_effect _ _ Sk) as (_ & _ & _ & Cv' & O' & _ & T').
      rewrite Oc in T'. destruct T' as [_ Pg].
      split.
      * apply (PageReach_page s1); [exact I1' | intros _; exact Cv' | exact O'
                                     | right; exact Pg].
      * rewrite Pg. exact Fin.
    + exfalso. unfold skip in Sk.
      destruct (animFrameId (set_skipped true s1));
        cbn [canvas set_animFrameId cancelAnimationFrame set_pending set_skipped] in Sk;
        rewrite Cv in Sk; discriminate.
  - eexists. split; [reflexivity|].
    assert (Pg : revealMainSite (page s1) = completeFn (page s1)).
    { destruct (completeFn_cases (page s1)) as [[X _]|[_ X]]; [congruence | symmetry; exact X]. }
    split.
    + apply (PageReach_page s1); [exact I1 | auto | reflexivity | right; exact Pg].
    + cbn [page set_page]. rewrite Pg. exact Fin.
Qed.

Lemma skipIntro_PageReach (e : DomEvent) (s : PageWorld) :
  PageReach s -> exists s', skipIntro e s = Some s' /\ PageReach s'.
Proof.
  intro I.
  destruct (landingSequenceFinished (page s)) eqn:F.
  - exists s. unfold skipIntro. rewrite F. split; [reflexivity | exact I].
  - destruct (isTabKey e) eqn:T.
    + exists s. unfold skipIntro. rewrite F, T. split; [reflexivity | exact I].
    + destruct (skipIntro_reveals e s I T F) as (s' & E & I' & _). eauto.
Qed.

Lemma startObservatorySequence_PageReach (cw ch : Z) (s : PageWorld) :
  PageReach s -> PageReach (startObservatorySequence cw ch s).
Proof.
  destruct s as [cv sw sh st oc af sk pl pg tr pn nh].
  destruct pg as [fin req obs att dots rev].
  unfold PageReach, PageInv, startObservatorySequence. cbn.
  intros ((A & B & C) & D & D' & E).
  destruct fin; cbn; [tauto|].
  destruct obs; cbn; [tauto|].
  destruct req; cbn.
  - unfold revealMainSite, ensureDotsAnimation. cbn.
    destruct dots; cbn; rewrite A; repeat split; try assumption; intros;
      try discriminate; reflexivity.
  - repeat split; auto; intros; discriminate.
Qed.

Lemma resize_PageReach (cw ch : Z) (s : PageWorld) : PageReach s -> PageReach (resize cw ch s).
Proof.
  intro I. unfold resize. destruct (canvas s) eqn:C; [|exact I].
  apply (PageReach_page s); [exact I | intros _; reflexivity | reflexivity | left; reflexivity].
Qed.

Lemma pageExec_PageReach (throws : Throws) (acts : list PageAction) (s s' : PageWorld) :
  PageReach s -> pageExec throws acts s = Some s' -> PageReach s'.
Proof.
  revert s. induction acts as [|x rest IH]; intros s I E.
  - cbn in E. inversion E. subst. exact I.
  - cbn [pageExec] in E. destruct (pageAct throws x s) as [s1|] eqn:A; [|discriminate].
    apply (IH s1); [|exact E].
    destruct x as [e|cw ch|ts|cw ch]; cbn [pageAct] in A.
    + destruct (skipHandlersAttached (page s)).
      * destruct (skipIntro_PageReach e s I) as (s2 & E2 & I2). congruence.
      * inversion A. subst. exact I.
    + inversion A. apply startObservatorySequence_PageReach. exact I.
    + inversion A. apply frame_PageReach. exact I.
    + inversion A. apply resize_PageReach. exact I.
Qed.

Lemma pageInitial_PageReach : PageReach pageInitial.
Proof.
  split; [exact pageInitial_PageInv|]. cbn. repeat split; auto; intros; discriminate.
Qed.

(** X15: in every state the page reaches from [init()] by skip events, the
    end of the intro, animation frames and resizes: a Tab key press changes
    nothing; any other skip event (a click, a touch, another key) leaves the
    landing sequence finished, the main site revealed exactly once, the skip
    listeners detached and the ambient dots running; and once the sequence is
    finished a further event changes nothing at all. *)
Theorem skip_events_reveal_once (throws : Throws) (acts : list PageAction)
        (s : PageWorld) :
  pageExec throws acts pageInitial = Some s ->
  pageAct throws (PDom (keydown "Tab"%string)) s = Some s /\
  forall e : DomEvent,
    isTabKey e = false ->
    exists s',
      pageAct throws (PDom e) s = Some s' /\
      landingSequenceFinished (page s') = true /\
      reveals (page s') = 1%nat /\
      skipHandlersAttached (page s') = false /\
      dotsAnimationRunning (page s') = true /\
      (landingSequenceFinished (page s) = true -> s' = s).
Proof.
  intro E. pose proof (pageExec_PageReach throws acts _ _ pageInitial_PageReach E) as I.
  split.
  - cbn [pageAct]. unfold skipIntro. cbn [isTabKey]. cbn.
    destruct (skipHandlersAttached (page s)); [|reflexivity].
    destruct (landingSequenceFinished (page s)); reflexivity.
  - intros e T.
    assert (Done : forall s' : PageWorld,
               PageReach s' -> landingSequenceFinished (page s') = true ->
               reveals (page s') = 1%nat /\ skipHandlersAttached (page s') = false /\
               dotsAnimationRunning (page s') = true).
    { intros s' ((A & _) & _ & D & _) F. rewrite F in A. destruct (D F). auto. }
    destruct (landingSequenceFinished (page s)) eqn:F.
    + exists s. destruct (Done s I F) as (R & At & Dt).
      cbn [pageAct]. rewrite At. repeat split; assumption.
    + pose proof (proj1 (proj2 I) F) as At0.
      cbn [pageAct]. rewrite At0.
      destruct (skipIntro_reveals e s I T F) as (s' & E' & I' & F').
      exists s'. destruct (Done s' I' F') as (R & At & Dt).
      repeat split; try assumption. intro K. discriminate.
Qed.

Lemma skip_events_reveal_once_witness :
  pageAct othersRaise (PDom (keydown "Tab"%string)) pageInitial = Some pageInitial.
Proof.
  exact (proj1 (skip_events_reveal_once othersRaise [] pageInitial eq_refl)).
Defined.

(** ** Stopping, the clock and repeated starts *)

Section MoreControllerFacts.

Context {P : Type} (throws : Throws).
Implicit Types s : World P.

(** X16: [stop()] on a running sequence cancels the requested frame and
    clears the handle without drawing, without setting [skipped] and without
    calling the callback; no later frame of the host changes anything;
    [stop()] is idempotent; and a [skip()] after it still calls the callback,
    once. *)
Theorem stop_freezes_sequence (cb : P -> P) (p : P) s (tss : list Q) :
  Running cb p s ->
  pending (stop s) = [] /\ animFrameId (stop s) = None /\
  trace (stop s) = trace s /\ skipped (stop s) = false /\ page (stop s) = p /\
  fold_left (fun s ts => frame throws ts s) tss (stop s) = stop s /\
  stop (stop s) = stop s /\
  exists s', skip (stop s) = Some s' /\ completions (trace s') = 1%nat /\ page s' = cb p.
Proof.
  intros (Hs & Hc & Hcv & Hn & Hp & id & Hpend & Hid).
  destruct s as [cv sw sh st oc af sk pl pg tr pn nh].
  cbn in Hs, Hc, Hcv, Hn, Hp, Hpend, Hid. subst cv oc af sk pn pg.
  assert (E : stop (mkWorld true sw sh st (Some cb) (Some id) false pl p tr [id] nh)
              = mkWorld true sw sh st (Some cb) None false pl p tr [] nh).
  { unfold stop, cancelAnimationFrame, set_pending, set_animFrameId. cbn.
    rewrite Pos.eqb_refl. reflexivity. }
  rewrite E. cbn [pending animFrameId trace skipped page].
  repeat split.
  - apply frames_no_pending. reflexivity.
  - eexists. split; [reflexivity|]. cbn. rewrite !completions_app, Hn. split; reflexivity.
Qed.

Lemma render_startTime ts s :
  skipped s = false -> startTime (render throws ts s) = Some (clockStart ts s).
Proof.
  intro Hs. destruct (Qlt_le_dec (ts - clockStart ts s) DURATION) as [Lt|Le].
  - pose proof (render_before_end throws ts s Hs Lt) as E. cbv zeta in E. rewrite E.
    destruct (snd _); reflexivity.
  - rewrite (render_final throws ts s Hs Le).
    unfold complete, log, set_startTime, set_page.
    cbn [canvas w h startTime onComplete animFrameId skipped pools page trace
         pending nextHandle].
    destruct (onComplete s); reflexivity.
Qed.

(** X17: once [startTime] holds a non-zero timestamp no frame changes it.
    A first frame at timestamp [ts] stores [ts]; if [ts] is not 0 every later
    frame measures from it, but if [ts] is 0 the test [if (!startTime)]
    succeeds again and the next frame measures from its own timestamp. *)
Theorem clock_latches_on_nonzero_timestamp s (ts ts' : Q) :
  canvas s = true ->
  (forall t0, startTime s = Some t0 -> ~ t0 == 0 ->
              clockStart ts s = t0 /\ startTime (render throws ts s) = Some t0) /\
  (skipped s = false -> startTime s = None ->
   startTime (render throws ts s) = Some ts /\
   (~ ts == 0 -> clockStart ts' (render throws ts s) = ts) /\
   (ts == 0 -> clockStart ts' (render throws ts s) = ts')).
Proof.
  intros _. split.
  - intros t0 H N. pose proof (clockStart_latched ts t0 s H N) as C.
    split; [exact C|].
    destruct (skipped s) eqn:Hs.
    + rewrite (render_skipped throws ts s Hs). exact H.
    + rewrite (render_startTime ts s Hs), C. reflexivity.
  - intros Hs H.
    assert (C : clockStart ts s = ts) by (unfold clockStart; rewrite H; reflexivity).
    pose proof (render_startTime ts s Hs) as St. rewrite C in St.
    split; [exact St|]. unfold clockStart. rewrite St. cbn [falsy].
    split; intro K.
    + destruct (Qeq_bool ts 0) eqn:E; [apply Qeq_bool_iff in E; contradiction | reflexivity].
    + apply Qeq_bool_iff in K. rewrite K. reflexivity.
Qed.

(** *** Starting twice *)

Lemma frame_Doubled cb p ts t0 s :
  Doubled cb p s -> clockStart ts s = t0 -> ~ t0 == 0 -> ts - t0 < DURATION ->
  quiet throws (w s) (h s) (ts - t0) ->
  Doubled cb p (frame throws ts s) /\ startTime (frame throws ts s) = Some t0 /\
  w (frame throws ts s) = w s /\ h (frame throws ts s) = h s.
Proof.
  intros (Hs & Hc & Hcv & Hn & Hp & a & b & Hpend) C N Lt Hq.
  unfold frame. rewrite Hpend. cbn [fold_left].
  set (s0 := set_pending [] s).
  assert (Hs0 : skipped s0 = false) by exact Hs.
  assert (L0 : ts - clockStart ts s0 < DURATION)
    by (change (clockStart ts s0) with (clockStart ts s); rewrite C; exact Lt).
  assert (Q0 : quiet throws (w s0) (h s0) (ts - clockStart ts s0))
    by (change (clockStart ts s0) with (clockStart ts s); rewrite C; exact Hq).
  rewrite (render_running throws ts s0 Hs0 L0 Q0).
  change (clockStart ts s0) with (clockStart ts s). rewrite C.
  set (s1 := mkWorld _ _ _ _ _ _ _ _ _ _ _ _).
  assert (Hs1 : skipped s1 = false) by reflexivity.
  assert (C1 : clockStart ts s1 = t0).
  { apply clockStart_latched; [reflexivity | exact N]. }
  assert (L1 : ts - clockStart ts s1 < DURATION) by (rewrite C1; exact Lt).
  assert (Q1 : quiet throws (w s1) (h s1) (ts - clockStart ts s1))
    by (rewrite C1; exact Hq).
  pose proof (render_running throws ts s1 Hs1 L1 Q1) as E1. cbv zeta in E1.
  rewrite E1, C1. clear E1.
  unfold Doubled, s1, s0.
  cbn [canvas w h startTime onComplete animFrameId skipped pools page trace
       pending nextHandle set_pending].
  repeat split; try assumption.
  - rewrite !completions_app, !completions_runPhases, Hn. reflexivity.
  - eexists. eexists. reflexivity.
Qed.

Lemma frames_Doubled cb p t0 (tss : list Q) s :
  Doubled cb p s -> startTime s = Some t0 -> ~ t0 == 0 ->
  Forall (fun ts => ts - t0 < DURATION) tss ->
  Forall (fun ts => quiet throws (w s) (h s) (ts - t0)) tss ->
  let s' := fold_left (fun s ts => frame throws ts s) tss s in
  Doubled cb p s' /\ startTime s' = Some t0.
Proof.
  intros R St N F. revert s R St.
  induction F as [|ts tss Hts F IH]; intros s R St HQ; cbn [fold_left].
  - split; assumption.
  - apply Forall_cons_iff in HQ. destruct HQ as [Q0 Qr].
    pose proof (clockStart_latched ts t0 s St N) as C.
    destruct (frame_Doubled cb p ts t0 s R C N Hts Q0) as (R' & St' & W' & H').
    apply IH; [exact R' | exact St' |]. rewrite W', H'. exact Qr.
Qed.

Lemma frame_Doubled_end cb p ts t0 s :
  Doubled cb p s -> startTime s = Some t0 -> ~ t0 == 0 -> DURATION <= ts - t0 ->
  completions (trace (frame throws ts s)) = 2%nat /\
  page (frame throws ts s) = cb (cb p) /\
  pending (frame throws ts s) = [].
Proof.
  intros (Hs & Hc & Hcv & Hn & Hp & a & b & Hpend) St N Le.
  unfold frame. rewrite Hpend. cbn [fold_left].
  destruct s as [cv sw sh st oc af sk pl pg tr pn nh].
  cbn in Hs, Hc, Hcv, Hn, Hp, Hpend, St. subst cv oc sk pn pg st.
  set (s0 := set_pending [] _).
  assert (C0 : clockStart ts s0 = t0) by (apply clockStart_latched; [reflexivity | exact N]).
  assert (L0 : DURATION <= ts - clockStart ts s0) by (rewrite C0; exact Le).
  rewrite (render_final throws ts s0 (eq_refl : skipped s0 = false) L0). rewrite C0.
  set (s1 := complete _).
  assert (C1 : clockStart ts s1 = t0) by (apply clockStart_latched; [reflexivity | exact N]).
  assert (L1 : DURATION <= ts - clockStart ts s1) by (rewrite C1; exact Le).
  rewrite (render_final throws ts s1 (eq_refl : skipped s1 = false) L1).
  unfold s1, s0. cbn. rewrite !completions_app, Hn. repeat split.
Qed.

Lemma start_twice_Doubled cw ch cw' ch' (cb : P -> P) (p : P) :
  Doubled cb p (start cw' ch' (Some cb) (start cw ch (Some cb) (initial p))) /\
  startTime (start cw' ch' (Some cb) (start cw ch (Some cb) (initial p))) = None.
Proof.
  unfold Doubled. cbn. repeat split. eexists. eexists. reflexivity.
Qed.

Lemma exec_two_starts cw ch cw' ch' (c c' : option (P -> P)) (rest : list (Action P)) s :
  exec throws (AStart cw ch c :: AStart cw' ch' c' :: rest) s
  = exec throws rest (start cw' ch' c' (start cw ch c s)).
Proof. reflexivity. Qed.

(** X19: [start()] does not cancel a frame that is already requested.
    Called twice before any frame, it leaves two frame callbacks queued; as
    long as no renderer raises both are served in every frame and each
    requests the next; when the duration is reached both complete, so the
    callback is called twice, and no frame is left requested. *)
Theorem start_twice_completes_twice
        (cw ch cw' ch' : Z) (cb : P -> P) (p : P) (t0 tEnd : Q) (mid : list Q) :
  beforeEnd (t0 :: mid) ->
  Forall (fun ts => quiet throws cw' ch' (ts - t0)) (t0 :: mid) ->
  DURATION <= tEnd - t0 ->
  exists s',
    exec throws (AStart cw ch (Some cb) :: AStart cw' ch' (Some cb)
                        :: map AFrame (t0 :: mid ++ [tEnd])) (initial p) = Some s' /\
    completions (trace s') = 2%nat /\ page s' = cb (cb p) /\ pending s' = [].
Proof.
  intros [N F] HQ Le. apply Forall_cons_iff in HQ. destruct HQ as [Q0 Qr].
  rewrite exec_two_starts, exec_frames.
  destruct (start_twice_Doubled cw ch cw' ch' cb p) as [D0 S0].
  destruct (start_dims cw' ch' (Some cb) (start cw ch (Some cb) (initial p))) as [W0 H0].
  revert D0 S0 W0 H0.
  generalize (start cw' ch' (Some cb) (start cw ch (Some cb) (initial p))).
  intros s0 D0 S0 W0 H0.
  eexists. split; [reflexivity|].
  change (t0 :: mid ++ [tEnd]) with ((t0 :: mid) ++ [tEnd]).
  rewrite fold_left_app. cbn [fold_left].
  assert (C0 : clockStart t0 s0 = t0) by (unfold clockStart; rewrite S0; reflexivity).
  assert (Lt0 : t0 - t0 < DURATION) by (unfold DURATION; lra).
  rewrite <- W0, <- H0 in Q0, Qr.
  destruct (frame_Doubled cb p t0 t0 s0 D0 C0 N Lt0 Q0) as (D1 & S1 & W1 & H1).
  rewrite <- W1, <- H1 in Qr.
  destruct (frames_Doubled cb p t0 mid _ D1 S1 N F Qr) as [D2 S2].
  exact (frame_Doubled_end cb p tEnd t0 _ D2 S2 N Le).
Qed.

End MoreControllerFacts.

Lemma stop_freezes_sequence_witness :
  pending (stop (start 800 600 (Some S) (initial 0%nat))) = [] /\
  stop (stop (start 800 600 (Some S) (initial 0%nat)))
  = stop (start 800 600 (Some S) (initial 0%nat)).
Proof.
  destruct (start_Running 800 600 S 0%nat) as [R _].
  destruct (stop_freezes_sequence othersRaise S 0%nat _ [] R)
    as (A & _ & _ & _ & _ & _ & B & _).
  split; [exact A | exact B].
Defined.

Lemma clock_latches_on_nonzero_timestamp_witness :
  startTime (render othersRaise 5 (start 800 600 None (initial 0%nat))) = Some 5 /\
  clockStart 9 (render othersRaise 0 (start 800 600 None (initial 0%nat))) = 9.
Proof.
  assert (C : canvas (start 800 600 None (initial 0%nat)) = true) by reflexivity.
  assert (Sk : skipped (start 800 600 None (initial 0%nat)) = false) by reflexivity.
  assert (St : startTime (start 800 600 None (initial 0%nat)) = None) by reflexivity.
  destruct (clock_latches_on_nonzero_timestamp othersRaise _ 5 9 C) as [_ A].
  destruct (clock_latches_on_nonzero_timestamp othersRaise _ 0 9 C) as [_ B].
  destruct (A Sk St) as (A1 & _).
  destruct (B Sk St) as (_ & _ & B3).
  split; [exact A1 | apply B3; reflexivity].
Defined.

Lemma start_twice_completes_twice_witness :
  exists s',
    exec othersRaise (AStart 800 600 (Some S) :: AStart 800 600 (Some S)
                        :: map AFrame (1 :: [] ++ [32001])) (initial 0%nat) = Some s' /\
    completions (trace s') = 2%nat /\ page s' = 2%nat /\ pending s' = [].
Proof.
  assert (B : beforeEnd [1]).
  { split; [intro K; discriminate K | constructor]. }
  assert (HQ : Forall (fun ts => quiet othersRaise 800 600 (ts - 1)) [1]).
  { repeat constructor. }
  assert (L : DURATION <= 32001 - 1) by (unfold DURATION; lra).
  exact (start_twice_completes_twice othersRaise 800 600 800 600 S 0%nat 1 32001 [] B HQ L).
Defined.

(** ** drawApproach on a large enough canvas *)

Lemma returns_dret {A : Type} (a : A) : returns (dret a).
Proof. exists a. reflexivity. Qed.

Lemma returns_emit (c : Cmd) : returns (emit c).
Proof. exists tt. reflexivity. Qed.

Lemma returns_dbind {A B : Type} (m : Draw A) (k : A -> Draw B) :
  returns m -> (forall a, returns (k a)) -> returns (dbind m k).
Proof.
  intros [a Ha] Hk. unfold dbind. destruct m as [l res]. cbn [snd] in Ha. subst res.
  destruct (Hk a) as [b Hb]. destruct (k a) as [l' res']. cbn [snd] in *. exists b. exact Hb.
Qed.

Lemma returns_arc (x y radius a0 a1 : Q) (ccw : bool) :
  0 <= radius -> returns (arc x y radius a0 a1 ccw).
Proof.
  intro H. unfold arc. apply Qltb_ge in H. rewrite H. apply returns_emit.
Qed.

Lemma returns_ellipse (x y rx ry rot a0 a1 : Q) :
  0 <= rx -> 0 <= ry -> returns (ellipse x y rx ry rot a0 a1).
Proof.
  intros H1 H2. unfold ellipse. apply Qltb_ge in H1. apply Qltb_ge in H2.
  rewrite H1, H2. apply returns_emit.
Qed.

Lemma returns_createRadialGradient (x0 y0 r0 x1 y1 r1 : Q) :
  0 <= r0 -> 0 <= r1 -> returns (createRadialGradient x0 y0 r0 x1 y1 r1).
Proof.
  intros H1 H2. unfold createRadialGradient. apply Qltb_ge in H1. apply Qltb_ge in H2.
  rewrite H1, H2. apply returns_dret.
Qed.

Lemma returns_if {A : Type} (b : bool) (m1 m2 : Draw A) :
  (b = true -> returns m1) -> (b = false -> returns m2) -> returns (if b then m1 else m2).
Proof. destruct b; auto. Qed.

Lemma returns_forDraw (n : nat) (body : Z -> Draw unit) : forall i0 : Z,
  (forall i, (i0 <= i)%Z -> returns (body i)) -> returns (forDraw n i0 body).
Proof.
  induction n as [|n IH]; intros i0 H; [apply returns_dret|].
  cbn [forDraw]. apply returns_dbind; [apply H; lia|].
  intros _. apply IH. intros i Hi. apply H. lia.
Qed.

Lemma returns_forAngle (fuel : nat) (limit step : Q) (body : Q -> Draw unit) : forall ang : Q,
  (forall a, returns (body a)) -> returns (forAngle fuel ang limit step body).
Proof.
  induction fuel as [|n IH]; intros ang H; [apply returns_dret|].
  cbn [forAngle]. apply returns_if; intros _; [|apply returns_dret].
  apply returns_dbind; [apply H|]. intros _. apply IH. exact H.
Qed.

Lemma hypot_ge_min (w h : Z) :
  (0 <= w)%Z -> (0 <= h)%Z ->
  inject_Z (Z.min w h) <= JsMath.hypot (inject_Z w) (inject_Z h).
Proof.
  intros Hw Hh. unfold JsMath.hypot, JsMath.sqrt.
  set (m := Z.min w h).
  assert (E : inject_Z w * inject_Z w + inject_Z h * inject_Z h == inject_Z (w * w + h * h)).
  { rewrite inject_Z_plus, !inject_Z_mult. reflexivity. }
  assert (F : Qfloor ((inject_Z w * inject_Z w + inject_Z h * inject_Z h) * inject_Z (10 ^ 30))
              = ((w * w + h * h) * 10 ^ 30)%Z).
  { rewrite E, <- inject_Z_mult. apply Qfloor_Z. }
  rewrite F.
  assert (S : (m * 10 ^ 15 <= Z.sqrt ((w * w + h * h) * 10 ^ 30))%Z).
  { rewrite <- (Z.sqrt_square (m * 10 ^ 15)) by (unfold m; lia).
    apply Z.sqrt_le_mono. unfold m.
    assert (Z.min w h * Z.min w h <= w * w + h * h)%Z by nia.
    change (10 ^ 30)%Z with (10 ^ 15 * 10 ^ 15)%Z. nia. }
  unfold Qle. cbn [Qnum Qden inject_Z]. 
  change (Z.pos (Z.to_pos (10 ^ 15))) with (10 ^ 15)%Z. lia.
Qed.

Lemma drawApproach_returns (w h : Z) (t elapsed : Q) :
  (115 <= Z.min w h)%Z -> 0 <= t -> t <= 1 ->
  returns (drawApproach w h t elapsed).
Proof.
  intros Hm T0 T1. unfold drawApproach. cbv zeta.
  apply returns_if; intros _; [apply returns_dret|].
  set (minR := Math_min (inject_Z w) (inject_Z h) * (35 # 1000)).
  set (maxR := JsMath.hypot (inject_Z w) (inject_Z h) * (62 # 100)).
  set (radius := lerp minR maxR (easeInOut t)).
  assert (Mn : Math_min (inject_Z w) (inject_Z h) == inject_Z (Z.min w h)).
  { unfold Math_min. destruct (Z.min_spec w h) as [[A B]|[A B]]; rewrite B.
    - apply Q.min_l. rewrite <- Zle_Qle. lia.
    - apply Q.min_r. rewrite <- Zle_Qle. lia. }
  assert (M115 : 115 <= inject_Z (Z.min w h)).
  { change 115 with (inject_Z 115). rewrite <- Zle_Qle. exact Hm. }
  assert (Hy : inject_Z (Z.min w h) <= JsMath.hypot (inject_Z w) (inject_Z h))
    by (apply hypot_ge_min; lia).
  assert (R1 : 4 < minR) by (unfold minR; rewrite Mn; lra).
  assert (R2 : minR <= maxR) by (unfold minR, maxR; rewrite Mn; lra).
  destruct (easeInOut_range t T0 T1) as [E0 E1].
  assert (R : 4 < radius).
  { unfold radius, lerp.
    assert (0 <= (maxR - minR) * easeInOut t) by (apply Qmult_le_0_compat; lra). lra. }
  clearbody radius minR maxR.
  repeat first
         [ apply returns_emit
         | apply returns_dret
         | apply returns_arc
         | apply returns_ellipse
         | apply returns_createRadialGradient
         | apply returns_forDraw; let i := fresh "i" in let Hi := fresh "Hi" in intros i Hi
         | apply returns_forAngle; intros ?
         | apply returns_if; let Hb := fresh "Hb" in intros Hb
         | apply returns_dbind; [|intros ?] ];
    try lra.
  - match goal with
    | K : Qltb ?rr 2 = false |- 0 <= ?rr => apply Qltb_ge in K; set (v := rr) in *; lra
    end.
  - match goal with
    | K : (0 <= ?i)%Z |- 0 <= radius * (_ + inject_Z ?i * _) =>
        assert (0 <= inject_Z i) by (change 0 with (inject_Z 0); rewrite <- Zle_Qle; exact K);
        apply Qmult_le_0_compat; lra
    end.
Qed.

(** X20: on a canvas whose smaller side is 115 pixels or more
    [drawApproach] raises no exception, for every [t] of its window and every
    elapsed time: every radius handed to [createRadialGradient], [arc] and
    [ellipse] is non-negative there. *)
Theorem drawApproach_returns_normally (w h : Z) (t elapsed : Q) :
  (115 <= Z.min w h)%Z -> 0 <= t -> t <= 1 ->
  returns (drawApproach w h t elapsed).
Proof.
  exact (drawApproach_returns w h t elapsed).
Qed.

Lemma drawApproach_returns_normally_witness :
  returns (drawApproach 800 600 (1 # 2) 1000).
Proof.
  apply (drawApproach_returns_normally 800 600 (1 # 2) 1000); [lia | lra | lra].
Defined.

(** ** The phase scheduler on a canvas *)

Lemma raises_returns {A : Type} (m : Draw A) : returns m -> raises m = false.
Proof. intros [a E]. unfold raises. rewrite E. reflexivity. Qed.

Lemma callPhases_out (throws : Throws) cw ch fn a b ps e z :
  e < a \/ b < e ->
  callPhases throws cw ch ((fn, a, b) :: ps) e z = callPhases throws cw ch ps e z.
Proof.
  intro H. cbn [callPhases].
  assert (W : Qleb a e && Qleb e b = false).
  { destruct H as [H|H].
    - rewrite (proj2 (Qleb_gt a e) H). reflexivity.
    - rewrite (proj2 (Qleb_gt e b) H). apply andb_false_r. }
  rewrite W. reflexivity.
Qed.


Lemma callPhases_in_return (throws : Throws) cw ch fn a b ps e z :
  a <= e -> e <= b -> throws fn cw ch ((e - a) / (b - a)) e z = false ->
  callPhases throws cw ch ((fn, a, b) :: ps) e z
  = (ECall fn ((e - a) / (b - a)) e z :: fst (callPhases throws cw ch ps e z),
     snd (callPhases throws cw ch ps e z)).
Proof.
  intros A B T. cbn [callPhases].
  rewrite (proj2 (Qleb_le a e) A), (proj2 (Qleb_le e b) B). cbn [andb]. cbv zeta.
  rewrite T. destruct (callPhases throws cw ch ps e z). reflexivity.
Qed.


Lemma approach_returns_in_window (rest : Throws) cw ch e z :
  (115 <= Z.min cw ch)%Z -> 0 <= e -> e <= 9000 ->
  approachThrows rest fn_drawApproach cw ch ((e - 0) / (9000 - 0)) e z = false.
Proof.
  intros M A B. cbn [approachThrows]. apply raises_returns.
  apply drawApproach_returns; [exact M | |].
  - apply Qle_shift_div_l; lra.
  - apply Qle_shift_div_r; lra.
Qed.

(** On a canvas whose smaller side is 115 pixels or more, no renderer raises
    in a frame before the optics phase begins. *)
Lemma approach_only_quiet (rest : Throws) cw ch e :
  (115 <= Z.min cw ch)%Z -> 0 <= e -> e < 6000 -> quiet (approachThrows rest) cw ch e.
Proof.
  intros M A B. unfold quiet, phases.
  rewrite callPhases_in_return;
    [| lra | lra | apply approach_returns_in_window; [exact M | lra | lra]].
  cbn [snd]. rewrite !callPhases_out by (left; lra). reflexivity.
Qed.

(** X18: on a canvas whose smaller side is 115 pixels or more the first six
    seconds of the sequence cannot stall: after [start()], frames whose
    elapsed time stays below 6000 ms call [drawApproach] only, which returns,
    so after each of them the next frame is requested, the clock stays at the
    first timestamp and the callback has not been called, whatever the other
    renderers do. *)
Theorem approach_phase_never_stalls {P : Type} (rest : Throws) (cw ch : Z)
        (cb : P -> P) (p : P) (t0 : Q) (mid : list Q) :
  (115 <= Z.min cw ch)%Z -> ~ t0 == 0 ->
  Forall (fun ts => 0 <= ts - t0 /\ ts - t0 < 6000) mid ->
  let s' := fold_left (fun s ts => frame (approachThrows rest) ts s) (t0 :: mid)
                      (start cw ch (Some cb) (initial p)) in
  Running cb p s' /\ startTime s' = Some t0 /\ w s' = cw /\ h s' = ch /\
  Forall (fun ts => callees (runPhases phases (ts - t0) (getZoom (ts - t0)))
                    = [fn_drawApproach]) (t0 :: mid).
Proof.
  intros M N F.
  assert (B : beforeEnd (t0 :: mid)).
  { split; [exact N|]. apply Forall_forall. intros ts H.
    rewrite Forall_forall in F. destruct (F ts H) as [_ L]. unfold DURATION. lra. }
  assert (F' : Forall (fun ts => 0 <= ts - t0 /\ ts - t0 < 6000) (t0 :: mid)).
  { constructor; [split; lra | exact F]. }
  assert (HQ : Forall (fun ts => quiet (approachThrows rest) cw ch (ts - t0)) (t0 :: mid)).
  { apply Forall_forall. intros ts H. rewrite Forall_forall in F'.
    destruct (F' ts H) as [A L]. apply approach_only_quiet; assumption. }
  destruct (beforeEnd_Running (approachThrows rest) cw ch cb p (t0 :: mid) B HQ)
    as (R & St & W & H).
  split; [exact R|]. split; [exact St|]. split; [exact W|]. split; [exact H|].
  apply Forall_forall. intros ts Hin. rewrite Forall_forall in F'.
  destruct (F' ts Hin) as [A L].
  unfold phases. cbn [runPhases]. split_bools; try (exfalso; lra). reflexivity.
Qed.

Lemma approach_phase_never_stalls_witness :
  Running S 0%nat
          (fold_left (fun s ts => frame othersRaise ts s) (1000 :: [1016; 1033; 6999])
                     (start 800 600 (Some S) (initial 0%nat))).
Proof.
  assert (M : (115 <= Z.min 800 600)%Z) by (vm_compute; discriminate).
  assert (N : ~ 1000 == 0) by discriminate.
  assert (F : Forall (fun ts => 0 <= ts - 1000 /\ ts - 1000 < 6000) [1016; 1033; 6999]).
  { repeat constructor; vm_compute; discriminate. }
  exact (proj1 (approach_phase_never_stalls (fun _ _ _ _ _ _ => true) 800 600 S 0%nat
                                            1000 [1016; 1033; 6999] M N F)).
Defined.






